(** * Qimcifa: a quantum-inspired Monte Carlo integer factoring algorithm

    A shallow embedding of the programs of the repository:

    - [Shor]     the single-file variant [qimcifa.cpp] (period guess,
                 continued fractions, [uipow], [gcd]);
    - [Qimcifa]  the distributed variant [src/qimcifa.cpp] (namespace
                 [Qimcifa]: trial-division level, range partition over nodes
                 and threads, the base sampler of [waitForSuccess], and the
                 termination flag shared by the worker threads);
    - [PrimeGenerator]  the prime generator [src/prime_generator.cpp]
                 ([sqrt], [forward], [backward], the tests for multiples
                 and [TrialDivision]).

    The integer type [bitCapInt] of the two engines is an unsigned integer of
    a fixed number [w] of bits ([uint64_t], or a Boost [cpp_int_backend] of
    128 to 4096 bits, unchecked).  It is embedded as [Z] with the
    wrap-around modulo [2 ^ w] written at every operation that can leave
    the range. *)

From Stdlib Require Import ZArith List Lia Bool Znumtheory Sorted.
From stdpp Require Import list.
Import ListNotations.
Local Open Scope Z_scope.

(** ** Unsigned machine arithmetic on [w] bits *)

Module Machine.

Section Width.
Variable w : Z.

Definition wrap (x : Z) : Z := x mod 2 ^ w.

Definition uadd (a b : Z) : Z := wrap (a + b).
Definition usub (a b : Z) : Z := wrap (a - b).
Definition umul (a b : Z) : Z := wrap (a * b).
Definition ushl (a n : Z) : Z := wrap (Z.shiftl a n).
End Width.

(** Number of iterations of [while (p) { p >>= 1U; ++n; }]: the number of
    binary digits of [p]. *)
Definition shiftCount (p : Z) : Z :=
  match p with
  | Z.pos q => Z.pos (Pos.size q)
  | _ => 0
  end.

(** [~1U] is an [unsigned int]: converted to a wider unsigned type it is
    zero-extended, so as an operand of [&] on [bitCapInt] it is the mask
    [0xFFFFFFFE]. *)
Definition NOT_1U : Z := 4294967294.

End Machine.

Import Machine.

(** ** The single-file engine ([qimcifa.cpp]) *)

Module Shor.

(** [QBCAPPOW] is 12: [bitCapInt] is the unchecked [cpp_int_backend] of
    [1 << QBCAPPOW] bits. *)
Definition QBCAPPOW : Z := 12.
Definition bitCapIntBits : Z := Z.shiftl 1 QBCAPPOW.

(** Results of code that can fail or loop. *)
Inductive outcome (A : Type) : Type :=
| Returns (a : A)
| OutOfBounds              (* [back()], [pop_back()] or [operator[]] out of range *)
| DivisionByZero
| OutOfFuel.
Arguments Returns {A} a.
Arguments OutOfBounds {A}.
Arguments DivisionByZero {A}.
Arguments OutOfFuel {A}.

Section Width.
Variable w : Z.

(** [uipow]: the loop runs until [e >>= 1U] leaves zero. *)
Fixpoint uipowLoop (fuel : nat) (result b e : Z) : option Z :=
  match fuel with
  | O => None
  | S fuel' =>
      let result := if Z.land b 1 =? 0 then result else umul w result b in
      let e := Z.shiftr e 1 in
      if e =? 0 then Some result
      else uipowLoop fuel' result (umul w b b) e
  end.

Definition uipow (base exp : Z) : option Z :=
  uipowLoop (S (Z.to_nat (Z.log2 exp))) 1 base exp.

(** [gcd], with the depth of the recursion as fuel. *)
Fixpoint gcd (fuel : nat) (n1 n2 : Z) : option Z :=
  match fuel with
  | O => None
  | S fuel' => if n2 =? 0 then Some n1 else gcd fuel' n2 (n1 mod n2)
  end.

(** [continued_fraction_step]: the integer part, then the new
    [*numerator] and [*denominator]. *)
Definition continued_fraction_step (numerator denominator : Z) : Z * Z * Z :=
  let intPart := numerator / denominator in
  let partDenominator := usub w numerator (umul w intPart denominator) in
  let partNumerator := denominator in
  (intPart, partNumerator, partDenominator).

(** The loop of [calc_continued_fraction], [i] running down to 1. *)
Fixpoint convergent (denominators : list Z) (i : nat) (approxNumer approxDenom : Z)
  : option (Z * Z) :=
  match i with
  | O => Some (approxNumer, approxDenom)
  | S i' =>
      match denominators !! i with
      | None => None
      | Some d =>
          let temp := uadd w (umul w d approxDenom) approxNumer in
          convergent denominators i' approxDenom temp
      end
  end.

(** [calc_continued_fraction]: [None] is an access out of the vector. *)
Definition calc_continued_fraction (denominators : list Z) : option (Z * Z) :=
  match last denominators with
  | None => None
  | Some back => convergent denominators (length denominators - 1) 1 back
  end.

(** [denominators.pop_back()] *)
Definition pop_back (denominators : list Z) : option (list Z) :=
  match denominators with
  | [] => None
  | _ => Some (removelast denominators)
  end.

(** The [do ... while] loop of [main] that expands [numerator /
    denominator]; it returns the list of terms. *)
Fixpoint expand (fuel : nat) (toFactor numerator denominator : Z) (denominators : list Z)
  : outcome (list Z) :=
  match fuel with
  | O => OutOfFuel
  | S fuel' =>
      if denominator =? 0 then DivisionByZero
      else
        let '(intPart, numerator, denominator) :=
          continued_fraction_step numerator denominator in
        let denominators := denominators ++ [intPart] in
        match calc_continued_fraction denominators with
        | None => OutOfBounds
        | Some (approxNumer, approxDenom) =>
            if (0 <? denominator) && (approxDenom <? toFactor)
            then expand fuel' toFactor numerator denominator denominators
            else Returns denominators
        end
  end.

(** The period candidate [r] of [main], from [qubitPower] and [y]. *)
Definition periodGuess (fuel : nat) (toFactor qubitPower y : Z) : outcome Z :=
  match expand fuel toFactor qubitPower y [] with
  | Returns denominators =>
      match pop_back denominators with
      | None => OutOfBounds
      | Some denominators =>
          if (length denominators =? 0)%nat then Returns y
          else
            match calc_continued_fraction denominators with
            | None => OutOfBounds
            | Some (_, r) => Returns r
            end
      end
  | OutOfBounds => OutOfBounds
  | DivisionByZero => DivisionByZero
  | OutOfFuel => OutOfFuel
  end.

(** The test that guards the success report of [main]. *)
Definition reportSuccess (toFactor f1 f2 : Z) : option (Z * Z) :=
  if (umul w f1 f2 =? toFactor) && (1 <? f1) && (1 <? f2)
  then Some (f1, f2) else None.
End Width.

End Shor.

(** ** The distributed engine ([src/qimcifa.cpp], namespace [Qimcifa]) *)

Module Qimcifa.

(** First 1000 primes, the table of [mainBody]. *)
Definition trialDivisionPrimes : list Z :=
  [
    2; 3; 5; 7; 11; 13; 17; 19; 23; 29; 31; 37; 41; 43; 47; 53; 59; 61; 67; 71; 73; 79; 83; 89;
    97; 101; 103; 107; 109; 113; 127; 131; 137; 139; 149; 151; 157; 163; 167; 173; 179; 181;
    191; 193; 197; 199; 211; 223; 227; 229; 233; 239; 241; 251; 257; 263; 269; 271; 277; 281;
    283; 293; 307; 311; 313; 317; 331; 337; 347; 349; 353; 359; 367; 373; 379; 383; 389; 397;
    401; 409; 419; 421; 431; 433; 439; 443; 449; 457; 461; 463; 467; 479; 487; 491; 499; 503;
    509; 521; 523; 541; 547; 557; 563; 569; 571; 577; 587; 593; 599; 601; 607; 613; 617; 619;
    631; 641; 643; 647; 653; 659; 661; 673; 677; 683; 691; 701; 709; 719; 727; 733; 739; 743;
    751; 757; 761; 769; 773; 787; 797; 809; 811; 821; 823; 827; 829; 839; 853; 857; 859; 863;
    877; 881; 883; 887; 907; 911; 919; 929; 937; 941; 947; 953; 967; 971; 977; 983; 991; 997;
    1009; 1013; 1019; 1021; 1031; 1033; 1039; 1049; 1051; 1061; 1063; 1069; 1087; 1091; 1093;
    1097; 1103; 1109; 1117; 1123; 1129; 1151; 1153; 1163; 1171; 1181; 1187; 1193; 1201; 1213;
    1217; 1223; 1229; 1231; 1237; 1249; 1259; 1277; 1279; 1283; 1289; 1291; 1297; 1301; 1303;
    1307; 1319; 1321; 1327; 1361; 1367; 1373; 1381; 1399; 1409; 1423; 1427; 1429; 1433; 1439;
    1447; 1451; 1453; 1459; 1471; 1481; 1483; 1487; 1489; 1493; 1499; 1511; 1523; 1531; 1543;
    1549; 1553; 1559; 1567; 1571; 1579; 1583; 1597; 1601; 1607; 1609; 1613; 1619; 1621; 1627;
    1637; 1657; 1663; 1667; 1669; 1693; 1697; 1699; 1709; 1721; 1723; 1733; 1741; 1747; 1753;
    1759; 1777; 1783; 1787; 1789; 1801; 1811; 1823; 1831; 1847; 1861; 1867; 1871; 1873; 1877;
    1879; 1889; 1901; 1907; 1913; 1931; 1933; 1949; 1951; 1973; 1979; 1987; 1993; 1997; 1999;
    2003; 2011; 2017; 2027; 2029; 2039; 2053; 2063; 2069; 2081; 2083; 2087; 2089; 2099; 2111;
    2113; 2129; 2131; 2137; 2141; 2143; 2153; 2161; 2179; 2203; 2207; 2213; 2221; 2237; 2239;
    2243; 2251; 2267; 2269; 2273; 2281; 2287; 2293; 2297; 2309; 2311; 2333; 2339; 2341; 2347;
    2351; 2357; 2371; 2377; 2381; 2383; 2389; 2393; 2399; 2411; 2417; 2423; 2437; 2441; 2447;
    2459; 2467; 2473; 2477; 2503; 2521; 2531; 2539; 2543; 2549; 2551; 2557; 2579; 2591; 2593;
    2609; 2617; 2621; 2633; 2647; 2657; 2659; 2663; 2671; 2677; 2683; 2687; 2689; 2693; 2699;
    2707; 2711; 2713; 2719; 2729; 2731; 2741; 2749; 2753; 2767; 2777; 2789; 2791; 2797; 2801;
    2803; 2819; 2833; 2837; 2843; 2851; 2857; 2861; 2879; 2887; 2897; 2903; 2909; 2917; 2927;
    2939; 2953; 2957; 2963; 2969; 2971; 2999; 3001; 3011; 3019; 3023; 3037; 3041; 3049; 3061;
    3067; 3079; 3083; 3089; 3109; 3119; 3121; 3137; 3163; 3167; 3169; 3181; 3187; 3191; 3203;
    3209; 3217; 3221; 3229; 3251; 3253; 3257; 3259; 3271; 3299; 3301; 3307; 3313; 3319; 3323;
    3329; 3331; 3343; 3347; 3359; 3361; 3371; 3373; 3389; 3391; 3407; 3413; 3433; 3449; 3457;
    3461; 3463; 3467; 3469; 3491; 3499; 3511; 3517; 3527; 3529; 3533; 3539; 3541; 3547; 3557;
    3559; 3571; 3581; 3583; 3593; 3607; 3613; 3617; 3623; 3631; 3637; 3643; 3659; 3671; 3673;
    3677; 3691; 3697; 3701; 3709; 3719; 3727; 3733; 3739; 3761; 3767; 3769; 3779; 3793; 3797;
    3803; 3821; 3823; 3833; 3847; 3851; 3853; 3863; 3877; 3881; 3889; 3907; 3911; 3917; 3919;
    3923; 3929; 3931; 3943; 3947; 3967; 3989; 4001; 4003; 4007; 4013; 4019; 4021; 4027; 4049;
    4051; 4057; 4073; 4079; 4091; 4093; 4099; 4111; 4127; 4129; 4133; 4139; 4153; 4157; 4159;
    4177; 4201; 4211; 4217; 4219; 4229; 4231; 4241; 4243; 4253; 4259; 4261; 4271; 4273; 4283;
    4289; 4297; 4327; 4337; 4339; 4349; 4357; 4363; 4373; 4391; 4397; 4409; 4421; 4423; 4441;
    4447; 4451; 4457; 4463; 4481; 4483; 4493; 4507; 4513; 4517; 4519; 4523; 4547; 4549; 4561;
    4567; 4583; 4591; 4597; 4603; 4621; 4637; 4639; 4643; 4649; 4651; 4657; 4663; 4673; 4679;
    4691; 4703; 4721; 4723; 4729; 4733; 4751; 4759; 4783; 4787; 4789; 4793; 4799; 4801; 4813;
    4817; 4831; 4861; 4871; 4877; 4889; 4903; 4909; 4919; 4931; 4933; 4937; 4943; 4951; 4957;
    4967; 4969; 4973; 4987; 4993; 4999; 5003; 5009; 5011; 5021; 5023; 5039; 5051; 5059; 5077;
    5081; 5087; 5099; 5101; 5107; 5113; 5119; 5147; 5153; 5167; 5171; 5179; 5189; 5197; 5209;
    5227; 5231; 5233; 5237; 5261; 5273; 5279; 5281; 5297; 5303; 5309; 5323; 5333; 5347; 5351;
    5381; 5387; 5393; 5399; 5407; 5413; 5417; 5419; 5431; 5437; 5441; 5443; 5449; 5471; 5477;
    5479; 5483; 5501; 5503; 5507; 5519; 5521; 5527; 5531; 5557; 5563; 5569; 5573; 5581; 5591;
    5623; 5639; 5641; 5647; 5651; 5653; 5657; 5659; 5669; 5683; 5689; 5693; 5701; 5711; 5717;
    5737; 5741; 5743; 5749; 5779; 5783; 5791; 5801; 5807; 5813; 5821; 5827; 5839; 5843; 5849;
    5851; 5857; 5861; 5867; 5869; 5879; 5881; 5897; 5903; 5923; 5927; 5939; 5953; 5981; 5987;
    6007; 6011; 6029; 6037; 6043; 6047; 6053; 6067; 6073; 6079; 6089; 6091; 6101; 6113; 6121;
    6131; 6133; 6143; 6151; 6163; 6173; 6197; 6199; 6203; 6211; 6217; 6221; 6229; 6247; 6257;
    6263; 6269; 6271; 6277; 6287; 6299; 6301; 6311; 6317; 6323; 6329; 6337; 6343; 6353; 6359;
    6361; 6367; 6373; 6379; 6389; 6397; 6421; 6427; 6449; 6451; 6469; 6473; 6481; 6491; 6521;
    6529; 6547; 6551; 6553; 6563; 6569; 6571; 6577; 6581; 6599; 6607; 6619; 6637; 6653; 6659;
    6661; 6673; 6679; 6689; 6691; 6701; 6703; 6709; 6719; 6733; 6737; 6761; 6763; 6779; 6781;
    6791; 6793; 6803; 6823; 6827; 6829; 6833; 6841; 6857; 6863; 6869; 6871; 6883; 6899; 6907;
    6911; 6917; 6947; 6949; 6959; 6961; 6967; 6971; 6977; 6983; 6991; 6997; 7001; 7013; 7019;
    7027; 7039; 7043; 7057; 7069; 7079; 7103; 7109; 7121; 7127; 7129; 7151; 7159; 7177; 7187;
    7193; 7207; 7211; 7213; 7219; 7229; 7237; 7243; 7247; 7253; 7283; 7297; 7307; 7309; 7321;
    7331; 7333; 7349; 7351; 7369; 7393; 7411; 7417; 7433; 7451; 7457; 7459; 7477; 7481; 7487;
    7489; 7499; 7507; 7517; 7523; 7529; 7537; 7541; 7547; 7549; 7559; 7561; 7573; 7577; 7583;
    7589; 7591; 7603; 7607; 7621; 7639; 7643; 7649; 7669; 7673; 7681; 7687; 7691; 7699; 7703;
    7717; 7723; 7727; 7741; 7753; 7757; 7759; 7789; 7793; 7817; 7823; 7829; 7841; 7853; 7867;
    7873; 7877; 7879; 7883; 7901; 7907; 7919
  ].

(** [pickTrialDivisionLevel].  The branch past 70 qubits is the
    floating-point expression
    [(unsigned)(exp(TD_INTERCEPT + TD_SLOPE * qubitCount) + 0.5)]; it is
    taken as the parameter [expFit]. *)
Definition pickTrialDivisionLevel (expFit : Z -> Z) (qubitCount : Z) : Z :=
  if qubitCount <=? 58 then 59
  else if qubitCount <=? 60 then 191
  else if qubitCount <=? 62 then 193
  else if qubitCount <=? 64 then 199
  else if qubitCount <=? 66 then 211
  else if qubitCount <=? 68 then 229
  else if qubitCount <=? 70 then 233
  else expFit qubitCount.

(** [qubitCount] as [main] derives it from the number to factor. *)
Definition qubitCountOf (toFactor : Z) : Z :=
  let isPowerOfTwo :=
    negb (toFactor =? 0) && (Z.land toFactor (toFactor - 1) =? 0) in
  shiftCount (Z.shiftr toFactor 1) + (if negb isPowerOfTwo then 1 else 0).

(** The width dispatch of [main]: [None] where no branch returns. *)
Definition bitCapIntWidth (TRIAL_DIVISION_LEVEL qubitCount : Z) : option Z :=
  let primeFactorBits := 1 + shiftCount (Z.shiftr TRIAL_DIVISION_LEVEL 1) in
  let QBCAPBITS := primeFactorBits + Z.shiftl (Z.shiftr qubitCount 5 + 1) 5 in
  if QBCAPBITS <? 64 then Some 64
  else if QBCAPBITS <? 128 then Some 128
  else if QBCAPBITS <? 192 then Some 192
  else if QBCAPBITS <? 256 then Some 256
  else if QBCAPBITS <? 512 then Some 512
  else if QBCAPBITS <? 1024 then Some 1024
  else if QBCAPBITS <? 2048 then Some 2048
  else None.

(** The loop that walks the prime table up to the trial-division level,

      while (currentPrime <= TRIAL_DIVISION_LEVEL) {
          body; primeIndex++;
          if (primeIndex >= trialDivisionPrimes.size()) break;
          currentPrime = trialDivisionPrimes[primeIndex];
      }

    with [body] acting on one [bitCapInt].  Each iteration increments
    [primeIndex], so the table size bounds the number of iterations. *)
Section PrimeWalk.
Variable body : Z -> Z -> Z.
Variable TRIAL_DIVISION_LEVEL : Z.

Fixpoint primeWalk (fuel : nat) (currentPrime : Z) (primeIndex : nat) (acc : Z)
  : Z * nat * Z :=
  match fuel with
  | O => (currentPrime, primeIndex, acc)
  | S fuel' =>
      if currentPrime <=? TRIAL_DIVISION_LEVEL then
        let acc' := body currentPrime acc in
        let primeIndex' := S primeIndex in
        if (length trialDivisionPrimes <=? primeIndex')%nat
        then (currentPrime, primeIndex', acc')
        else primeWalk fuel' (nth primeIndex' trialDivisionPrimes 0) primeIndex' acc'
      else (currentPrime, primeIndex, acc)
  end.

Definition walkPrimes (acc : Z) : Z * nat * Z :=
  primeWalk (length trialDivisionPrimes) 2 0%nat acc.
End PrimeWalk.

(** [if (primeIndex >= size) primeIndex = size - 1]. *)
Definition clampIndex (primeIndex : nat) : nat :=
  if (length trialDivisionPrimes <=? primeIndex)%nat
  then (length trialDivisionPrimes - 1)%nat else primeIndex.

(** The table [primeDict] of [mainBody] ([IS_RSA_SEMIPRIME]). *)
Definition primeDict (primeBits : Z) : option (Z * Z) :=
  if primeBits =? 16 then Some (16411, 131071)
  else if primeBits =? 28 then Some (67108879, 536870909)
  else if primeBits =? 32 then Some (1073741827, 8589934583)
  else None.

(** [fullMinBase] and [fullMaxBase] in semiprime mode.  [primeBits] is a
    [uint32_t] and the shifts are on [1ULL]: a shift count outside
    [0, 64) is undefined and gives [None]. *)
Definition semiprimeBounds (qubitCount : Z) : option (Z * Z) :=
  let primeBits := Z.shiftr (qubitCount + 1) 1 mod 2 ^ 32 in
  match primeDict primeBits with
  | Some b => Some b
  | None =>
      let lo := (primeBits - 2) mod 2 ^ 32 in
      let hi := (primeBits + 1) mod 2 ^ 32 in
      if (lo <? 64) && (hi <? 64)
      then Some (Z.lor (Z.shiftl 1 lo) 1, Z.shiftl 1 hi mod 2 ^ 64 - 1)
      else None
  end.

Section Partition.
Variable w : Z.
Variable TRIAL_DIVISION_LEVEL : Z.

(** [fullRange *= currentPrime - 1U; fullRange /= currentPrime;] *)
Definition shrinkStep (currentPrime fullRange : Z) : Z :=
  umul w fullRange (currentPrime - 1) / currentPrime.

(** [fullRange] after the loop, and the [primeIndex] the workers capture. *)
Definition fullRangeOf (fullMinBase fullMaxBase : Z) : Z :=
  snd (walkPrimes shrinkStep TRIAL_DIVISION_LEVEL
         (usub w (uadd w fullMaxBase 1) fullMinBase)).

Definition primeIndexOf : nat :=
  clampIndex (snd (fst (walkPrimes shrinkStep TRIAL_DIVISION_LEVEL 0))).

Definition nodeRangeOf (fullRange nodeCount : Z) : Z :=
  usub w (uadd w fullRange nodeCount) 1 / nodeCount.

Definition nodeMinOf (fullMinBase nodeRange nodeId : Z) : Z :=
  uadd w fullMinBase (umul w nodeRange nodeId).

Definition nodeMaxOf (nodeMin nodeRange : Z) : Z := uadd w nodeMin nodeRange.

(** [(cpuCount + nodeMax - (nodeMin - 1U)) / cpuCount] *)
Definition threadRangeOf (cpuCount nodeMin nodeMax : Z) : Z :=
  usub w (uadd w cpuCount nodeMax) (usub w nodeMin 1) / cpuCount.

(** [threadMin = (threadMin / currentPrime) * currentPrime;] *)
Definition alignStep (currentPrime threadMin : Z) : Z :=
  umul w (threadMin / currentPrime) currentPrime.

(** The bounds handed to the worker of thread [cpu]. *)
Definition threadBounds (nodeMin threadRange cpu : Z) : Z * Z :=
  let threadMin := Z.lor (uadd w nodeMin (umul w threadRange cpu)) 1 in
  let threadMax := uadd w threadMin threadRange in
  let threadMin := snd (walkPrimes alignStep TRIAL_DIVISION_LEVEL threadMin) in
  let threadMin := uadd w (Z.lor threadMin 1) 2 in
  (threadMin, threadMax).

(** [range] of [workerFn]. *)
Definition workerRange (threadMin threadMax : Z) : Z :=
  usub w threadMax (uadd w threadMin 1).
End Partition.

(** *** The worker: [workerFn] and [waitForSuccess] *)

(** What [mainBody] hands to the worker of one thread. *)
Record worker : Set := mkWorker {
  threadMin : Z;
  threadMax : Z;
  range : Z;
  primeIndex : nat
}.

Definition mainBody (w TRIAL_DIVISION_LEVEL fullMinBase fullMaxBase : Z)
    (nodeCount nodeId cpuCount cpu : Z) : worker :=
  let fullRange := fullRangeOf w TRIAL_DIVISION_LEVEL fullMinBase fullMaxBase in
  let nodeRange := nodeRangeOf w fullRange nodeCount in
  let nodeMin := nodeMinOf w fullMinBase nodeRange nodeId in
  let nodeMax := nodeMaxOf w nodeMin nodeRange in
  let threadRange := threadRangeOf w cpuCount nodeMin nodeMax in
  let '(tMin, tMax) := threadBounds w TRIAL_DIVISION_LEVEL nodeMin threadRange cpu in
  mkWorker tMin tMax (workerRange w tMin tMax) (primeIndexOf w TRIAL_DIVISION_LEVEL).

(** [main] and [mainBody] in semiprime mode, up to the launch of thread
    [cpu]: the width of [bitCapInt] and the worker.  [None] where [main]
    has no branch for the width or a shift of [mainBody] is undefined. *)
Definition launch (expFit : Z -> Z) (toFactor nodeCount nodeId cpuCount cpu : Z)
  : option (Z * worker) :=
  let qubitCount := qubitCountOf toFactor in
  let TRIAL_DIVISION_LEVEL := pickTrialDivisionLevel expFit qubitCount in
  match bitCapIntWidth TRIAL_DIVISION_LEVEL qubitCount, semiprimeBounds qubitCount with
  | Some w, Some (fullMinBase, fullMaxBase) =>
      Some (w, mainBody w TRIAL_DIVISION_LEVEL fullMinBase fullMaxBase
                 nodeCount nodeId cpuCount cpu)
  | _, _ => None
  end.

(** Outcome of one candidate of the batch loop in semiprime mode. *)
Inductive trial : Set :=
| DivisionByZero                (* [toFactor % base] with [base == 0] *)
| Miss
| Found (f1 f2 : Z).            (* [printSuccess(base, toFactor / base, ...)] *)

Section Sampler.
Variable w : Z.

(** [workerFn] picks the RNG word: [uint32_t] from [1ULL << 32U] on,
    [uint64_t] below. *)
Definition wordBits (range : Z) : Z := if 2 ^ 32 <=? range then 32 else 64.

(** Upper bounds pushed by [while (range) { ...; range >>= WORD_SIZE; }],
    in push order (least significant word first). *)
Fixpoint pushBounds (fuel : nat) (WORD_SIZE range : Z) : list Z :=
  match fuel with
  | O => []
  | S fuel' =>
      if range =? 0 then []
      else range mod 2 ^ WORD_SIZE
             :: pushBounds fuel' WORD_SIZE (Z.shiftr range WORD_SIZE)
  end.

(** [baseDist] after [std::reverse], with the [WORD_SIZE] the draw loop
    then shifts by.  [BITCAPINT_SIZE] is [sizeof(bitCapInt) << 3]: it is
    [w] for [uint64_t], and at least [w > 64] for the wider types, so the
    test against a [WORD_SIZE] of 32 or 64 is the test against [w]. *)
Definition baseDist (WORD_SIZE range : Z) : list Z * Z :=
  if WORD_SIZE <? w
  then (rev (pushBounds (Z.to_nat w) WORD_SIZE range), WORD_SIZE)
  else ([range mod 2 ^ WORD_SIZE], 0).

(** One draw per distribution, each within its bounds. *)
Fixpoint validDrawsb (bounds draws : list Z) : bool :=
  match bounds, draws with
  | [], [] => true
  | b :: bounds', d :: draws' => (0 <=? d) && (d <=? b) && validDrawsb bounds' draws'
  | _, _ => false
  end.

(** [base = baseDist[0U](rand_gen)] and the loop that appends the other
    words; [None] when [baseDist] is empty. *)
Definition rawBase (WORD_SIZE : Z) (draws : list Z) : option Z :=
  match draws with
  | [] => None
  | d :: ds => Some (fold_left (fun base d' => Z.lor (ushl w base WORD_SIZE) d') ds d)
  end.

(** [for (size_t i = primeIndex; i > 2U; --i)
       base += base / (trialDivisionPrimes[i] - 1U) + 1U;] *)
Fixpoint excludePrimes (i : nat) (base : Z) : Z :=
  match i with
  | O => base
  | S i' =>
      if (2 <? i)%nat
      then excludePrimes i'
             (uadd w base (uadd w (base / (nth i trialDivisionPrimes 0 - 1)) 1))
      else base
  end.

(** The steps for 5, and for 2 and 3 combined, and the offset. *)
Definition excludeSmall (threadMin base : Z) : Z :=
  let base := uadd w base (uadd w (Z.shiftr base 2) 1) in
  uadd w (Z.land (uadd w (ushl w base 1) base) NOT_1U) threadMin.

(** The candidate base of one batch item, from the words drawn. *)
Definition candidate (k : worker) (draws : list Z) : option Z :=
  let '(_, WORD_SIZE) := baseDist (wordBits (range k)) (range k) in
  match rawBase WORD_SIZE draws with
  | None => None
  | Some base => Some (excludeSmall (threadMin k) (excludePrimes (primeIndex k) base))
  end.

Definition drawsOk (k : worker) (draws : list Z) : bool :=
  validDrawsb (fst (baseDist (wordBits (range k)) (range k))) draws.

(** [if ((toFactor % base) == 0U) { isFinished = true; printSuccess ... }] *)
Definition tryBase (toFactor base : Z) : trial :=
  if base =? 0 then DivisionByZero
  else if toFactor mod base =? 0 then Found base (toFactor / base)
  else Miss.
End Sampler.

(** *** Worker threads and the shared flag

    [mainBody] starts [cpuCount] threads that all run [waitForSuccess] on
    the one [std::atomic<bool> isFinished].  A thread is at some item of
    its batch, or between the store to the flag and [printSuccess], or has
    returned.  The accesses to the flag are sequentially consistent, so a
    run is an interleaving of thread steps. *)

(** [BASE_TRIALS = 1U << 16U] *)
Definition BASE_TRIALS : Z := 65536.

Inductive thread : Set :=
| Running (batchItem : Z)
| Reporting (f1 f2 : Z)       (* [isFinished = true] done, [printSuccess] next *)
| Returned.

Record run : Set := mkRun {
  isFinished : bool;
  threads : list thread;
  printed : list (nat * Z * Z)      (* [printSuccess]: thread, f1, f2 *)
}.

(** [isFinished = false] and every thread at the start of its first batch. *)
Definition start (cpuCount : nat) : run :=
  mkRun false (replicate cpuCount (Running 0)) [].

(** One step of thread [cpu].  Inside a batch it tries the candidate
    [base] it has just drawn, and stores to the flag if the base divides
    [toFactor]; after the store it prints and returns; once the batch is
    over it reads the flag. *)
Definition step (toFactor : Z) (s : run) (cpu : nat) (base : Z) : run :=
  match threads s !! cpu with
  | Some (Running batchItem) =>
      if batchItem <? BASE_TRIALS then
        match tryBase toFactor base with
        | Found f1 f2 => mkRun true (<[cpu := Reporting f1 f2]> (threads s)) (printed s)
        | Miss =>
            mkRun (isFinished s) (<[cpu := Running (batchItem + 1)]> (threads s)) (printed s)
        | DivisionByZero => s
        end
      else if isFinished s
           then mkRun (isFinished s) (<[cpu := Returned]> (threads s)) (printed s)
           else mkRun (isFinished s) (<[cpu := Running 0]> (threads s)) (printed s)
  | Some (Reporting f1 f2) =>
      mkRun (isFinished s) (<[cpu := Returned]> (threads s)) (printed s ++ [(cpu, f1, f2)])
  | _ => s
  end.

(** A schedule says which thread moves and which base it has drawn. *)
Definition exec (toFactor : Z) (s : run) (schedule : list (nat * Z)) : run :=
  fold_left (fun s ev => step toFactor s (fst ev) (snd ev)) schedule s.

(** The thread of a report. *)
Definition reporter (r : nat * Z * Z) : nat := fst (fst r).

(** The success print happens at most once in every run. *)
Definition reportsOnce (toFactor : Z) (cpuCount : nat) : Prop :=
  forall schedule,
    (length (printed (exec toFactor (start cpuCount) schedule)) <= 1)%nat.

(** What holds of the reports at every point of every run. *)
Record consistent (toFactor : Z) (s : run) : Prop := mkConsistent {
  reporters_distinct : NoDup (map reporter (printed s));
  reporters_returned :
    forall cpu f1 f2, In (cpu, f1, f2) (printed s) -> threads s !! cpu = Some Returned;
  printed_factor :
    forall cpu f1 f2, In (cpu, f1, f2) (printed s) -> f1 * f2 = toFactor;
  reporting_factor :
    forall cpu f1 f2, threads s !! cpu = Some (Reporting f1 f2) -> f1 * f2 = toFactor;
  flag_iff_success :
    isFinished s = true <->
    (printed s <> [] \/ exists cpu f1 f2, threads s !! cpu = Some (Reporting f1 f2))
}.

(** *** Coverage of the full range by the node ranges *)

(** Every base of [[fullMinBase, fullMaxBase]] lies in the range
    [[nodeMin, nodeMax]] of some node. *)
Definition nodeRangesCover (w TRIAL_DIVISION_LEVEL fullMinBase fullMaxBase nodeCount : Z)
  : Prop :=
  forall x, fullMinBase <= x <= fullMaxBase ->
    exists nodeId, 0 <= nodeId < nodeCount /\
      let nodeRange :=
        nodeRangeOf w (fullRangeOf w TRIAL_DIVISION_LEVEL fullMinBase fullMaxBase) nodeCount in
      let nodeMin := nodeMinOf w fullMinBase nodeRange nodeId in
      nodeMin <= x <= nodeMaxOf w nodeMin nodeRange.

(** *** The interval of a thread *)

Definition inThreadRange (k : worker) (base : Z) : Prop :=
  threadMin k <= base < threadMax k.

(** *** Sample runs

    [expFit] is not reached below 71 qubits. *)
Definition noFit (qubitCount : Z) : Z := 0.

(** 589 = 19 * 31 has 10 qubits: level 59, 64-bit [bitCapInt], bases from
    9 to 63.  One node, one hardware thread. *)
Definition worker589 : worker := mainBody 64 59 9 63 1 0 1 0.

(** 9 = 3 * 3 has 4 qubits: level 59, 64-bit [bitCapInt], bases from 1 to
    7.  One node, one hardware thread. *)
Definition worker9 : worker := mainBody 64 59 1 7 1 0 1 0.

(** The same on four hardware threads, thread 0. *)
Definition worker9of4 : worker := mainBody 64 59 1 7 1 0 4 0.

(** 1075592459 = 30047 * 35797 has 31 qubits: level 59, 64-bit
    [bitCapInt], bases from 16411 to 131071 by [primeDict].  One node,
    three hardware threads. *)
Definition worker31 (cpu : Z) : worker := mainBody 64 59 16411 131071 1 0 3 cpu.

(** Thread 0 finds a factor at once and prints; thread 2 completes a
    batch without success and reads the flag; then thread 1 tries its
    first base and prints. *)
Definition flagObserved : list (nat * Z) :=
  [(0%nat, 30047); (0%nat, 0)]
    ++ replicate (Z.to_nat BASE_TRIALS) (2%nat, 26507) ++ [(2%nat, 0)].

Definition lateSuccess : list (nat * Z) :=
  flagObserved ++ [(1%nat, 35797); (1%nat, 0)].

End Qimcifa.

Import Qimcifa.

(** ** The trial-division level past the table

    Past 70 qubits [pickTrialDivisionLevel] returns
    [(unsigned)(exp(TD_INTERCEPT + TD_SLOPE * qubitCount) + 0.5)],
    computed in double precision.  The exponential is enclosed between two
    fixed-point numbers, and the enclosure is widened by the rounding of
    the double-precision evaluation; where both ends truncate to the same
    integer, that integer is what the code computes. *)

Module TrialLevel.

(** [TD_INTERCEPT + TD_SLOPE * qubitCount] = [1.69 + 0.0971 * qubitCount],
    in units of [1 / SCALE]. *)
Definition SCALE : Z := 10000.

Definition exponent (qubitCount : Z) : Z := 16900 + 971 * qubitCount.

(** Fixed point with 96 binary places. *)
Definition ONE : Z := 2 ^ 96.

(** The exponential series of [x = a / SCALE] by Horner's rule,
    [T k = 1 + x / k * T (k + 1)], in fixed point.  The [T] after the last
    term taken is [1 + x / k + x ^ 2 / (k (k + 1)) + ...], between 1 and 2
    for [0 <= x <= k / 2]: [seriesDown] takes 1 for it and rounds every
    division down, [seriesUp] takes 2 and rounds every division up. *)
Fixpoint seriesDown (a k : Z) (terms : nat) : Z :=
  match terms with
  | O => ONE
  | S terms' => ONE + a * seriesDown a (k + 1) terms' / (SCALE * k)
  end.


Definition TERMS : nat := 80.

(** Bounds below and above [exp(1.69 + 0.0971 * qubitCount)], in fixed
    point, for exponents from 0 to 40. *)
Definition expLower (qubitCount : Z) : Z := seriesDown (exponent qubitCount) 1 TERMS.


(** The double-precision evaluation rounds the two constants, the
    product, the sum, the exponential and the addition of 0.5, each within
    one unit in the last place of 53 bits, on an exponent below 32: the
    result is within [1 / ROUNDING] of the exact one, relatively. *)
Definition ROUNDING : Z := 2 ^ 46.

(** The integer part of the least and of the greatest value that
    [exp(...) + 0.5] can evaluate to in double precision. *)
Definition roundDown (qubitCount : Z) : Z :=
  (expLower qubitCount * (ROUNDING - 1) / ROUNDING + ONE / 2) / ONE.


(** The conversion [(unsigned)] of a double truncates.  Outside the range
    of [unsigned] it is undefined in C++; the x86-64 build converts to a
    64-bit integer and keeps the low 32 bits. *)
Definition castUnsigned (v : Z) : Z := v mod 2 ^ 32.

(** The branch of [pickTrialDivisionLevel] past the table. *)
Definition expFit (qubitCount : Z) : Z := castUnsigned (roundDown qubitCount).


End TrialLevel.

(** ** Numbers drawn word by word *)

Module Words.

(** The number whose digits in base [2 ^ WORD_SIZE], most significant
    first, are the words [l]. *)
Definition wordsValue (WORD_SIZE : Z) (l : list Z) : Z :=
  fold_left (fun acc d => acc * 2 ^ WORD_SIZE + d) l 0.

(** The raw base of a worker of the distributed engine, before the
    exclusion steps: [None] when [baseDist] is empty. *)
Definition rawOf (w : Z) (k : worker) (draws : list Z) : option Z :=
  rawBase w (snd (baseDist w (wordBits (range k)) (range k))) draws.

End Words.

(** ** The rest of the single-file engine ([qimcifa.cpp]) *)

Module ShorMain.

(** [isPowerOfTwo]: [x && !(x & (x - ONE_BCI))]; the subtraction is not
    evaluated on zero. *)
Definition isPowerOfTwo (x : Z) : bool :=
  if x =? 0 then false else Z.land x (x - 1) =? 0.

(** [log2]: [pow] is a [bitLenInt], here [uint16_t]. *)
Fixpoint log2Loop (fuel : nat) (p pow : Z) : option Z :=
  match fuel with
  | O => None
  | S fuel' =>
      if p =? 0 then Some pow
      else log2Loop fuel' (Z.shiftr p 1) ((pow + 1) mod 2 ^ 16)
  end.

Definition log2 (n : Z) : option Z :=
  log2Loop (S (S (Z.to_nat (Z.log2 n)))) (Z.shiftr n 1) 0.

Section Width.
Variable w : Z.

(** [qubitCount] and [qubitPower] of [main]. *)
Definition qubitCount (toFactor : Z) : option Z :=
  match log2 toFactor with
  | None => None
  | Some pow => Some ((pow + (if negb (isPowerOfTwo toFactor) then 1 else 0)) mod 2 ^ 16)
  end.

Definition qubitPower (toFactor : Z) : option Z :=
  match qubitCount toFactor with
  | None => None
  | Some q => Some (ushl w 1 q)
  end.

(** [intLog]: [while (x >= base) { x /= base; result++; }] *)
Fixpoint intLogLoop (fuel : nat) (base x result : Z) : Shor.outcome Z :=
  match fuel with
  | O => Shor.OutOfFuel
  | S fuel' =>
      if base <=? x then
        if base =? 0 then Shor.DivisionByZero
        else intLogLoop fuel' base (x / base) (uadd w result 1)
      else Shor.Returns result
  end.

Definition intLog (base arg : Z) : Shor.outcome Z :=
  intLogLoop (S (Z.to_nat (Z.log2 arg))) base arg 0.

(** [wordSize] of [main]. *)
Definition wordSize : Z := 64.

(** [toFactorDist]: the bounds of the distributions, most significant
    word first after [std::reverse]. *)
Definition toFactorDist (toFactor : Z) : list Z :=
  rev (pushBounds (Z.to_nat w) wordSize (usub w toFactor 2)).

(** The random base: [toFactorDist[0](rand_gen)], the other words
    appended, [base += 2U].  [None] when [toFactorDist] is empty. *)
Definition drawBase (draws : list Z) : option Z :=
  match rawBase w wordSize draws with
  | None => None
  | Some base => Some (uadd w base 2)
  end.

(** The loop that draws [rGuess] and [c]: each turn takes the low word of
    [yPart] as the bound of its two draws and appends the draws below the
    words drawn before. *)
Fixpoint drawPeriod (yPart rGuess c : Z) (draws : list (Z * Z)) {struct draws}
  : option (Z * Z) :=
  if yPart =? 0 then
    match draws with
    | [] => Some (rGuess, c)
    | _ => None
    end
  else
    match draws with
    | [] => None
    | (dr, dc) :: draws' =>
        let bound := yPart mod 2 ^ wordSize in
        if (0 <=? dr) && (dr <=? bound) && (0 <=? dc) && (dc <=? bound) then
          drawPeriod (Z.shiftr yPart wordSize)
            (Z.lor (ushl w rGuess wordSize) dr) (Z.lor (ushl w c wordSize) dc) draws'
        else None
    end.

(** [rGuess], [c] and [y] of one batch item: [None] when the draws are not
    those of the loop, [DivisionByZero] when [rGuess] is zero. *)
Definition guessY (qubitPower minR : Z) (draws : list (Z * Z)) : option (Shor.outcome Z) :=
  let yRange := usub w qubitPower minR in
  match drawPeriod yRange 0 0 draws with
  | None => None
  | Some (rGuess, c) =>
      let rGuess := uadd w rGuess minR in
      let c := uadd w c 1 in
      Some (if rGuess =? 0 then Shor.DivisionByZero
            else Shor.Returns (umul w c qubitPower / rGuess))
  end.

(** One turn of the loop of [calc_continued_fraction] on the term [d]. *)
Definition convergentStep (acc : Z * Z) (d : Z) : Z * Z :=
  (snd acc, uadd w (umul w d (snd acc)) (fst acc)).

(** While the loop of [main] runs, the convergent of the terms pushed so
    far has a denominator below [toFactor]. *)
Definition convergentBelow (toFactor : Z) (l : list Z) : Prop :=
  l = [] \/ exists n d, Shor.calc_continued_fraction w l = Some (n, d) /\ d < toFactor.

(** [if (r & 1U) r <<= 1U; p = r >> 1U;] *)
Definition halfPeriod (r : Z) : Z :=
  let r := if Z.land r 1 =? 0 then r else ushl w r 1 in
  Z.shiftr r 1.

(** The loop that folds [f1] and [f2]:

      while (((f1 * f2) != toFactor) && ((f1 * f2) > 1U)
             && ((toFactor / fmul) * fmul == toFactor)) { ... }

    [fmul] is zero only with [f1 * f2 > 1U] false, so the division is
    never by zero. *)
Fixpoint foldFactors (fuel : nat) (toFactor f1 f2 fmul : Z) : option (Z * Z) :=
  match fuel with
  | O => None
  | S fuel' =>
      if negb (umul w f1 f2 =? toFactor) && (1 <? umul w f1 f2)
         && (umul w (toFactor / fmul) fmul =? toFactor)
      then
        let fmul := f1 in
        let f1 := umul w fmul f2 in
        let f2 := toFactor / umul w fmul f2 in
        let fmul := umul w f1 f2 in
        foldFactors fuel' toFactor f1 f2 fmul
      else Some (f1, f2)
  end.

(** What one batch item prints. *)
Inductive report : Set :=
| NonCoprime (testFactor cofactor : Z)     (* "Chose non- relative prime" *)
| Success (f1 f2 : Z)
| Nothing.

(** One batch item of [main], from the words drawn for the base and the
    pairs of words drawn for [rGuess] and [c].  [fuel] bounds every loop. *)
Definition batchItem (fuel : nat) (toFactor qubitPower : Z)
    (baseDraws : list Z) (periodDraws : list (Z * Z)) : Shor.outcome report :=
  match drawBase baseDraws with
  | None => Shor.OutOfBounds
  | Some base =>
      match Shor.gcd fuel toFactor base with
      | None => Shor.OutOfFuel
      | Some testFactor =>
          if negb (testFactor =? 1) then
            if testFactor =? 0 then Shor.DivisionByZero
            else Shor.Returns (NonCoprime testFactor (toFactor / testFactor))
          else
            match intLog base toFactor with
            | Shor.Returns minR =>
                match guessY qubitPower minR periodDraws with
                | None => Shor.OutOfBounds
                | Some (Shor.Returns y) =>
                    match Shor.periodGuess w fuel toFactor qubitPower y with
                    | Shor.Returns r =>
                        let p := halfPeriod r in
                        match Shor.uipow w base p with
                        | None => Shor.OutOfFuel
                        | Some power =>
                            if toFactor =? 0 then Shor.DivisionByZero
                            else
                              let apowrhalf := power mod toFactor in
                              match Shor.gcd fuel (uadd w apowrhalf 1) toFactor,
                                    Shor.gcd fuel (usub w apowrhalf 1) toFactor with
                              | Some f1, Some f2 =>
                                  match foldFactors fuel toFactor f1 f2 (umul w f1 f2) with
                                  | None => Shor.OutOfFuel
                                  | Some (f1, f2) =>
                                      match Shor.reportSuccess w toFactor f1 f2 with
                                      | Some (f1, f2) => Shor.Returns (Success f1 f2)
                                      | None => Shor.Returns Nothing
                                      end
                                  end
                              | _, _ => Shor.OutOfFuel
                              end
                        end
                    | Shor.OutOfBounds => Shor.OutOfBounds
                    | Shor.DivisionByZero => Shor.DivisionByZero
                    | Shor.OutOfFuel => Shor.OutOfFuel
                    end
                | Some Shor.DivisionByZero => Shor.DivisionByZero
                | Some _ => Shor.OutOfBounds
                end
            | Shor.OutOfBounds => Shor.OutOfBounds
            | Shor.DivisionByZero => Shor.DivisionByZero
            | Shor.OutOfFuel => Shor.OutOfFuel
            end
      end
  end.
End Width.

End ShorMain.

(** ** Stopping the threads of the distributed engine *)

Module Shutdown.

(** The steps thread [cpu] makes in a schedule. *)
Fixpoint stepsOf (cpu : nat) (schedule : list (nat * Z)) : Z :=
  match schedule with
  | [] => 0
  | ev :: schedule' => (if Nat.eqb (fst ev) cpu then 1 else 0) + stepsOf cpu schedule'
  end.

(** The steps a thread has left at most once the flag is set: the rest of
    its batch and the read of the flag, or the print. *)
Definition stepsLeft (t : thread) : Z :=
  match t with
  | Running batchItem => Z.max 1 (BASE_TRIALS + 1 - batchItem)
  | Reporting _ _ => 1
  | Returned => 0
  end.

(** What holds of the threads and the flag at every point of every run. *)
Record orderly (s : run) : Prop := mkOrderly {
  batchItem_range :
    forall cpu batchItem,
      threads s !! cpu = Some (Running batchItem) -> 0 <= batchItem <= BASE_TRIALS;
  flag_before_return :
    forall cpu, threads s !! cpu = Some Returned -> isFinished s = true;
  flag_before_print :
    forall cpu f1 f2, threads s !! cpu = Some (Reporting f1 f2) -> isFinished s = true
}.

End Shutdown.

(** ** The prime generator ([prime_generator.cpp])

    [BigInteger] is an unsigned integer of [w] bits ([uint32_t] or
    [uint64_t] for [BIG_INT_BITS] up to 64). *)

Module PrimeGenerator.

Section Width.
Variable w : Z.

(** [sqrt]: the body of the [do ... while (start <= end)] loop runs
    before its test. *)
Fixpoint sqrtLoop (fuel : nat) (toTest start end_ ans : Z) : option Z :=
  match fuel with
  | O => None
  | S fuel' =>
      let mid := Z.shiftr (uadd w start end_) 1 in
      let sqr := umul w mid mid in
      if sqr =? toTest then Some mid
      else
        let '(start, end_, ans) :=
          if sqr <? toTest then (uadd w mid 1, end_, mid)
          else (start, usub w mid 1, ans) in
        if start <=? end_ then sqrtLoop fuel' toTest start end_ ans else Some ans
  end.

Definition sqrt (fuel : nat) (toTest : Z) : option Z :=
  sqrtLoop fuel toTest 1 (Z.shiftr toTest 1) 0.

Definition backward (ni : Z) : Z :=
  let ni := Z.shiftr (uadd w ni 1) 1 in
  ushl w (uadd w ni 1) 1 / 3.

Definition forward (p : Z) : Z :=
  let p := uadd w p (Z.shiftr p 1) in
  usub w (ushl w p 1) 1.

(** The loop of [isTimeOrSpaceMultiple] over the known primes. *)
Fixpoint spaceScan (p sqrtP : Z) (knownPrimes : list Z) : Shor.outcome bool :=
  match knownPrimes with
  | [] => Shor.Returns false
  | i :: knownPrimes' =>
      if sqrtP <? i then Shor.Returns false
      else if i =? 0 then Shor.DivisionByZero
      else if p mod i =? 0 then Shor.Returns true
      else spaceScan p sqrtP knownPrimes'
  end.

Definition isTimeOrSpaceMultiple (fuel : nat) (p : Z) (knownPrimes : list Z)
  : Shor.outcome bool :=
  match sqrt fuel p with
  | None => Shor.OutOfFuel
  | Some sqrtP => spaceScan p sqrtP knownPrimes
  end.

(** The loop of [isTimeMultiple] from index [i] on, over the known primes
    from that index on: it compares the index with the root. *)
Fixpoint timeScan (p sqrtP : Z) (i : nat) (knownPrimes : list Z) : Shor.outcome bool :=
  match knownPrimes with
  | [] => Shor.Returns false
  | k :: knownPrimes' =>
      if sqrtP <? Z.of_nat i then Shor.Returns false
      else if k =? 0 then Shor.DivisionByZero
      else if p mod k =? 0 then Shor.Returns true
      else timeScan p sqrtP (S i) knownPrimes'
  end.

Definition isTimeMultiple (fuel : nat) (p : Z) (knownPrimes : list Z)
  : Shor.outcome bool :=
  match sqrt fuel p with
  | None => Shor.OutOfFuel
  | Some sqrtP => timeScan p sqrtP 2 (drop 2 knownPrimes)
  end.

(** One [for] loop of [TrialDivision] over the values [offsets] of [i], from the
    value of [isWorking] and the primes known before it to those after
    it. *)
Fixpoint forLoop (fuel : nat) (n o : Z) (offsets : list Z) (isWorking : bool)
    (knownPrimes : list Z) : Shor.outcome (bool * list Z) :=
  match offsets with
  | [] => Shor.Returns (isWorking, knownPrimes)
  | i :: offsets' =>
      let p := forward (uadd w o i) in
      if n <? p then Shor.Returns (false, knownPrimes)
      else
        match isTimeMultiple fuel p knownPrimes with
        | Shor.Returns true => forLoop fuel n o offsets' isWorking knownPrimes
        | Shor.Returns false => forLoop fuel n o offsets' isWorking (knownPrimes ++ [p])
        | Shor.OutOfBounds => Shor.OutOfBounds
        | Shor.DivisionByZero => Shor.DivisionByZero
        | Shor.OutOfFuel => Shor.OutOfFuel
        end
  end.

(** [while (isWorking)], entered with [isWorking] true. *)
Fixpoint whileLoop (fuel sqrtFuel : nat) (n o : Z) (knownPrimes : list Z)
  : Shor.outcome (list Z) :=
  match fuel with
  | O => Shor.OutOfFuel
  | S fuel' =>
      match forLoop sqrtFuel n o [1; 2; 3; 4; 5; 6] true knownPrimes with
      | Shor.Returns (isWorking, knownPrimes) =>
          match forLoop sqrtFuel n o [8; 9] isWorking knownPrimes with
          | Shor.Returns (isWorking, knownPrimes) =>
              if isWorking then whileLoop fuel' sqrtFuel n (uadd w o 10) knownPrimes
              else Shor.Returns knownPrimes
          | Shor.OutOfBounds => Shor.OutOfBounds
          | Shor.DivisionByZero => Shor.DivisionByZero
          | Shor.OutOfFuel => Shor.OutOfFuel
          end
      | Shor.OutOfBounds => Shor.OutOfBounds
      | Shor.DivisionByZero => Shor.DivisionByZero
      | Shor.OutOfFuel => Shor.OutOfFuel
      end
  end.

Definition TrialDivision (fuel : nat) (n : Z) : Shor.outcome (list Z) :=
  let knownPrimes := [2; 3; 5] in
  if n <? 2 then Shor.Returns []
  else if n <? 3 then Shor.Returns (take 1 knownPrimes)
  else if n <? 5 then Shor.Returns (take 2 knownPrimes)
  else if n <? 7 then Shor.Returns (take 3 knownPrimes)
  else whileLoop fuel fuel n 2 knownPrimes.
End Width.

(** [forward] when nothing wraps: the numbers [6 m - 1] and [6 m + 1]. *)
Definition wheel (p : Z) : Z := 3 * p - 1 - p mod 2.

(** The primes up to [m], in increasing order. *)
Definition primesUpTo (knownPrimes : list Z) (m : Z) : Prop :=
  StronglySorted Z.lt knownPrimes
  /\ forall x, In x knownPrimes <-> Z.prime x /\ x <= m.

End PrimeGenerator.

(** ** The threads of the single-file engine

    [main] starts one thread per hardware thread on the one flag
    [isFinished].  A thread runs batches of [BATCH_SIZE] items: it
    returns from inside a batch on a report, storing to the flag only on
    "Success", and reads the flag between two batches. *)

Module ShorThreads.

(** [BATCH_SIZE = 1U << 9U] *)
Definition BATCH_SIZE : Z := 512.

Inductive thread : Set :=
| Running (batchItem : Z)
| Returned.

Record run : Set := mkRun {
  isFinished : bool;
  threads : list thread;
  printed : list (nat * ShorMain.report)      (* thread and report *)
}.

Definition start (cpuCount : nat) : run :=
  mkRun false (replicate cpuCount (Running 0)) [].

(** One step of thread [cpu]: inside a batch, the item that has come out
    as [item]; once the batch is over, the read of the flag. *)
Definition step (s : run) (cpu : nat) (item : ShorMain.report) : run :=
  match threads s !! cpu with
  | Some (Running batchItem) =>
      if batchItem <? BATCH_SIZE then
        match item with
        | ShorMain.NonCoprime _ _ =>
            mkRun (isFinished s) (<[cpu := Returned]> (threads s))
                  (printed s ++ [(cpu, item)])
        | ShorMain.Success _ _ =>
            mkRun true (<[cpu := Returned]> (threads s)) (printed s ++ [(cpu, item)])
        | ShorMain.Nothing =>
            mkRun (isFinished s) (<[cpu := Running (batchItem + 1)]> (threads s)) (printed s)
        end
      else if isFinished s
           then mkRun (isFinished s) (<[cpu := Returned]> (threads s)) (printed s)
           else mkRun (isFinished s) (<[cpu := Running 0]> (threads s)) (printed s)
  | _ => s
  end.

Definition exec (s : run) (schedule : list (nat * ShorMain.report)) : run :=
  fold_left (fun s ev => step s (fst ev) (snd ev)) schedule s.

(** What holds of the flag and the reports at every point of every run. *)
Record orderly (s : run) : Prop := mkOrderly {
  flag_iff_success :
    isFinished s = true
    <-> exists cpu f1 f2, In (cpu, ShorMain.Success f1 f2) (printed s);
  returned_why :
    forall cpu, threads s !! cpu = Some Returned ->
      isFinished s = true \/ exists item, In (cpu, item) (printed s);
  printed_returned :
    forall cpu item, In (cpu, item) (printed s) ->
      threads s !! cpu = Some Returned /\ item <> ShorMain.Nothing
}.

End ShorThreads.

(** * Properties *)

(** ** Machine arithmetic *)

Section WrapFacts.
Variable w : Z.

Lemma wrap_small (x : Z) : 0 <= x < 2 ^ w -> wrap w x = x.
Proof. intros H. unfold wrap. now apply Z.mod_small. Qed.

Lemma wrap_range (x : Z) : 0 <= w -> 0 <= wrap w x < 2 ^ w.
Proof.
  intros H. unfold wrap. apply Z.mod_pos_bound.
  apply Z.pow_pos_nonneg; lia.
Qed.
End WrapFacts.

(** ** [gcd] *)

Lemma gcd_fuel_enough (fuel : nat) :
  forall a b : Z, 0 <= a -> 0 <= b -> (Z.to_nat b < fuel)%nat ->
    Shor.gcd fuel a b = Some (Z.gcd a b).
Proof.
  induction fuel as [| fuel IH]; intros a b Ha Hb Hfuel; [lia |].
  simpl. destruct (Z.eqb_spec b 0) as [-> | Hne].
  - rewrite Z.gcd_0_r, Z.abs_eq by assumption. reflexivity.
  - assert (Hm : 0 <= a mod b < b) by (apply Z.mod_pos_bound; lia).
    rewrite IH by lia.
    f_equal. rewrite (Z.gcd_comm b), Z.gcd_mod by assumption.
    apply Z.gcd_comm.
Qed.

(** C8. [gcd(a, 0)] is [a], and for non-negative [a] and [b] the recursion
    [gcd(a, b) = gcd(b, a mod b)] returns: a depth of [b + 1] calls is
    enough, and the value returned is the greatest common divisor. *)
Theorem gcd_zero_and_terminates (a b : Z) :
  0 <= a -> 0 <= b ->
  (forall fuel, Shor.gcd (S fuel) a 0 = Some a)
  /\ (b <> 0 -> forall fuel, Shor.gcd (S fuel) a b = Shor.gcd fuel b (a mod b))
  /\ (forall fuel, (Z.to_nat b < fuel)%nat -> Shor.gcd fuel a b = Some (Z.gcd a b)).
Proof.
  intros Ha Hb. split; [| split].
  - intros fuel. reflexivity.
  - intros Hne fuel. simpl. destruct (Z.eqb_spec b 0); [contradiction | reflexivity].
  - intros fuel Hfuel. now apply gcd_fuel_enough.
Qed.

Lemma gcd_zero_and_terminates_witness :
  Shor.gcd 1 21 0 = Some 21 /\ Shor.gcd 16 21 15 = Some 3.
Proof.
  destruct (gcd_zero_and_terminates 21 15 ltac:(lia) ltac:(lia)) as (H0 & _ & Hn).
  split.
  - apply H0.
  - rewrite Hn by (simpl; lia). reflexivity.
Defined.

(** ** [uipow] *)

Lemma uipowLoop_returns (w : Z) (fuel : nat) :
  forall result b e, 0 <= e -> (Z.to_nat (Z.log2 e) < fuel)%nat ->
    exists r, Shor.uipowLoop w fuel result b e = Some r.
Proof.
  induction fuel as [| fuel IH]; intros result b e He Hfuel; [lia |].
  simpl. destruct (Z.eqb_spec (Z.shiftr e 1) 0) as [E | E].
  - eauto.
  - apply IH.
    + apply Z.shiftr_nonneg. lia.
    + assert (e <> 0) by (intros ->; apply E; reflexivity).
      rewrite Z.log2_shiftr by lia.
      assert (0 < Z.log2 e).
      { destruct (Z.le_gt_cases (Z.log2 e) 0) as [Hle | Hgt]; [| lia].
        exfalso. apply E. apply Z.shiftr_eq_0; lia. }
      lia.
Qed.

(** [uipow] returns on every exponent. *)
Lemma uipow_returns (w base exp : Z) :
  0 <= exp -> exists r, Shor.uipow w base exp = Some r.
Proof. intros H. apply uipowLoop_returns; [assumption | lia]. Qed.

(** The loop tests the low bit of [b], never a bit of [e]: on an even base
    nothing is ever multiplied in. *)
Lemma uipowLoop_even (w : Z) (fuel : nat) :
  forall result b e r, 0 <= w -> Z.land b 1 = 0 ->
    Shor.uipowLoop w fuel result b e = Some r -> r = result.
Proof.
  induction fuel as [| fuel IH]; intros result b e r Hw Hb; simpl; [discriminate |].
  rewrite Hb. simpl.
  destruct (Z.shiftr e 1 =? 0); [congruence |].
  apply IH; [assumption |].
  unfold umul, wrap.
  change 1 with (Z.ones 1). rewrite Z.land_ones by lia.
  change 1 with (Z.ones 1) in Hb. rewrite Z.land_ones in Hb by lia.
  change (2 ^ 1) with 2 in *.
  destruct (Z.eq_dec w 0) as [-> | Hw0].
  - change (2 ^ 0) with 1. rewrite Z.mod_1_r. reflexivity.
  - rewrite Z.mod_mod_divide.
    + rewrite Z.mul_mod, Hb by lia. reflexivity.
    + exists (2 ^ (w - 1)). replace w with (Z.succ (w - 1)) at 1 by lia.
      rewrite Z.pow_succ_r by lia. lia.
Qed.

Lemma uipow_even_base (w base exp : Z) :
  0 <= w -> 0 <= exp -> Z.land base 1 = 0 -> Shor.uipow w base exp = Some 1.
Proof.
  intros Hw He Hb. destruct (uipow_returns w base exp He) as [r Hr].
  rewrite Hr. f_equal. unfold Shor.uipow in Hr.
  exact (uipowLoop_even w _ 1 base exp r Hw Hb Hr).
Qed.

(** C4. [uipow(2, 3)] returns 1 where the power is 8, and [uipow(3, 2)]
    returns 27 where the power is 9: the loop multiplies on the low bit of
    the base, not of the exponent.  Modulo 15 the residues differ too. *)
Theorem uipow_is_not_the_power :
  Shor.uipow Shor.bitCapIntBits 2 3 = Some 1 /\ 2 ^ 3 = 8
  /\ Shor.uipow Shor.bitCapIntBits 3 2 = Some 27 /\ 3 ^ 2 = 9
  /\ 1 mod 15 <> 2 ^ 3 mod 15 /\ 27 mod 15 <> 3 ^ 2 mod 15.
Proof. repeat split; try reflexivity; vm_compute; discriminate. Qed.

(** ** The continued-fraction loop *)

Section ContinuedFraction.
Variable w : Z.

Lemma convergent_in_bounds (denominators : list Z) (i : nat) :
  forall approxNumer approxDenom, (i < length denominators)%nat ->
    is_Some (Shor.convergent w denominators i approxNumer approxDenom).
Proof.
  induction i as [| i IH]; intros approxNumer approxDenom Hi; simpl.
  - eauto.
  - destruct (lookup_lt_is_Some_2 denominators (S i) Hi) as [d ->].
    apply IH. lia.
Qed.

(** [calc_continued_fraction] leaves the vector exactly on the empty one. *)
Lemma calc_continued_fraction_None (denominators : list Z) :
  Shor.calc_continued_fraction w denominators = None <-> denominators = [].
Proof.
  unfold Shor.calc_continued_fraction. split.
  - intros H. destruct (last denominators) as [back |] eqn:E.
    + assert (Hne : denominators <> []).
      { apply last_is_Some. rewrite E. eauto. }
      destruct (convergent_in_bounds denominators (length denominators - 1) 1 back)
        as [r Hr]; [| congruence].
      destruct denominators; [contradiction | simpl; lia].
    + now apply last_None.
  - intros ->. reflexivity.
Qed.

Lemma expand_in_bounds (toFactor : Z) (fuel : nat) :
  forall numerator denominator denominators,
    Shor.expand w fuel toFactor numerator denominator denominators <> Shor.OutOfBounds.
Proof.
  induction fuel as [| fuel IH]; intros numerator denominator denominators; simpl.
  - discriminate.
  - destruct (denominator =? 0); [discriminate |].
    destruct (Shor.calc_continued_fraction w _) as [[approxNumer approxDenom] |] eqn:E.
    + destruct (_ && _); [apply IH | discriminate].
    + apply calc_continued_fraction_None in E.
      now destruct denominators.
Qed.

(** The loop body has pushed a term before the loop can be left. *)
Lemma expand_nonempty (toFactor : Z) (fuel : nat) :
  forall numerator denominator denominators terms,
    Shor.expand w fuel toFactor numerator denominator denominators = Shor.Returns terms ->
    terms <> [].
Proof.
  induction fuel as [| fuel IH]; intros numerator denominator denominators terms; simpl.
  - discriminate.
  - destruct (denominator =? 0); [discriminate |].
    destruct (Shor.calc_continued_fraction w _) as [[approxNumer approxDenom] |];
      [| discriminate].
    destruct (_ && _).
    + apply IH.
    + intros [= <-]. now destruct denominators.
Qed.

(** The loop returns: the denominator decreases at every step. *)
Lemma expand_returns (toFactor : Z) (fuel : nat) :
  forall numerator denominator denominators,
    0 <= numerator < 2 ^ w -> 0 < denominator < 2 ^ w ->
    (Z.to_nat denominator < fuel)%nat ->
    exists terms,
      Shor.expand w fuel toFactor numerator denominator denominators = Shor.Returns terms.
Proof.
  induction fuel as [| fuel IH];
    intros numerator denominator denominators Hn Hd Hfuel; [lia |].
  simpl. destruct (Z.eqb_spec denominator 0) as [E | _]; [lia |].
  assert (Hq : 0 <= numerator / denominator * denominator <= numerator).
  { pose proof (Z.mul_div_le numerator denominator ltac:(lia)).
    pose proof (Z.div_pos numerator denominator ltac:(lia) ltac:(lia)). nia. }
  assert (Hr : usub w numerator (umul w (numerator / denominator) denominator)
               = numerator mod denominator).
  { unfold usub, umul. rewrite (wrap_small w (_ * _)) by lia.
    rewrite wrap_small by lia.
    rewrite Z.mod_eq by lia. lia. }
  rewrite Hr.
  pose proof (Z.mod_pos_bound numerator denominator ltac:(lia)) as Hm.
  destruct (Shor.calc_continued_fraction w _) as [[approxNumer approxDenom] |] eqn:E.
  - destruct (Z.ltb_spec 0 (numerator mod denominator)) as [Hpos | Hzero]; simpl.
    + destruct (approxDenom <? toFactor); [| eauto].
      apply IH; lia.
    + eauto.
  - apply calc_continued_fraction_None in E. now destruct denominators.
Qed.

(** C10. No run of the continued-fraction phase of [main] reaches
    [denominators.back()], [pop_back()] or [denominators[i]] outside the
    vector: [calc_continued_fraction] fails exactly on the empty vector,
    and the phase never fails that way.  For [y > 0] it returns a period
    candidate after at most [y] turns of the loop. *)
Theorem back_always_in_bounds (fuel : nat) (toFactor qubitPower y : Z) :
  (forall denominators,
      Shor.calc_continued_fraction w denominators = None <-> denominators = [])
  /\ Shor.periodGuess w fuel toFactor qubitPower y <> Shor.OutOfBounds
  /\ (0 <= qubitPower < 2 ^ w -> 0 < y < 2 ^ w -> (Z.to_nat y < fuel)%nat ->
      exists r, Shor.periodGuess w fuel toFactor qubitPower y = Shor.Returns r).
Proof.
  split; [apply calc_continued_fraction_None |].
  assert (Hstep : forall terms,
             Shor.expand w fuel toFactor qubitPower y [] = Shor.Returns terms ->
             exists r, Shor.periodGuess w fuel toFactor qubitPower y = Shor.Returns r).
  { intros terms Hterms. unfold Shor.periodGuess. rewrite Hterms.
    pose proof (expand_nonempty _ _ _ _ _ _ Hterms) as Hne.
    destruct terms as [| t terms]; [contradiction |].
    cbn [Shor.pop_back].
    destruct (length (removelast (t :: terms)) =? 0)%nat eqn:El; [eauto |].
    destruct (Shor.calc_continued_fraction w (removelast (t :: terms)))
      as [[approxNumer r] |] eqn:E; [eauto |].
    apply calc_continued_fraction_None in E. rewrite E in El. discriminate. }
  split.
  - destruct (Shor.expand w fuel toFactor qubitPower y []) as [terms | | |] eqn:E.
    + destruct (Hstep terms eq_refl) as [r ->]. discriminate.
    + now apply expand_in_bounds in E.
    + unfold Shor.periodGuess. rewrite E. discriminate.
    + unfold Shor.periodGuess. rewrite E. discriminate.
  - intros Hq Hy Hfuel.
    destruct (expand_returns toFactor fuel qubitPower y [] Hq Hy Hfuel) as [terms Ht].
    eauto.
Qed.
End ContinuedFraction.

Lemma small_fits_bitCapInt (x : Z) : 0 <= x < 4096 -> 0 <= x < 2 ^ Shor.bitCapIntBits.
Proof.
  intros H. split; [lia |]. change Shor.bitCapIntBits with 4096.
  apply Z.lt_trans with 4096; [lia | apply Z.pow_gt_lin_r; lia].
Qed.

Lemma back_always_in_bounds_witness :
  exists r, Shor.periodGuess Shor.bitCapIntBits 12 15 16 11 = Shor.Returns r.
Proof.
  apply (back_always_in_bounds Shor.bitCapIntBits 12 15 16 11).
  - apply small_fits_bitCapInt. lia.
  - pose proof (small_fits_bitCapInt 11). lia.
  - simpl. lia.
Defined.

(** ** The range partition *)

Lemma sample_inputs :
  (qubitCountOf 589 = 10 /\ pickTrialDivisionLevel noFit 10 = 59
   /\ semiprimeBounds 10 = Some (9, 63)
   /\ launch noFit 589 1 0 1 0 = Some (64, worker589))
  /\ (qubitCountOf 9 = 4 /\ pickTrialDivisionLevel noFit 4 = 59
      /\ semiprimeBounds 4 = Some (1, 7)
      /\ launch noFit 9 1 0 1 0 = Some (64, worker9)
      /\ launch noFit 9 1 0 4 0 = Some (64, worker9of4))
  /\ (qubitCountOf 1075592459 = 31 /\ pickTrialDivisionLevel noFit 31 = 59
      /\ semiprimeBounds 31 = Some (16411, 131071)
      /\ launch noFit 1075592459 1 0 3 0 = Some (64, worker31 0)
      /\ launch noFit 1075592459 1 0 3 1 = Some (64, worker31 1)
      /\ launch noFit 1075592459 1 0 3 2 = Some (64, worker31 2)
      /\ 30047 * 35797 = 1075592459).
Proof. repeat apply conj; vm_compute; reflexivity. Qed.

Section ThreadRange.
Variable w : Z.

Lemma threadRange_numerator (cpuCount nodeMin nodeRange : Z) :
  usub w (uadd w cpuCount (nodeMaxOf w nodeMin nodeRange)) (usub w nodeMin 1)
  = wrap w (nodeRange + cpuCount + 1).
Proof.
  unfold usub, uadd, nodeMaxOf, uadd, wrap.
  rewrite Zplus_mod_idemp_r, Zminus_mod_idemp_l, Zminus_mod_idemp_r.
  f_equal. lia.
Qed.

(** C5 (amended). The thread range is [(nodeRange + cpuCount + 1) div
    cpuCount], that is [(nodeRange + 1) div cpuCount + 1]: at least the
    ceiling of [nodeRange / cpuCount], and at most 2 more. *)
Theorem threadRange_formula (cpuCount nodeMin nodeRange : Z) :
  1 <= cpuCount -> 0 <= nodeRange -> nodeRange + cpuCount + 1 < 2 ^ w ->
  let threadRange := threadRangeOf w cpuCount nodeMin (nodeMaxOf w nodeMin nodeRange) in
  threadRange = (nodeRange + cpuCount + 1) / cpuCount
  /\ threadRange = (nodeRange + 1) / cpuCount + 1
  /\ (nodeRange + cpuCount - 1) / cpuCount <= threadRange
     <= (nodeRange + cpuCount - 1) / cpuCount + 2.
Proof.
  intros Hc Hn Hfit threadRange.
  assert (E : threadRange = (nodeRange + cpuCount + 1) / cpuCount).
  { unfold threadRange, threadRangeOf. rewrite threadRange_numerator.
    rewrite wrap_small by lia. reflexivity. }
  rewrite E. split; [reflexivity |]. split.
  - replace (nodeRange + cpuCount + 1) with (nodeRange + 1 + 1 * cpuCount) by lia.
    apply Z.div_add. lia.
  - split.
    + apply Z.div_le_mono; lia.
    + rewrite <- (Z.div_add _ 2 cpuCount) by lia.
      apply Z.div_le_mono; lia.
Qed.
End ThreadRange.

Lemma threadRange_formula_witness :
  threadRangeOf 64 3 16411 (nodeMaxOf 64 16411 15335) = (15335 + 3 + 1) / 3.
Proof.
  apply (threadRange_formula 64 3 16411 15335); [lia | lia | reflexivity].
Defined.

(** C5 as stated fails on the run for 1075592459 with three threads: the
    node range is 15335, its ceiling third is 5112, the thread range is
    5113. *)
Lemma threadRange_is_not_the_ceiling :
  let fullRange := fullRangeOf 64 59 16411 131071 in
  let nodeRange := nodeRangeOf 64 fullRange 1 in
  let nodeMin := nodeMinOf 64 16411 nodeRange 0 in
  let nodeMax := nodeMaxOf 64 nodeMin nodeRange in
  nodeRange = 15335
  /\ threadRangeOf 64 3 nodeMin nodeMax = 5113
  /\ (nodeRange + 3 - 1) / 3 = 5112
  /\ threadRangeOf 64 3 nodeMin nodeMax <> (nodeRange + 3 - 1) / 3.
Proof. vm_compute. repeat split; try reflexivity. discriminate. Qed.

Lemma trialDivisionPrimes_nonneg (i : nat) : 0 <= nth i trialDivisionPrimes 0.
Proof.
  assert (H : forallb (fun p => 0 <=? p) trialDivisionPrimes = true)
    by (vm_compute; reflexivity).
  rewrite forallb_forall in H.
  destruct (nth_in_or_default i trialDivisionPrimes 0) as [Hin | ->]; [| lia].
  apply H in Hin. lia.
Qed.

(** An invariant of the accumulator survives the walk over the primes. *)
Lemma primeWalk_invariant (body : Z -> Z -> Z) (L : Z) (P : Z -> Prop) :
  (forall p acc, 0 <= p -> P acc -> P (body p acc)) ->
  forall fuel currentPrime primeIndex acc,
    0 <= currentPrime -> P acc ->
    P (snd (primeWalk body L fuel currentPrime primeIndex acc)).
Proof.
  intros Hbody. induction fuel as [| fuel IH];
    intros currentPrime primeIndex acc Hp Hacc; cbn [primeWalk]; [assumption |].
  destruct (currentPrime <=? L); [| assumption].
  destruct (length trialDivisionPrimes <=? S primeIndex)%nat; cbn [snd].
  - now apply Hbody.
  - apply IH; [apply trialDivisionPrimes_nonneg | now apply Hbody].
Qed.

(** The walk stops by itself: fuel beyond the table size changes nothing. *)
Lemma primeWalk_fuel (body : Z -> Z -> Z) (L : Z) (fuel : nat) :
  forall currentPrime primeIndex acc,
    (primeIndex < length trialDivisionPrimes <= primeIndex + fuel)%nat ->
    primeWalk body L (S fuel) currentPrime primeIndex acc
    = primeWalk body L fuel currentPrime primeIndex acc.
Proof.
  induction fuel as [| fuel IH]; intros currentPrime primeIndex acc Hlen; [lia |].
  cbn [primeWalk]. destruct (currentPrime <=? L); [| reflexivity].
  destruct (Nat.leb_spec (length trialDivisionPrimes) (S primeIndex)); [reflexivity |].
  apply IH. lia.
Qed.

Lemma walkPrimes_fuel (body : Z -> Z -> Z) (L acc : Z) :
  primeWalk body L (S (length trialDivisionPrimes)) 2 0 acc = walkPrimes body L acc.
Proof. apply primeWalk_fuel. vm_compute. split; [lia | reflexivity]. Qed.

Section NodeRanges.
Variable w : Z.
Variable TRIAL_DIVISION_LEVEL : Z.
Hypothesis w_nonneg : 0 <= w.

Lemma shrinkStep_shrinks (p r : Z) :
  0 <= p -> 0 <= r -> 0 <= shrinkStep w p r <= r.
Proof.
  intros Hp Hr. unfold shrinkStep, umul.
  pose proof (wrap_range w (r * (p - 1)) w_nonneg) as Hw.
  destruct (Z.eq_dec p 0) as [-> | Hp0].
  - rewrite Zdiv_0_r. lia.
  - assert (Hle : wrap w (r * (p - 1)) <= r * (p - 1)).
    { unfold wrap. apply Z.mod_le; [nia | apply Z.pow_pos_nonneg; lia]. }
    split.
    + apply Z.div_pos; lia.
    + apply Z.div_le_upper_bound; [lia |]. nia.
Qed.

(** The shrunk range is at most the number of bases of the full range. *)
Lemma fullRangeOf_bounds (fullMinBase fullMaxBase : Z) :
  0 <= fullMinBase <= fullMaxBase -> fullMaxBase + 1 < 2 ^ w ->
  0 <= fullRangeOf w TRIAL_DIVISION_LEVEL fullMinBase fullMaxBase
    <= fullMaxBase + 1 - fullMinBase.
Proof.
  intros Hb Hfit. unfold fullRangeOf, walkPrimes.
  apply (primeWalk_invariant _ _ (fun r => 0 <= r <= fullMaxBase + 1 - fullMinBase)).
  - intros p acc Hp Hacc. pose proof (shrinkStep_shrinks p acc Hp). lia.
  - lia.
  - unfold usub, uadd. rewrite (wrap_small w (fullMaxBase + 1)) by lia.
    rewrite wrap_small by lia. lia.
Qed.

(** The node ranges over a shrunk range [fullRange], whatever it is. *)
Lemma node_ranges_contiguous (fullMinBase fullRange nodeCount : Z) :
  0 <= fullMinBase -> 0 <= fullRange -> 1 <= nodeCount ->
  fullMinBase + fullRange + nodeCount < 2 ^ w ->
  let nodeRange := nodeRangeOf w fullRange nodeCount in
  let nodeMin := nodeMinOf w fullMinBase nodeRange in
  let nodeMax := fun nodeId => nodeMaxOf w (nodeMin nodeId) nodeRange in
  nodeRange = (fullRange + nodeCount - 1) / nodeCount
  /\ fullRange <= nodeCount * nodeRange < fullRange + nodeCount
  /\ nodeMin 0 = fullMinBase
  /\ (forall nodeId, 0 <= nodeId < nodeCount -> nodeMax nodeId = nodeMin (nodeId + 1))
  /\ nodeMax (nodeCount - 1) = fullMinBase + nodeCount * nodeRange
  /\ (forall x, fullMinBase <= x <= fullMinBase + fullRange ->
      exists nodeId, 0 <= nodeId < nodeCount /\ nodeMin nodeId <= x <= nodeMax nodeId).
Proof.
  intros Hb HR Hc Hfit nodeRange nodeMin nodeMax.
  assert (Eq : nodeRange = (fullRange + nodeCount - 1) / nodeCount).
  { unfold nodeRange, nodeRangeOf, usub, uadd.
    rewrite (wrap_small w (fullRange + nodeCount)) by lia.
    rewrite wrap_small by lia. reflexivity. }
  assert (Hq : fullRange <= nodeCount * nodeRange < fullRange + nodeCount).
  { rewrite Eq.
    pose proof (Z.mul_div_le (fullRange + nodeCount - 1) nodeCount ltac:(lia)).
    pose proof (Z.mul_succ_div_gt (fullRange + nodeCount - 1) nodeCount ltac:(lia)).
    lia. }
  assert (Hq0 : 0 <= nodeRange) by nia.
  assert (Emin : forall nodeId, 0 <= nodeId <= nodeCount ->
                   nodeMin nodeId = fullMinBase + nodeRange * nodeId).
  { intros nodeId Hid. unfold nodeMin, nodeMinOf, uadd, umul.
    assert (0 <= nodeRange * nodeId <= nodeCount * nodeRange) by nia.
    rewrite (wrap_small w (nodeRange * nodeId)) by lia.
    rewrite wrap_small by lia. reflexivity. }
  assert (Emax : forall nodeId, 0 <= nodeId < nodeCount ->
                   nodeMax nodeId = fullMinBase + nodeRange * (nodeId + 1)).
  { intros nodeId Hid. unfold nodeMax, nodeMaxOf, uadd.
    rewrite Emin by lia.
    assert (0 <= nodeRange * (nodeId + 1) <= nodeCount * nodeRange) by nia.
    rewrite wrap_small by lia. lia. }
  clearbody nodeMax nodeMin nodeRange.
  repeat apply conj; try assumption; try lia.
  - rewrite Emin by lia. lia.
  - intros nodeId Hid. rewrite Emax, Emin by lia. reflexivity.
  - rewrite Emax by lia. f_equal. ring.
  - intros x Hx.
    destruct (Z.eq_dec nodeRange 0) as [E0 | Hne].
    + exists 0. rewrite Emin, Emax by lia. rewrite E0 in *. lia.
    + pose proof (Z.mul_div_le (x - fullMinBase) nodeRange ltac:(lia)) as Hlo.
      pose proof (Z.mul_succ_div_gt (x - fullMinBase) nodeRange ltac:(lia)) as Hhi.
      pose proof (Z.div_pos (x - fullMinBase) nodeRange ltac:(lia) ltac:(lia)) as Hd.
      destruct (Z.lt_ge_cases ((x - fullMinBase) / nodeRange) nodeCount) as [Hin | Hout].
      * exists ((x - fullMinBase) / nodeRange).
        rewrite Emin, Emax by lia. lia.
      * exists (nodeCount - 1). rewrite Emin, Emax by lia.
        split; [lia |]. split; [nia | ].
        replace (nodeCount - 1 + 1) with nodeCount by lia. lia.
Qed.

(** C3 (amended). The node ranges start at [fullMinBase], each ends
    where the next begins, and together they cover the bases from
    [fullMinBase] to [fullMinBase + fullRange], where [fullRange] is the
    range after the prime-by-prime shrink (at most [fullMaxBase + 1 -
    fullMinBase]); they reach past that by less than [nodeCount]. *)
Theorem node_ranges_cover_shrunk_range (fullMinBase fullMaxBase nodeCount : Z) :
  0 <= fullMinBase <= fullMaxBase -> 1 <= nodeCount ->
  fullMaxBase + 1 + nodeCount < 2 ^ w ->
  let fullRange := fullRangeOf w TRIAL_DIVISION_LEVEL fullMinBase fullMaxBase in
  let nodeRange := nodeRangeOf w fullRange nodeCount in
  let nodeMin := nodeMinOf w fullMinBase nodeRange in
  let nodeMax := fun nodeId => nodeMaxOf w (nodeMin nodeId) nodeRange in
  0 <= fullRange <= fullMaxBase + 1 - fullMinBase
  /\ nodeRange = (fullRange + nodeCount - 1) / nodeCount
  /\ fullRange <= nodeCount * nodeRange < fullRange + nodeCount
  /\ nodeMin 0 = fullMinBase
  /\ (forall nodeId, 0 <= nodeId < nodeCount -> nodeMax nodeId = nodeMin (nodeId + 1))
  /\ nodeMax (nodeCount - 1) = fullMinBase + nodeCount * nodeRange
  /\ (forall x, fullMinBase <= x <= fullMinBase + fullRange ->
      exists nodeId, 0 <= nodeId < nodeCount /\ nodeMin nodeId <= x <= nodeMax nodeId).
Proof.
  intros Hb Hc Hfit.
  pose proof (fullRangeOf_bounds fullMinBase fullMaxBase Hb ltac:(lia)) as HR.
  generalize dependent (fullRangeOf w TRIAL_DIVISION_LEVEL fullMinBase fullMaxBase).
  intros fullRange HR. cbv zeta. split; [assumption |].
  apply node_ranges_contiguous; lia.
Qed.
End NodeRanges.

Lemma node_ranges_cover_shrunk_range_witness :
  exists nodeId, 0 <= nodeId < 4 /\
    nodeMinOf 64 16411 (nodeRangeOf 64 (fullRangeOf 64 59 16411 131071) 4) nodeId <= 20000
    <= nodeMaxOf 64
         (nodeMinOf 64 16411 (nodeRangeOf 64 (fullRangeOf 64 59 16411 131071) 4) nodeId)
         (nodeRangeOf 64 (fullRangeOf 64 59 16411 131071) 4).
Proof.
  destruct (node_ranges_cover_shrunk_range 64 59 ltac:(lia) 16411 131071 4)
    as (_ & _ & _ & _ & _ & _ & Hcover); [lia | lia | reflexivity |].
  apply Hcover. split; vm_compute; discriminate.
Defined.

(** C3 as stated fails for the bases of a 31- or 32-qubit semiprime on
    one node: the node range ends at 31746 and 131071 is in no node's
    range. *)
Lemma node_ranges_miss_fullMaxBase : ~ nodeRangesCover 64 59 16411 131071 1.
Proof.
  intros H. destruct (H 131071 ltac:(lia)) as (nodeId & Hid & Hx).
  assert (nodeId = 0) by lia. subst nodeId.
  assert (E : nodeMaxOf 64
                (nodeMinOf 64 16411 (nodeRangeOf 64 (fullRangeOf 64 59 16411 131071) 1) 0)
                (nodeRangeOf 64 (fullRangeOf 64 59 16411 131071) 1) = 31746)
    by (vm_compute; reflexivity).
  cbv zeta in Hx. rewrite E in Hx. lia.
Qed.

(** ** The base sampler *)

(** The loop that fills [baseDist] stops by itself: one turn per word. *)
Lemma pushBounds_fuel (WORD_SIZE : Z) (fuel : nat) :
  forall range, 0 < WORD_SIZE -> 0 <= range < 2 ^ (WORD_SIZE * Z.of_nat fuel) ->
    pushBounds (S fuel) WORD_SIZE range = pushBounds fuel WORD_SIZE range.
Proof.
  induction fuel as [| fuel IH]; intros range Hw Hr.
  - rewrite Z.mul_0_r in Hr. change (2 ^ 0) with 1 in Hr.
    assert (range = 0) as -> by lia. reflexivity.
  - cbn [pushBounds]. destruct (range =? 0); [reflexivity |].
    f_equal. apply IH; [assumption |].
    rewrite Z.shiftr_div_pow2 by lia.
    assert (Hp : 0 < 2 ^ WORD_SIZE) by (apply Z.pow_pos_nonneg; lia).
    split; [apply Z.div_pos; lia |].
    apply Z.div_lt_upper_bound; [assumption |].
    rewrite <- Z.pow_add_r by lia.
    replace (WORD_SIZE + WORD_SIZE * Z.of_nat fuel)
      with (WORD_SIZE * Z.of_nat (S fuel)) by lia.
    lia.
Qed.

Lemma baseDist_fuel (w WORD_SIZE range : Z) :
  0 < WORD_SIZE -> 0 <= range < 2 ^ w ->
  pushBounds (S (Z.to_nat w)) WORD_SIZE range = pushBounds (Z.to_nat w) WORD_SIZE range.
Proof.
  intros Hw Hr. apply pushBounds_fuel; [assumption |].
  assert (0 <= w).
  { destruct (Z.le_gt_cases 0 w); [assumption |].
    rewrite Z.pow_neg_r in Hr by lia. lia. }
  split; [lia |]. apply Z.lt_le_trans with (2 ^ w); [lia |].
  apply Z.pow_le_mono_r; [lia |]. rewrite Z2Nat.id by lia. nia.
Qed.

Lemma land_NOT_1U_bounds (x : Z) : 0 <= x -> 0 <= Z.land x NOT_1U < 2 ^ 32.
Proof.
  intros Hx.
  assert (H0 : 0 <= Z.land x NOT_1U) by (apply Z.land_nonneg; now left).
  split; [assumption |].
  destruct (Z.eq_dec (Z.land x NOT_1U) 0) as [-> | Hne]; [reflexivity |].
  apply Z.log2_lt_pow2; [lia |].
  pose proof (Z.log2_land x NOT_1U Hx ltac:(unfold NOT_1U; lia)) as Hl.
  change (Z.log2 NOT_1U) with 31 in Hl. lia.
Qed.

Lemma land_NOT_1U_even (x : Z) : Z.land x NOT_1U mod 2 = 0.
Proof.
  rewrite <- Z.bit0_mod, Z.land_spec.
  change (Z.testbit NOT_1U 0) with false.
  now rewrite andb_false_r.
Qed.

Section SamplerFacts.
Variable w : Z.
Hypothesis w_pos : 0 < w.

Lemma excludeSmall_lower_bound (threadMin base : Z) :
  0 <= threadMin -> threadMin + 2 ^ 32 <= 2 ^ w ->
  threadMin <= excludeSmall w threadMin base
  /\ excludeSmall w threadMin base mod 2 = threadMin mod 2.
Proof.
  intros Hmin Hfit. unfold excludeSmall.
  set (x := uadd w (ushl w _ 1) _).
  assert (Hx : 0 <= x) by (apply wrap_range; lia).
  pose proof (land_NOT_1U_bounds x Hx) as Hb.
  pose proof (land_NOT_1U_even x) as He.
  assert (E : uadd w (Z.land x NOT_1U) threadMin = Z.land x NOT_1U + threadMin)
    by (unfold uadd; apply wrap_small; lia).
  rewrite E. split; [lia |].
  rewrite Z.add_mod, He by lia. simpl.
  apply Z.mod_mod. lia.
Qed.

(** C6 (amended). Every candidate base is at least [threadMin] and has
    the parity of [threadMin] (with [threadMin + 2 ^ 32] within the
    width, so that the last addition does not wrap).  No bound by
    [threadMax] is claimed. *)
Theorem candidate_at_least_threadMin (k : worker) (draws : list Z) (base : Z) :
  0 <= threadMin k -> threadMin k + 2 ^ 32 <= 2 ^ w ->
  candidate w k draws = Some base ->
  threadMin k <= base /\ base mod 2 = threadMin k mod 2.
Proof.
  intros Hmin Hfit. unfold candidate.
  destruct (baseDist w (wordBits (range k)) (range k)) as [bounds WORD_SIZE].
  destruct (rawBase w WORD_SIZE draws) as [raw |]; [| discriminate].
  intros [= <-]. now apply excludeSmall_lower_bound.
Qed.
End SamplerFacts.

Lemma candidate_at_least_threadMin_witness :
  threadMin (worker31 0) <= 57305 /\ 57305 mod 2 = threadMin (worker31 0) mod 2.
Proof.
  apply (candidate_at_least_threadMin 64 ltac:(lia) (worker31 0) [5414] 57305).
  - vm_compute. discriminate.
  - vm_compute. discriminate.
  - vm_compute. reflexivity.
Defined.

(** C6 as stated fails on thread 0 of the run for 1075592459: its interval
    is [16109, 21524), the largest raw draw is 5414, and the candidate
    drawn from it is 57305. *)
Lemma candidate_beyond_threadMax :
  threadMin (worker31 0) = 16109 /\ threadMax (worker31 0) = 21524
  /\ range (worker31 0) = 5414
  /\ drawsOk 64 (worker31 0) [5414] = true
  /\ candidate 64 (worker31 0) [5414] = Some 57305
  /\ ~ inThreadRange (worker31 0) 57305.
Proof.
  repeat apply conj; try (vm_compute; reflexivity).
  unfold inThreadRange.
  replace (threadMax (worker31 0)) with 21524 by (vm_compute; reflexivity).
  lia.
Qed.

(** C2. Candidates that are multiples of trial-division primes.  On the
    run for 589 (level 59) the raw draw 0 gives the candidate 75, a
    multiple of 3 and of 5; on thread 0 of the run for 1075592459 it gives
    16181, a multiple of 11. *)
Theorem candidate_multiple_of_trial_primes :
  (threadMin worker589 = 3 /\ primeIndex worker589 = 17%nat
   /\ drawsOk 64 worker589 [0] = true
   /\ excludePrimes 64 17 0 = 19 /\ excludeSmall 64 3 19 = 75
   /\ candidate 64 worker589 [0] = Some 75
   /\ 75 mod 3 = 0 /\ 75 mod 5 = 0)
  /\ (drawsOk 64 (worker31 0) [0] = true /\ candidate 64 (worker31 0) [0] = Some 16181
      /\ 16181 mod 11 = 0)
  /\ (In 3 trialDivisionPrimes /\ In 5 trialDivisionPrimes /\ In 11 trialDivisionPrimes
      /\ 11 <= pickTrialDivisionLevel noFit 10 /\ 11 <= pickTrialDivisionLevel noFit 31).
Proof.
  repeat apply conj; try (vm_compute; reflexivity); try (vm_compute; discriminate).
  - right. left. reflexivity.
  - right. right. left. reflexivity.
  - do 4 right. left. reflexivity.
Qed.

(** ** Success reports *)

(** What the fast path reports is a divisor and its cofactor. *)
Lemma tryBase_Found (toFactor base f1 f2 : Z) :
  tryBase toFactor base = Found f1 f2 ->
  f1 = base /\ f2 = toFactor / base /\ f1 * f2 = toFactor.
Proof.
  unfold tryBase. destruct (Z.eqb_spec base 0) as [| Hne]; [discriminate |].
  destruct (Z.eqb_spec (toFactor mod base) 0) as [Hm | ]; [| discriminate].
  intros [= <- <-]. repeat split.
  symmetry. apply Z_div_exact_full_2; assumption.
Qed.

(** The cofactor is a proper factor only for a base below [toFactor]. *)
Lemma tryBase_proper (toFactor base f1 f2 : Z) :
  1 < base < toFactor -> tryBase toFactor base = Found f1 f2 -> 1 < f1 /\ 1 < f2.
Proof.
  intros Hb H. destruct (tryBase_Found _ _ _ _ H) as (-> & _ & Hp).
  split; [lia | nia].
Qed.

(** The guard of [main] lets only proper pairs through. *)
Lemma reportSuccess_guard (w toFactor f1 f2 : Z) (p : Z * Z) :
  Shor.reportSuccess w toFactor f1 f2 = Some p ->
  p = (f1, f2) /\ umul w f1 f2 = toFactor /\ 1 < f1 /\ 1 < f2.
Proof.
  unfold Shor.reportSuccess.
  destruct (Z.eqb_spec (umul w f1 f2) toFactor); [| discriminate].
  destruct (Z.ltb_spec 1 f1); [| discriminate].
  destruct (Z.ltb_spec 1 f2); [| discriminate].
  simpl. intros [= <-]. auto.
Qed.

(** C1. The fast path on 9 = 3 * 3, one node, one hardware thread (or
    thread 0 of four): the words 1130326745 and 2269077603 are within the
    bounds of [baseDist], the candidate drawn from them is 9 itself, and
    the pair reported is (9, 1). *)
Theorem fast_path_reports_trivial_pair :
  range worker9 = 2 ^ 64 - 1
  /\ baseDist 64 (wordBits (range worker9)) (range worker9)
     = ([4294967295; 4294967295], 32)
  /\ drawsOk 64 worker9 [1130326745; 2269077603] = true
  /\ rawBase 64 32 [1130326745; 2269077603] = Some 4854716405838209123
  /\ excludePrimes 64 (primeIndex worker9) 4854716405838209123 = 9838263505978427530
  /\ excludeSmall 64 (threadMin worker9) 9838263505978427530 = 9
  /\ candidate 64 worker9 [1130326745; 2269077603] = Some 9
  /\ tryBase 9 9 = Found 9 1
  /\ (range worker9of4 = 2 ^ 64 - 2
      /\ drawsOk 64 worker9of4 [1130326745; 2269077603] = true
      /\ candidate 64 worker9of4 [1130326745; 2269077603] = Some 9).
Proof. repeat apply conj; vm_compute; reflexivity. Qed.

(** ** The shared flag *)

Section Runs.
Variable toFactor : Z.

Lemma start_consistent (cpuCount : nat) : consistent toFactor (start cpuCount).
Proof.
  constructor; simpl.
  - constructor.
  - intros cpu f1 f2 [].
  - intros cpu f1 f2 [].
  - intros cpu f1 f2 H. apply lookup_replicate in H. destruct H. discriminate.
  - split; [discriminate |].
    intros [H | (cpu & f1 & f2 & H)]; [congruence |].
    apply lookup_replicate in H. destruct H. discriminate.
Qed.

Lemma step_threads_length (s : run) (cpu : nat) (base : Z) :
  length (threads (step toFactor s cpu base)) = length (threads s).
Proof.
  unfold step. destruct (threads s !! cpu) as [[batchItem | f1 f2 |] |]; try reflexivity.
  - destruct (batchItem <? BASE_TRIALS).
    + destruct (tryBase toFactor base); simpl; try reflexivity; apply length_insert.
    + destruct (isFinished s); simpl; apply length_insert.
  - simpl. apply length_insert.
Qed.

(** A thread that has returned makes no further step. *)
Lemma step_Returned (s : run) (cpu : nat) (base : Z) :
  threads s !! cpu = Some Returned -> step toFactor s cpu base = s.
Proof. intros H. unfold step. now rewrite H. Qed.

(** Moving a thread that is not reporting to a state that is not reporting
    either changes nothing about who is reporting. *)
Lemma reporting_insert (l : list thread) (cpu : nat) (t0 t : thread) :
  l !! cpu = Some t0 ->
  (forall f1 f2, t0 <> Reporting f1 f2) -> (forall f1 f2, t <> Reporting f1 f2) ->
  forall cpu' f1 f2,
    <[cpu := t]> l !! cpu' = Some (Reporting f1 f2) <-> l !! cpu' = Some (Reporting f1 f2).
Proof.
  intros Hcpu H0 Ht cpu' f1 f2. rewrite list_lookup_insert_Some. split.
  - intros [(_ & E & _) | (_ & H)]; [now apply Ht in E | assumption].
  - intros H. right. split; [| assumption].
    intros <-. rewrite Hcpu in H. injection H as E. now apply H0 in E.
Qed.

Lemma step_consistent (s : run) (cpu : nat) (base : Z) :
  consistent toFactor s -> consistent toFactor (step toFactor s cpu base).
Proof.
  intros [Hnd Hret Hfac Hrep Hflag]. unfold step.
  destruct (threads s !! cpu) as [t0 |] eqn:Hcpu; [| constructor; assumption].
  assert (Hlen : (cpu < length (threads s))%nat) by (eapply lookup_lt_Some; eauto).
  assert (Hother : forall cpu' f1 f2 t, t0 <> Returned -> In (cpu', f1, f2) (printed s) ->
                     <[cpu := t]> (threads s) !! cpu' = Some Returned).
  { intros cpu' f1 f2 t Ht0 Hin. pose proof (Hret _ _ _ Hin) as Hr.
    rewrite list_lookup_insert_ne; [assumption | congruence]. }
  assert (Hquiet : forall t, (forall f1 f2, t0 <> Reporting f1 f2) -> t0 <> Returned ->
                     (forall f1 f2, t <> Reporting f1 f2) ->
                     consistent toFactor
                       (mkRun (isFinished s) (<[cpu := t]> (threads s)) (printed s))).
  { intros t Ht0 Ht0' Ht. constructor; simpl; eauto.
    - intros cpu' f1 f2 H. rewrite (reporting_insert _ _ _ _ Hcpu Ht0 Ht) in H. eauto.
    - rewrite Hflag. split; (intros [H | (cpu' & f1 & f2 & H)]; [now left | right]);
        exists cpu', f1, f2.
      + now rewrite (reporting_insert _ _ _ _ Hcpu Ht0 Ht).
      + now rewrite (reporting_insert _ _ _ _ Hcpu Ht0 Ht) in H. }
  destruct t0 as [batchItem | g1 g2 |]; [| | constructor; assumption].
  - destruct (batchItem <? BASE_TRIALS).
    + destruct (tryBase toFactor base) as [| | f1 f2] eqn:Htry.
      * constructor; assumption.
      * apply Hquiet; discriminate.
      * constructor; simpl; [assumption | | assumption | |].
        -- intros cpu' g1 g2 Hin. eapply Hother; [discriminate | eassumption].
        -- intros cpu' g1 g2 H. apply list_lookup_insert_Some in H.
           destruct H as [(_ & [= <- <-] & _) | (_ & H)]; [| eauto].
           now apply tryBase_Found in Htry.
        -- split; [| reflexivity]. intros _. right. exists cpu, f1, f2.
           now apply list_lookup_insert_eq.
    + destruct (isFinished s); apply Hquiet; discriminate.
  - constructor; simpl.
    + rewrite map_app. simpl. apply NoDup_app. split; [assumption |]. split.
      * intros cpu' Hin Hin'. apply list_elem_of_In in Hin, Hin'.
        destruct Hin' as [<- | []]. apply in_map_iff in Hin.
        destruct Hin as ([[cpu' h1] h2] & Heq & Hin). cbv in Heq. subst cpu'.
        apply Hret in Hin. congruence.
      * apply NoDup_singleton.
    + intros cpu' h1 h2 Hin. apply in_app_iff in Hin.
      destruct Hin as [Hin | [[= <- <- <-] | []]].
      * eapply Hother; [discriminate | eassumption].
      * now apply list_lookup_insert_eq.
    + intros cpu' h1 h2 Hin. apply in_app_iff in Hin.
      destruct Hin as [Hin | [[= <- <- <-] | []]]; eauto.
    + intros cpu' h1 h2 H. apply list_lookup_insert_Some in H.
      destruct H as [(_ & [=] & _) | (_ & H)]. eauto.
    + split.
      * intros _. left. now destruct (printed s).
      * intros _. apply Hflag. right. eauto.
Qed.

Lemma exec_consistent (schedule : list (nat * Z)) :
  forall s, consistent toFactor s -> consistent toFactor (exec toFactor s schedule).
Proof.
  induction schedule as [| ev schedule IH]; intros s Hs; [assumption |].
  apply IH. now apply step_consistent.
Qed.

Lemma exec_threads_length (schedule : list (nat * Z)) :
  forall s, length (threads (exec toFactor s schedule)) = length (threads s).
Proof.
  induction schedule as [| ev schedule IH]; intros s; [reflexivity |].
  change (exec toFactor s (ev :: schedule))
    with (exec toFactor (step toFactor s (fst ev) (snd ev)) schedule).
  rewrite IH. apply step_threads_length.
Qed.

(** C7 (amended). In every run from the start, whatever the schedule:
    the flag is set exactly when some thread has found a factor (it has
    printed, or is about to); every thread prints at most one success, so
    at most [cpuCount] are printed; a thread that has printed has
    returned, a returned thread does nothing further, and a thread that
    reads the flag as set at the end of a batch returns without printing;
    every pair printed multiplies to [toFactor]. *)
Theorem each_thread_reports_at_most_once (cpuCount : nat) (schedule : list (nat * Z)) :
  let s := exec toFactor (start cpuCount) schedule in
  consistent toFactor s
  /\ (length (printed s) <= cpuCount)%nat
  /\ (forall cpu base, threads s !! cpu = Some Returned -> step toFactor s cpu base = s)
  /\ (forall cpu base batchItem,
        threads s !! cpu = Some (Running batchItem) -> BASE_TRIALS <= batchItem ->
        isFinished s = true ->
        let s' := step toFactor s cpu base in
        threads s' !! cpu = Some Returned /\ printed s' = printed s).
Proof.
  intros s.
  assert (Hs : consistent toFactor s)
    by (apply exec_consistent, start_consistent).
  split; [assumption |]. split; [| split].
  - assert (Hlen : length (threads s) = cpuCount).
    { unfold s. rewrite exec_threads_length. simpl. apply length_replicate. }
    destruct Hs as [Hnd Hret _ _ _].
    apply Nat.le_trans with (length (seq 0 cpuCount)); [| rewrite length_seq; lia].
    rewrite <- (length_map reporter).
    apply NoDup_incl_length; [now apply NoDup_ListNoDup |].
    intros cpu Hin. apply in_map_iff in Hin.
    destruct Hin as ([[cpu' f1] f2] & Heq & Hin). cbv in Heq. subst cpu'.
    apply Hret in Hin. apply in_seq. apply lookup_lt_Some in Hin. lia.
  - intros cpu base. apply step_Returned.
  - intros cpu base batchItem Hcpu Hitem Hflag. unfold step. rewrite Hcpu.
    destruct (Z.ltb_spec batchItem BASE_TRIALS) as [Hlt | _]; [lia |].
    rewrite Hflag. simpl. split; [| reflexivity].
    apply list_lookup_insert_eq. eapply lookup_lt_Some; eauto.
Qed.
End Runs.

Lemma each_thread_reports_at_most_once_witness :
  (length (printed (exec 1075592459 (start 3) lateSuccess)) <= 3)%nat.
Proof. apply (each_thread_reports_at_most_once 1075592459 3 lateSuccess). Defined.

(** C7 as stated fails on 1075592459 = 30047 * 35797 with three threads.
    Thread 0 draws 30047, sets the flag and prints; thread 2 finishes a
    batch of misses, reads the flag as set and returns; thread 1 then
    draws 35797 and prints a second success. *)
Lemma second_success_after_flag_observed :
  (drawsOk 64 (worker31 0) [1828] = true /\ candidate 64 (worker31 0) [1828] = Some 30047)
  /\ (drawsOk 64 (worker31 1) [1902] = true /\ candidate 64 (worker31 1) [1902] = Some 35797)
  /\ (drawsOk 64 (worker31 2) [0] = true /\ candidate 64 (worker31 2) [0] = Some 26507)
  /\ (let s := exec 1075592459 (start 3) flagObserved in
      isFinished s = true /\ threads s = [Returned; Running 0; Returned]
      /\ printed s = [(0%nat, 30047, 35797)])
  /\ printed (exec 1075592459 (start 3) lateSuccess)
     = [(0%nat, 30047, 35797); (1%nat, 35797, 30047)]
  /\ ~ reportsOnce 1075592459 3.
Proof.
  assert (E : printed (exec 1075592459 (start 3) lateSuccess)
              = [(0%nat, 30047, 35797); (1%nat, 35797, 30047)])
    by (vm_compute; reflexivity).
  repeat apply conj; try (vm_compute; reflexivity).
  intros H. specialize (H lateSuccess). rewrite E in H. simpl in H. lia.
Qed.

(** ** The trial-division level past the table *)









(** The levels at the two ends of the range and next to the table. *)
Lemma level_samples :
  pickTrialDivisionLevel TrialLevel.expFit 70 = 233
  /\ pickTrialDivisionLevel TrialLevel.expFit 71 = 5346
  /\ pickTrialDivisionLevel TrialLevel.expFit 72 = 5891
  /\ pickTrialDivisionLevel TrialLevel.expFit 100 = 89322
  /\ pickTrialDivisionLevel TrialLevel.expFit 128 = 1354306.
Proof. vm_compute. repeat split; reflexivity. Qed.

(** * Further properties *)

(** ** Bit lengths ([isPowerOfTwo], [log2], [qubitCount]) *)

Lemma land_pred_pow2 (k : Z) : 0 <= k -> Z.land (2 ^ k) (2 ^ k - 1) = 0.
Proof.
  intros Hk. replace (2 ^ k - 1) with (Z.ones k) by (rewrite Z.ones_equiv; lia).
  rewrite Z.land_ones by assumption.
  apply Z.mod_same. apply Z.pow_nonzero; lia.
Qed.

Lemma land_pred_not_pow2 (x : Z) :
  0 < x -> x <> 2 ^ Z.log2 x -> Z.land x (x - 1) <> 0.
Proof.
  intros Hx Hne Hland.
  pose proof (Z.log2_spec x Hx) as [Hlo Hhi].
  assert (Hk : 0 <= Z.log2 x) by apply Z.log2_nonneg.
  assert (Hl : Z.log2 (x - 1) = Z.log2 x).
  { apply Z.log2_unique; [assumption | lia]. }
  assert (Hb : Z.testbit (Z.land x (x - 1)) (Z.log2 x) = true).
  { rewrite Z.land_spec, Z.bit_log2 by assumption.
    rewrite <- Hl. rewrite Z.bit_log2 by lia. reflexivity. }
  rewrite Hland, Z.bits_0 in Hb. discriminate.
Qed.

(** X1. [isPowerOfTwo] holds exactly of the powers of two. *)
Theorem isPowerOfTwo_spec (x : Z) :
  0 <= x ->
  (ShorMain.isPowerOfTwo x = true <-> exists k, 0 <= k /\ x = 2 ^ k).
Proof.
  intros Hx. unfold ShorMain.isPowerOfTwo.
  destruct (Z.eqb_spec x 0) as [-> | Hne].
  - split; [discriminate |]. intros (k & Hk & E).
    pose proof (Z.pow_pos_nonneg 2 k ltac:(lia) Hk). lia.
  - destruct (Z.eqb_spec (Z.land x (x - 1)) 0) as [E | E]; split; try discriminate.
    + intros _. exists (Z.log2 x). split; [apply Z.log2_nonneg |].
      destruct (Z.eq_dec x (2 ^ Z.log2 x)) as [H | H]; [assumption |].
      exfalso. now apply (land_pred_not_pow2 x ltac:(lia) H).
    + reflexivity.
    + intros (k & Hk & ->). exfalso. apply E. now apply land_pred_pow2.
Qed.

Lemma isPowerOfTwo_spec_witness : ShorMain.isPowerOfTwo 4096 = true.
Proof. apply (isPowerOfTwo_spec 4096 ltac:(lia)). exists 12. split; [lia | reflexivity]. Defined.

(** The loop of [log2] counts the binary digits of [p]. *)
Lemma shiftr_digits (p : Z) :
  0 < p ->
  (if Z.shiftr p 1 =? 0 then 0 else Z.log2 (Z.shiftr p 1) + 1) = Z.log2 p.
Proof.
  intros Hp. pose proof (Z.log2_nonneg p) as Hl.
  destruct (Z.eqb_spec (Z.shiftr p 1) 0) as [E | E].
  - apply Z.shiftr_eq_0_iff in E. destruct E as [-> | [_ H]]; lia.
  - rewrite Z.log2_shiftr by lia.
    assert (0 < Z.log2 p).
    { destruct (Z.le_gt_cases (Z.log2 p) 0); [| lia].
      exfalso. apply E. apply Z.shiftr_eq_0; lia. }
    lia.
Qed.

Lemma log2Loop_digits (fuel : nat) :
  forall p pow, 0 <= p -> 0 <= pow < 2 ^ 16 ->
    (Z.to_nat (if p =? 0 then 0 else Z.log2 p + 1)%Z < fuel)%nat ->
    ShorMain.log2Loop fuel p pow
    = Some ((pow + (if p =? 0 then 0 else Z.log2 p + 1)) mod 2 ^ 16).
Proof.
  induction fuel as [| fuel IH]; intros p pow Hp Hpow Hfuel; [lia |].
  cbn [ShorMain.log2Loop]. destruct (Z.eqb_spec p 0) as [-> | Hne].
  - rewrite Z.add_0_r, Z.mod_small by assumption. reflexivity.
  - pose proof (shiftr_digits p ltac:(lia)) as Hd.
    pose proof (Z.log2_nonneg p) as Hl.
    rewrite IH.
    + rewrite Hd, Zplus_mod_idemp_l. f_equal. f_equal. lia.
    + apply Z.shiftr_nonneg. lia.
    + apply Z.mod_pos_bound. lia.
    + rewrite Hd. lia.
Qed.

(** [log2] returns the floor of the binary logarithm (0 on 0 and 1). *)
Lemma log2_value (n : Z) :
  0 <= n < 2 ^ 65536 -> ShorMain.log2 n = Some (Z.log2 n).
Proof.
  intros [Hn Hlt]. unfold ShorMain.log2.
  pose proof (Z.log2_nonneg n) as Hln.
  destruct (Z.eq_dec n 0) as [-> | Hne]; [reflexivity |].
  assert (Hbound : Z.log2 n < 65536).
  { apply Z.log2_lt_pow2; [| exact Hlt]. clear Hlt. lia. }
  clear Hlt.
  pose proof (shiftr_digits n ltac:(lia)) as Hd.
  rewrite log2Loop_digits.
  - rewrite Hd. f_equal. apply Z.mod_small. lia.
  - apply Z.shiftr_nonneg. lia.
  - lia.
  - rewrite Hd. lia.
Qed.

(** X2. [log2] is the floor of the binary logarithm, and 0 on 0 and 1. *)
Theorem log2_floor (n : Z) :
  0 <= n < 2 ^ 65536 ->
  ShorMain.log2 n = Some (Z.log2 n)
  /\ (0 < n -> 2 ^ Z.log2 n <= n < 2 ^ (Z.log2 n + 1))
  /\ (n <= 1 -> ShorMain.log2 n = Some 0).
Proof.
  intros Hn. pose proof (log2_value n Hn) as E. split; [assumption |]. split.
  - intros Hpos. rewrite Z.add_1_r. apply Z.log2_spec. assumption.
  - intros H1. rewrite E. f_equal. apply Z.log2_null. assumption.
Qed.

Lemma log2_floor_witness : ShorMain.log2 589 = Some 9.
Proof.
  apply (log2_floor 589). split; [lia |].
  apply Z.lt_trans with 65536; [lia | apply Z.pow_gt_lin_r; lia].
Defined.

Section QubitCount.
Variable w : Z.
Hypothesis w_range : 1 <= w < 65536.

Lemma fits_bitLenInt (n : Z) : 0 <= n < 2 ^ w -> 0 <= n < 2 ^ 65536.
Proof.
  intros [H0 H1]. split; [assumption |].
  apply Z.lt_le_trans with (2 ^ w); [assumption |].
  apply Z.pow_le_mono_r; lia.
Qed.

Lemma qubitCount_value (toFactor : Z) :
  1 <= toFactor <= 2 ^ (w - 1) ->
  ShorMain.qubitCount toFactor = Some (Z.log2_up toFactor)
  /\ Z.log2_up toFactor <= w - 1.
Proof.
  intros [H1 Hw].
  assert (Hup : Z.log2_up toFactor <= w - 1) by (apply Z.log2_up_le_pow2; lia).
  split; [| assumption].
  unfold ShorMain.qubitCount. rewrite log2_value.
  2:{ apply fits_bitLenInt. split; [lia |].
      apply Z.le_lt_trans with (2 ^ (w - 1)); [assumption |].
      apply Z.pow_lt_mono_r; lia. }
  f_equal.
  pose proof (Z.le_log2_log2_up toFactor) as Hle.
  pose proof (Z.le_log2_up_succ_log2 toFactor) as Hsucc.
  pose proof (Z.log2_nonneg toFactor) as H0.
  pose proof (Z.log2_log2_up_exact toFactor ltac:(lia)) as Hex.
  unfold ShorMain.isPowerOfTwo.
  destruct (Z.eqb_spec toFactor 0) as [E | _]; [lia |].
  destruct (Z.eqb_spec (Z.land toFactor (toFactor - 1)) 0) as [E | E]; cbn [negb].
  - assert (Hp : toFactor = 2 ^ Z.log2 toFactor).
    { destruct (Z.eq_dec toFactor (2 ^ Z.log2 toFactor)) as [H | H]; [assumption |].
      exfalso. now apply (land_pred_not_pow2 toFactor ltac:(lia) H). }
    assert (Z.log2 toFactor = Z.log2_up toFactor) by (apply Hex; eauto).
    rewrite Z.mod_small by lia. lia.
  - assert (Z.log2 toFactor <> Z.log2_up toFactor).
    { intros Heq. apply Hex in Heq. destruct Heq as [b ->].
      destruct (Z.le_gt_cases 0 b) as [Hb | Hb].
      - apply E. now apply land_pred_pow2.
      - rewrite Z.pow_neg_r in H1 by assumption. lia. }
    rewrite Z.mod_small by lia. lia.
Qed.

(** X3. [qubitCount] is the ceiling of the binary logarithm of the number
    to factor, and [qubitPower] is the least power of two that is at
    least that number (for numbers up to [2 ^ (w - 1)], beyond which the
    shift leaves the width). *)
Theorem qubitPower_bounds (toFactor : Z) :
  1 <= toFactor <= 2 ^ (w - 1) ->
  ShorMain.qubitCount toFactor = Some (Z.log2_up toFactor)
  /\ ShorMain.qubitPower w toFactor = Some (2 ^ Z.log2_up toFactor)
  /\ toFactor <= 2 ^ Z.log2_up toFactor
  /\ (2 <= toFactor -> 2 ^ Z.log2_up toFactor < 2 * toFactor).
Proof.
  intros H. destruct (qubitCount_value toFactor H) as [Eq Hup].
  pose proof (Z.log2_up_nonneg toFactor) as H0.
  split; [assumption |]. split; [| split].
  - unfold ShorMain.qubitPower. rewrite Eq. f_equal.
    unfold ushl. rewrite Z.shiftl_mul_pow2, Z.mul_1_l by assumption.
    apply wrap_small. split; [apply Z.pow_nonneg; lia |].
    apply Z.pow_lt_mono_r; lia.
  - apply (Z.log2_log2_up_spec toFactor). lia.
  - intros H2. pose proof (Z.log2_up_spec toFactor ltac:(lia)) as [Hlo _].
    assert (0 < Z.log2_up toFactor).
    { destruct (Z.eq_dec (Z.log2_up toFactor) 0) as [E | E]; [| lia].
      apply Z.log2_up_null in E. lia. }
    replace (Z.log2_up toFactor) with (Z.succ (Z.pred (Z.log2_up toFactor))) at 1 by lia.
    rewrite Z.pow_succ_r by lia. lia.
Qed.
End QubitCount.

Lemma qubitPower_bounds_witness :
  ShorMain.qubitPower Shor.bitCapIntBits 589 = Some (2 ^ Z.log2_up 589).
Proof.
  apply (qubitPower_bounds Shor.bitCapIntBits ltac:(vm_compute; split; [discriminate | reflexivity]) 589).
  split; [lia |].
  apply Z.le_trans with (2 ^ 10); [lia |].
  apply Z.pow_le_mono_r; [lia | vm_compute; discriminate].
Defined.

(** ** [intLog] *)

Section IntLog.
Variable w : Z.
Hypothesis w_nonneg : 0 <= w.

Lemma intLogLoop_spec (base : Z) (fuel : nat) :
  2 <= base ->
  forall x result, 0 <= x -> 0 <= result < 2 ^ w ->
    (Z.to_nat (Z.log2 x) < fuel)%nat ->
    exists k, 0 <= k <= Z.log2 x
      /\ (1 <= x -> base ^ k <= x < base ^ (k + 1))
      /\ ShorMain.intLogLoop w fuel base x result = Shor.Returns (wrap w (result + k)).
Proof.
  intros Hbase. induction fuel as [| fuel IH]; intros x result Hx Hres Hfuel; [lia |].
  cbn [ShorMain.intLogLoop]. pose proof (Z.log2_nonneg x) as Hl.
  destruct (Z.leb_spec base x) as [Hle | Hgt].
  - destruct (Z.eqb_spec base 0) as [E | _]; [lia |].
    assert (Hq : 1 <= x / base).
    { apply Z.div_le_lower_bound; lia. }
    assert (Hmul : base * (x / base) <= x) by (apply Z.mul_div_le; lia).
    assert (Hmul' : x < base * (x / base + 1)).
    { pose proof (Z.mul_succ_div_gt x base ltac:(lia)). lia. }
    assert (Hlog : Z.log2 (x / base) < Z.log2 x).
    { assert (Z.log2 (2 * (x / base)) <= Z.log2 x) by (apply Z.log2_le_mono; nia).
      rewrite Z.log2_double in H by lia. lia. }
    destruct (IH (x / base) (uadd w result 1) ltac:(lia)
                ltac:(apply wrap_range; assumption) ltac:(pose proof (Z.log2_nonneg (x / base)); lia))
      as (k & Hk & Hpow & E).
    exists (k + 1). split; [lia |]. split.
    + intros _. specialize (Hpow Hq).
      rewrite !Z.pow_add_r, !Z.pow_1_r in * by lia. nia.
    + rewrite E. f_equal. unfold uadd, wrap. rewrite Zplus_mod_idemp_l. f_equal. lia.
  - exists 0. split; [lia |]. split.
    + intros H1. rewrite Z.pow_0_r, Z.add_0_l, Z.pow_1_r. lia.
    + rewrite Z.add_0_r, wrap_small by assumption. reflexivity.
Qed.

(** The loop never ends on base 1. *)
Lemma intLogLoop_base_1 (fuel : nat) :
  forall x result, 1 <= x -> ShorMain.intLogLoop w fuel 1 x result = Shor.OutOfFuel.
Proof.
  induction fuel as [| fuel IH]; intros x result Hx; [reflexivity |].
  cbn [ShorMain.intLogLoop]. destruct (Z.leb_spec 1 x); [| lia].
  cbn. rewrite Z.div_1_r. now apply IH.
Qed.

(** X4. [intLog(base, arg)] is the floor of the logarithm of [arg] to the
    base [base >= 2]: it returns [r] with [base ^ r <= arg < base ^ (r +
    1)].  On base 1 the loop never ends, and on base 0 it divides by
    zero. *)
Theorem intLog_floor (base arg : Z) :
  1 <= arg < 2 ^ w ->
  (2 <= base ->
   exists r, ShorMain.intLog w base arg = Shor.Returns r
             /\ 0 <= r /\ base ^ r <= arg < base ^ (r + 1))
  /\ (forall fuel, ShorMain.intLogLoop w fuel 1 arg 0 = Shor.OutOfFuel)
  /\ ShorMain.intLog w 0 arg = Shor.DivisionByZero.
Proof.
  intros Harg. split; [| split].
  - intros Hbase.
    assert (H0 : 0 <= 0 < 2 ^ w) by (split; [lia | apply Z.pow_pos_nonneg; lia]).
    destruct (intLogLoop_spec base (S (Z.to_nat (Z.log2 arg))) Hbase arg 0
                ltac:(lia) H0 ltac:(lia)) as (k & Hk & Hpow & E).
    exists k. unfold ShorMain.intLog. rewrite E.
    split; [| split; [lia | apply Hpow; lia]].
    f_equal. apply wrap_small.
    pose proof (Z.log2_le_lin arg ltac:(lia)). lia.
  - intros fuel. apply intLogLoop_base_1. lia.
  - unfold ShorMain.intLog. cbn [ShorMain.intLogLoop].
    destruct (Z.leb_spec 0 arg); [reflexivity | lia].
Qed.
End IntLog.

Lemma intLog_floor_witness :
  exists r, ShorMain.intLog 64 7 589 = Shor.Returns r /\ 0 <= r /\ 7 ^ r <= 589 < 7 ^ (r + 1).
Proof.
  apply (intLog_floor 64 ltac:(lia) 7 589); [split; [lia | reflexivity] | lia].
Defined.

(** ** [uipow] in closed form *)

Section UipowClosedForm.
Variable w : Z.
Hypothesis w_pos : 1 <= w.

Lemma wrap_odd (x : Z) : wrap w x mod 2 = x mod 2.
Proof.
  unfold wrap. apply Z.mod_mod_divide.
  exists (2 ^ (w - 1)). replace w with (Z.succ (w - 1)) at 1 by lia.
  rewrite Z.pow_succ_r by lia. lia.
Qed.

Lemma wrap_mul_pow (x y m : Z) :
  wrap w (wrap w x * wrap w y ^ m) = wrap w (x * y ^ m).
Proof.
  unfold wrap. rewrite Zmult_mod_idemp_l.
  rewrite <- Zmult_mod_idemp_r, Z.mod_pow_l, Zmult_mod_idemp_r. reflexivity.
Qed.

Lemma uipowLoop_odd (fuel : nat) :
  forall result b e, b mod 2 = 1 -> 0 <= e -> (Z.to_nat (Z.log2 e) < fuel)%nat ->
    Shor.uipowLoop w fuel result b e
    = Some (wrap w (result * b ^ (2 ^ (Z.log2 e + 1) - 1))).
Proof.
  induction fuel as [| fuel IH]; intros result b e Hb He Hfuel; [lia |].
  cbn [Shor.uipowLoop].
  assert (Hland : Z.land b 1 = 1).
  { change 1 with (Z.ones 1) at 1. rewrite Z.land_ones by lia. exact Hb. }
  rewrite Hland. cbn [Z.eqb].
  pose proof (Z.log2_nonneg e) as Hl.
  destruct (Z.eqb_spec (Z.shiftr e 1) 0) as [E | E].
  - assert (Z.log2 e = 0).
    { apply Z.shiftr_eq_0_iff in E. destruct E as [-> | [_ H]]; [reflexivity | lia]. }
    replace (Z.log2 e) with 0 by lia. cbn. unfold umul.
    now rewrite Z.pow_1_r.
  - pose proof (shiftr_digits e ltac:(destruct (Z.eq_dec e 0) as [-> |]; [now elim E | lia]))
      as Hd.
    destruct (Z.eqb_spec (Z.shiftr e 1) 0) as [| _]; [contradiction |].
    assert (Hpos : 0 < 2 ^ Z.log2 (Z.shiftr e 1)).
    { apply Z.pow_pos_nonneg; [lia | apply Z.log2_nonneg]. }
    pose proof (Z.log2_nonneg (Z.shiftr e 1)) as Hl'.
    rewrite IH.
    + f_equal. unfold umul. rewrite wrap_mul_pow. f_equal.
      replace (Z.log2 e + 1) with (Z.succ (Z.log2 (Z.shiftr e 1) + 1)) by lia.
      rewrite Z.pow_succ_r by lia.
      set (m := 2 ^ (Z.log2 (Z.shiftr e 1) + 1) - 1).
      assert (0 <= m).
      { unfold m. rewrite Z.pow_add_r by lia. lia. }
      replace (2 * 2 ^ (Z.log2 (Z.shiftr e 1) + 1) - 1) with (1 + (m + m)) by (unfold m; lia).
      rewrite Z.pow_mul_l, !Z.pow_add_r, Z.pow_1_r by lia. ring.
    + unfold umul. rewrite wrap_odd. rewrite Z.mul_mod, Hb by lia. reflexivity.
    + apply Z.shiftr_nonneg. lia.
    + lia.
Qed.

(** X5. [uipow] in closed form.  On an even base it returns 1.  On an odd
    base it returns the base to the power [2 ^ n - 1], modulo [2 ^ w],
    where [n] is the number of binary digits of the exponent (one for
    exponent 0): the base to the exponent only for exponents of the form
    [2 ^ n - 1]. *)
Theorem uipow_closed_form (base exp : Z) :
  0 <= exp ->
  Shor.uipow w base exp
  = Some (if Z.even base then 1
          else wrap w (base ^ (2 ^ (Z.log2 exp + 1) - 1)))
  /\ (Z.even base = false -> forall n, 1 <= n -> exp = 2 ^ n - 1 ->
      Shor.uipow w base exp = Some (wrap w (base ^ exp))).
Proof.
  intros He.
  assert (Hodd : Z.even base = false ->
                 Shor.uipow w base exp
                 = Some (wrap w (base ^ (2 ^ (Z.log2 exp + 1) - 1)))).
  { intros Hev. unfold Shor.uipow. rewrite uipowLoop_odd.
    - now rewrite Z.mul_1_l.
    - rewrite Zmod_even, Hev. reflexivity.
    - assumption.
    - lia. }
  split.
  - destruct (Z.even base) eqn:Hev.
    + apply uipow_even_base; [lia | assumption |].
      change 1 with (Z.ones 1). rewrite Z.land_ones by lia.
      change (2 ^ 1) with 2. rewrite Zmod_even, Hev. reflexivity.
    + now apply Hodd.
  - intros Hev n Hn ->. rewrite (Hodd Hev). do 3 f_equal.
    assert (Hp : 2 <= 2 ^ n).
    { replace n with (Z.succ (n - 1)) by lia. rewrite Z.pow_succ_r by lia.
      pose proof (Z.pow_pos_nonneg 2 (n - 1) ltac:(lia) ltac:(lia)). lia. }
    assert (Z.log2 (2 ^ n - 1) = n - 1).
    { apply Z.log2_unique; [lia |].
      replace (Z.succ (n - 1)) with n by lia.
      replace n with (Z.succ (n - 1)) at 2 by lia. rewrite Z.pow_succ_r by lia. lia. }
    rewrite H. replace (n - 1 + 1) with n by lia. reflexivity.
Qed.
End UipowClosedForm.

Lemma uipow_closed_form_witness :
  Shor.uipow Shor.bitCapIntBits 3 7 = Some (wrap Shor.bitCapIntBits (3 ^ 7)).
Proof.
  destruct (uipow_closed_form Shor.bitCapIntBits ltac:(vm_compute; discriminate) 3 7
              ltac:(lia)) as [_ H].
  apply (H eq_refl 3); [lia | reflexivity].
Defined.

(** ** Continued fractions *)

Section ContinuedFractionFacts.
Variable w : Z.

(** X6. On a numerator of the width and a positive denominator,
    [continued_fraction_step] is the division step of Euclid's algorithm:
    no operation wraps, the new denominator is the remainder, which is
    below the old one, and the greatest common divisor is kept. *)
Theorem continued_fraction_step_euclid (numerator denominator : Z) :
  0 <= numerator < 2 ^ w -> 0 < denominator ->
  Shor.continued_fraction_step w numerator denominator
  = (numerator / denominator, denominator, numerator mod denominator)
  /\ numerator = numerator / denominator * denominator + numerator mod denominator
  /\ 0 <= numerator mod denominator < denominator
  /\ Z.gcd denominator (numerator mod denominator) = Z.gcd numerator denominator.
Proof.
  intros Hn Hd.
  assert (Hq : 0 <= numerator / denominator * denominator <= numerator).
  { pose proof (Z.mul_div_le numerator denominator ltac:(lia)).
    pose proof (Z.div_pos numerator denominator ltac:(lia) ltac:(lia)). nia. }
  repeat apply conj.
  - unfold Shor.continued_fraction_step, usub, umul.
    rewrite (wrap_small w (_ * _)) by lia. rewrite wrap_small by lia.
    do 2 f_equal. rewrite Z.mod_eq by lia. lia.
  - rewrite Z.mod_eq by lia. lia.
  - apply Z.mod_pos_bound. lia.
  - apply Z.mod_pos_bound. lia.
  - rewrite Z.gcd_comm, Z.gcd_mod by lia. apply Z.gcd_comm.
Qed.

Lemma convergent_fold (x : Z) (t : list Z) (i : nat) :
  forall acc, (i <= length t)%nat ->
    Shor.convergent w (x :: t) i (fst acc) (snd acc)
    = Some (fold_left (ShorMain.convergentStep w) (rev (take i t)) acc).
Proof.
  induction i as [| i IH]; intros [n d] Hi.
  - reflexivity.
  - cbn [Shor.convergent fst snd].
    destruct (lookup_lt_is_Some_2 t i ltac:(lia)) as [e He].
    change ((x :: t) !! S i) with (t !! i). rewrite He.
    rewrite (take_S_r t i e He), rev_app_distr. cbn [rev app fold_left].
    pose proof (IH (d, uadd w (umul w e d) n) ltac:(lia)) as E.
    cbn [fst snd] in E. rewrite E. reflexivity.
Qed.

(** X7. [calc_continued_fraction] never reads the first term.  On one term
    [a] it gives [1 / a]; on more terms it folds the terms after the first
    from the last one down, starting from [1 / a] with [a] the last term,
    which is so used twice. *)
Theorem calc_continued_fraction_skips_first (x : Z) (t : list Z) :
  Shor.calc_continued_fraction w [x] = Some (1, x)
  /\ (forall a, last t = Some a ->
      Shor.calc_continued_fraction w (x :: t)
      = Some (fold_left (ShorMain.convergentStep w) (rev t) (1, a)))
  /\ (forall y, t <> [] ->
      Shor.calc_continued_fraction w (x :: t) = Shor.calc_continued_fraction w (y :: t)).
Proof.
  assert (H : forall z a, last t = Some a ->
                Shor.calc_continued_fraction w (z :: t)
                = Some (fold_left (ShorMain.convergentStep w) (rev t) (1, a))).
  { intros z a Ha. unfold Shor.calc_continued_fraction.
    rewrite last_cons, Ha. cbn [length]. rewrite Nat.sub_succ, Nat.sub_0_r.
    pose proof (convergent_fold z t (length t) (1, a) ltac:(lia)) as E.
    cbn [fst snd] in E. rewrite E. now rewrite firstn_all. }
  split; [reflexivity |]. split; [apply H |].
  intros y Hne. destruct (last t) as [a |] eqn:Ha.
  - now rewrite (H x a), (H y a).
  - apply last_None in Ha. contradiction.
Qed.


Lemma expand_terms (toFactor : Z) (fuel : nat) :
  forall numerator denominator denominators terms,
    ShorMain.convergentBelow w toFactor denominators ->
    Shor.expand w fuel toFactor numerator denominator denominators = Shor.Returns terms ->
    exists l t, terms = l ++ [t] /\ ShorMain.convergentBelow w toFactor l.
Proof.
  induction fuel as [| fuel IH]; intros numerator denominator denominators terms Hinv;
    cbn [Shor.expand]; [discriminate |].
  destruct (denominator =? 0); [discriminate |].
  cbn [Shor.continued_fraction_step].
  destruct (Shor.calc_continued_fraction w _) as [[approxNumer approxDenom] |] eqn:E;
    [| discriminate].
  destruct (Z.ltb_spec approxDenom toFactor) as [Hlt | Hge].
  - destruct (0 <? _); cbn [andb].
    + apply IH. right. eauto.
    + intros [= <-]. eauto.
  - rewrite andb_false_r. intros [= <-]. eauto.
Qed.

(** X8. The period candidate that the continued-fraction phase returns is
    [y] itself or lies below [toFactor]: it is the denominator of the last
    convergent that passed the test of the loop. *)
Theorem periodGuess_below_toFactor (fuel : nat) (toFactor qubitPower y r : Z) :
  Shor.periodGuess w fuel toFactor qubitPower y = Shor.Returns r ->
  r = y \/ r < toFactor.
Proof.
  unfold Shor.periodGuess.
  destruct (Shor.expand w fuel toFactor qubitPower y []) as [terms | | |] eqn:E;
    try discriminate.
  destruct (expand_terms _ _ _ _ _ _ (or_introl eq_refl) E) as (l & t & -> & Hinv).
  assert (Hpop : Shor.pop_back (l ++ [t]) = Some l).
  { unfold Shor.pop_back. rewrite removelast_last. now destruct l. }
  rewrite Hpop. destruct l as [| a l].
  - cbn. intros [= <-]. now left.
  - cbn [length Nat.eqb].
    destruct Hinv as [Hnil | (n & d & Hc & Hd)]; [discriminate |].
    rewrite Hc. intros [= <-]. now right.
Qed.
End ContinuedFractionFacts.

Lemma continued_fraction_step_euclid_witness :
  Shor.continued_fraction_step 64 1024 179 = (5, 179, 129)
  /\ 1024 = 1024 / 179 * 179 + 1024 mod 179
  /\ 0 <= 1024 mod 179 < 179
  /\ Z.gcd 179 (1024 mod 179) = Z.gcd 1024 179.
Proof.
  apply (continued_fraction_step_euclid 64 1024 179); lia.
Defined.

Lemma calc_continued_fraction_skips_first_witness :
  Shor.calc_continued_fraction 64 [5; 1; 2] = Shor.calc_continued_fraction 64 [0; 1; 2].
Proof.
  destruct (calc_continued_fraction_skips_first 64 5 [1; 2]) as (_ & _ & H).
  apply (H 0). discriminate.
Defined.

Lemma periodGuess_below_toFactor_witness : 5 = 11 \/ 5 < 15.
Proof.
  apply (periodGuess_below_toFactor Shor.bitCapIntBits 12 15 16 11 5).
  vm_compute. reflexivity.
Defined.

(** ** The loop that folds the factors *)

Section FoldFactors.
Variable w : Z.

Lemma foldFactors_returns (fuel : nat) (toFactor f1 f2 : Z) :
  exists g1 g2,
    ShorMain.foldFactors w (S (S fuel)) toFactor f1 f2 (umul w f1 f2) = Some (g1, g2).
Proof.
  cbn [ShorMain.foldFactors].
  destruct (negb (umul w f1 f2 =? toFactor) && (1 <? umul w f1 f2)
            && (umul w (toFactor / umul w f1 f2) (umul w f1 f2) =? toFactor)) eqn:E;
    [| eauto].
  apply andb_prop in E. destruct E as [_ E]. apply Z.eqb_eq in E.
  replace (umul w (umul w f1 f2) (toFactor / umul w f1 f2)) with toFactor.
  - rewrite Z.eqb_refl. cbn [negb andb]. eauto.
  - etransitivity; [symmetry; exact E |].
    generalize (umul w f1 f2). intros fmul. unfold umul. f_equal. apply Z.mul_comm.
Qed.

(** X9. The loop on [f1] and [f2] ends within one turn.  Either its test
    fails at once and the factors are unchanged, or one turn replaces them
    by [f1 * f2] and [toFactor / (f1 * f2)], whose product is [toFactor],
    and the test then fails. *)
Theorem foldFactors_one_turn (fuel : nat) (toFactor f1 f2 : Z) :
  exists g1 g2,
    ShorMain.foldFactors w (S (S fuel)) toFactor f1 f2 (umul w f1 f2) = Some (g1, g2)
    /\ ((g1 = f1 /\ g2 = f2)
        \/ (g1 = umul w f1 f2 /\ g2 = toFactor / umul w f1 f2
            /\ 1 < g1 /\ umul w g1 g2 = toFactor)).
Proof.
  cbn [ShorMain.foldFactors].
  destruct (Z.eqb_spec (umul w f1 f2) toFactor) as [E | E]; cbn [negb andb].
  - exists f1, f2. split; [reflexivity | now left].
  - destruct (Z.ltb_spec 1 (umul w f1 f2)) as [H1 | H1]; cbn [andb].
    + destruct (Z.eqb_spec (umul w (toFactor / umul w f1 f2) (umul w f1 f2)) toFactor)
        as [Hdiv | Hdiv].
      * assert (Hprod : umul w (umul w f1 f2) (toFactor / umul w f1 f2) = toFactor).
        { etransitivity; [| exact Hdiv].
          generalize (umul w f1 f2). intros fmul.
          unfold umul. f_equal. apply Z.mul_comm. }
        rewrite Hprod, Z.eqb_refl. cbn [negb andb].
        exists (umul w f1 f2), (toFactor / umul w f1 f2).
        split; [reflexivity |]. right. auto.
      * exists f1, f2. split; [reflexivity | now left].
    + exists f1, f2. split; [reflexivity | now left].
Qed.
End FoldFactors.

(** ** Numbers drawn word by word *)

Lemma validDrawsb_cons (b d : Z) (bounds draws : list Z) :
  validDrawsb (b :: bounds) (d :: draws) = true
  <-> 0 <= d <= b /\ validDrawsb bounds draws = true.
Proof. cbn [validDrawsb]. rewrite !andb_true_iff, !Z.leb_le. tauto. Qed.

Lemma validDrawsb_nonneg (bounds draws : list Z) :
  validDrawsb bounds draws = true -> Forall (fun d => 0 <= d) draws.
Proof.
  revert draws. induction bounds as [| b bounds IH]; intros [| d draws] H;
    try discriminate; constructor; apply validDrawsb_cons in H.
  - lia.
  - now apply IH.
Qed.

Lemma validDrawsb_below (bounds draws : list Z) (m : Z) :
  validDrawsb bounds draws = true -> Forall (fun b => b < m) bounds ->
  Forall (fun d => d < m) draws.
Proof.
  revert draws. induction bounds as [| b bounds IH]; intros [| d draws] H Hb;
    try discriminate; constructor; inversion Hb; subst; apply validDrawsb_cons in H.
  - lia.
  - apply IH; tauto.
Qed.

Section WordDraws.
Variable WORD_SIZE : Z.
Hypothesis WORD_SIZE_nonneg : 0 <= WORD_SIZE.

Let place (acc d : Z) : Z := acc * 2 ^ WORD_SIZE + d.

Lemma place_fold_grows (l : list Z) :
  forall a, 0 <= a -> Forall (fun d => 0 <= d) l -> a <= fold_left place l a.
Proof.
  induction l as [| d l IH]; intros a Ha Hl; [cbn; lia |].
  inversion Hl as [| ? ? Hd Hl']; subst. cbn [fold_left].
  assert (1 <= 2 ^ WORD_SIZE) by (pose proof (Z.pow_pos_nonneg 2 WORD_SIZE); lia).
  assert (a <= place a d) by (unfold place; nia).
  specialize (IH (place a d) ltac:(lia) Hl'). lia.
Qed.

(** Words within their bounds make a number within the number of the
    bounds. *)
Lemma place_fold_mono (bounds : list Z) :
  forall draws a a', validDrawsb bounds draws = true -> 0 <= a <= a' ->
    0 <= fold_left place draws a <= fold_left place bounds a'.
Proof.
  induction bounds as [| b bounds IH]; intros [| d draws] a a' H Ha; try discriminate.
  - cbn. lia.
  - cbn [fold_left]. apply validDrawsb_cons in H. destruct H as [Hd H].
    assert (0 < 2 ^ WORD_SIZE) by (apply Z.pow_pos_nonneg; lia).
    apply IH; [assumption |]. unfold place. nia.
Qed.

Lemma pushBounds_below (fuel : nat) :
  forall range, Forall (fun b => b < 2 ^ WORD_SIZE) (pushBounds fuel WORD_SIZE range).
Proof.
  induction fuel as [| fuel IH]; intros range; cbn [pushBounds]; [constructor |].
  destruct (range =? 0); constructor; [| apply IH].
  apply Z.mod_pos_bound. apply Z.pow_pos_nonneg; lia.
Qed.

(** The bounds pushed are the words of [range]. *)
Lemma pushBounds_value (fuel : nat) :
  forall range, 0 < WORD_SIZE -> 0 <= range < 2 ^ (WORD_SIZE * Z.of_nat fuel) ->
    Words.wordsValue WORD_SIZE (rev (pushBounds fuel WORD_SIZE range)) = range.
Proof.
  unfold Words.wordsValue. fold place.
  induction fuel as [| fuel IH]; intros range Hw Hr.
  - rewrite Z.mul_0_r in Hr. change (2 ^ 0) with 1 in Hr. cbn. lia.
  - cbn [pushBounds]. destruct (Z.eqb_spec range 0) as [-> | Hne]; [reflexivity |].
    cbn [rev]. rewrite fold_left_app. cbn [fold_left]. rewrite IH.
    + unfold place. rewrite Z.shiftr_div_pow2 by lia.
      pose proof (Z.div_mod range (2 ^ WORD_SIZE)
                    ltac:(pose proof (Z.pow_pos_nonneg 2 WORD_SIZE); lia)). lia.
    + assumption.
    + rewrite Z.shiftr_div_pow2 by lia.
      assert (Hp : 0 < 2 ^ WORD_SIZE) by (apply Z.pow_pos_nonneg; lia).
      split; [apply Z.div_pos; lia |].
      apply Z.div_lt_upper_bound; [assumption |].
      rewrite <- Z.pow_add_r by lia.
      replace (WORD_SIZE + WORD_SIZE * Z.of_nat fuel)
        with (WORD_SIZE * Z.of_nat (S fuel)) by lia.
      lia.
Qed.

Lemma pushBounds_nil (fuel : nat) (range : Z) :
  pushBounds (S fuel) WORD_SIZE range = [] <-> range = 0.
Proof.
  cbn [pushBounds]. destruct (Z.eqb_spec range 0); split; congruence.
Qed.

Lemma lor_shiftl_low (a d : Z) :
  0 <= d < 2 ^ WORD_SIZE -> Z.lor (Z.shiftl a WORD_SIZE) d = a * 2 ^ WORD_SIZE + d.
Proof.
  intros Hd. rewrite Z.shiftl_mul_pow2 by assumption.
  symmetry. rewrite <- Z.shiftl_mul_pow2 by assumption.
  apply Z.add_nocarry_lor. apply Z.bits_inj'. intros n Hn.
  rewrite Z.land_spec, Z.bits_0.
  destruct (Z.lt_ge_cases n WORD_SIZE) as [Hlt | Hge].
  - rewrite Z.shiftl_spec_low by assumption. reflexivity.
  - rewrite andb_comm.
    destruct (Z.eq_dec d 0) as [-> | Hne]; [now rewrite Z.bits_0 |].
    rewrite Z.bits_above_log2; [reflexivity | lia |].
    apply Z.lt_le_trans with WORD_SIZE; [| assumption].
    apply Z.log2_lt_pow2; lia.
Qed.

(** The draw loop computes the number of the words, as long as it fits
    the width. *)
Lemma rawBase_value (w : Z) (ds : list Z) :
  forall d, 0 <= w -> 0 <= d ->
    Forall (fun x => 0 <= x) ds -> Forall (fun x => x < 2 ^ WORD_SIZE) ds ->
    fold_left place ds d < 2 ^ w ->
    rawBase w WORD_SIZE (d :: ds) = Some (fold_left place ds d).
Proof.
  unfold rawBase. induction ds as [| x ds IH]; intros d Hw Hd Hpos Hlow Hfit;
    [reflexivity |].
  inversion Hpos as [| ? ? Hx Hpos']; inversion Hlow as [| ? ? Hx' Hlow']; subst.
  cbn [fold_left] in *.
  assert (Hstep : Z.lor (ushl w d WORD_SIZE) x = place d x).
  { assert (0 < 2 ^ WORD_SIZE) by (apply Z.pow_pos_nonneg; lia).
    assert (0 <= place d x) by (unfold place; nia).
    pose proof (place_fold_grows ds (place d x) ltac:(lia) Hpos').
    unfold ushl. rewrite Z.shiftl_mul_pow2 by assumption.
    rewrite wrap_small by (unfold place in *; nia).
    rewrite <- Z.shiftl_mul_pow2 by assumption.
    apply lor_shiftl_low. lia. }
  rewrite Hstep. apply IH; try assumption.
  assert (0 < 2 ^ WORD_SIZE) by (apply Z.pow_pos_nonneg; lia).
  unfold place. nia.
Qed.
End WordDraws.

(** A valid sequence of draws against the words of [range] assembles to a
    number within [range]; there is no valid draw only for [range = 0]. *)
Lemma chunked_draw_within (w WORD_SIZE range : Z) (draws : list Z) :
  0 < w -> 0 < WORD_SIZE -> 0 <= range < 2 ^ w ->
  validDrawsb (rev (pushBounds (Z.to_nat w) WORD_SIZE range)) draws = true ->
  match rawBase w WORD_SIZE draws with
  | Some raw => 0 <= raw <= range
  | None => range = 0
  end.
Proof.
  intros Hw Hws Hr Hvalid.
  assert (Hfuel : 0 <= range < 2 ^ (WORD_SIZE * Z.of_nat (Z.to_nat w))).
  { split; [lia |]. apply Z.lt_le_trans with (2 ^ w); [lia |].
    apply Z.pow_le_mono_r; [lia |]. rewrite Z2Nat.id by lia. nia. }
  pose proof (pushBounds_value WORD_SIZE ltac:(lia) (Z.to_nat w) range Hws Hfuel) as Hval.
  unfold Words.wordsValue in Hval.
  destruct draws as [| d ds].
  - cbn [rawBase].
    destruct (rev (pushBounds (Z.to_nat w) WORD_SIZE range)) eqn:E; [| discriminate].
    cbn in Hval. lia.
  - pose proof (place_fold_mono WORD_SIZE ltac:(lia) _ _ 0 0 Hvalid ltac:(lia)) as Hle.
    rewrite Hval in Hle. cbn [fold_left] in Hle. rewrite Z.mul_0_l, Z.add_0_l in Hle.
    pose proof (validDrawsb_nonneg _ _ Hvalid) as Hpos.
    pose proof (validDrawsb_below _ _ (2 ^ WORD_SIZE) Hvalid
                  (Forall_rev (pushBounds_below WORD_SIZE ltac:(lia) _ _))) as Hlow.
    inversion Hpos; inversion Hlow; subst.
    rewrite (rawBase_value WORD_SIZE ltac:(lia) w ds d) by (try assumption; lia).
    assumption.
Qed.

(** X10. The raw base that a worker of the distributed engine draws word
    by word is within [0, range] whenever every word is within the bounds
    of its distribution; the candidate is the exclusion steps applied to
    it.  No distribution exists, and [baseDist[0U]] is out of the vector,
    exactly when [range] is 0 on a [bitCapInt] wider than the RNG word. *)
Theorem raw_draw_within_range (w : Z) (k : worker) (draws : list Z) :
  0 < w -> 0 <= range k < 2 ^ w -> drawsOk w k draws = true ->
  match Words.rawOf w k draws with
  | Some raw =>
      0 <= raw <= range k
      /\ candidate w k draws
         = Some (excludeSmall w (threadMin k) (excludePrimes w (primeIndex k) raw))
  | None => range k = 0 /\ wordBits (range k) < w /\ candidate w k draws = None
  end.
Proof.
  intros Hw Hr. unfold drawsOk, Words.rawOf, candidate, baseDist.
  assert (Hws : 0 < wordBits (range k)) by (unfold wordBits; destruct (_ <=? _); lia).
  destruct (Z.ltb_spec (wordBits (range k)) w) as [Hlt | Hge]; cbn [fst snd].
  - intros Hvalid.
    pose proof (chunked_draw_within w _ _ draws Hw Hws Hr Hvalid) as H.
    destruct (rawBase w (wordBits (range k)) draws) as [raw |]; auto.
  - intros Hvalid. destruct draws as [| d [| d' ds]];
      [discriminate | | apply validDrawsb_cons in Hvalid; destruct Hvalid; discriminate].
    apply validDrawsb_cons in Hvalid. destruct Hvalid as [Hd _].
    cbn [rawBase fold_left]. split; [| reflexivity].
    pose proof (Z.mod_le (range k) (2 ^ wordBits (range k)) ltac:(lia)
                  ltac:(apply Z.pow_pos_nonneg; lia)). lia.
Qed.

Lemma raw_draw_within_range_witness :
  match Words.rawOf 64 (worker31 0) [5414] with
  | Some raw =>
      0 <= raw <= range (worker31 0)
      /\ candidate 64 (worker31 0) [5414]
         = Some (excludeSmall 64 (threadMin (worker31 0))
                   (excludePrimes 64 (primeIndex (worker31 0)) raw))
  | None => range (worker31 0) = 0 /\ wordBits (range (worker31 0)) < 64
            /\ candidate 64 (worker31 0) [5414] = None
  end.
Proof.
  apply (raw_draw_within_range 64 (worker31 0) [5414]); [lia | | vm_compute; reflexivity].
  split; vm_compute; [discriminate | reflexivity].
Defined.

(** ** The draws of the single-file engine *)

Section ShorDraws.
Variable w : Z.
Hypothesis w_pos : 0 < w.

Lemma drawBase_bounds (toFactor : Z) (draws : list Z) :
  2 <= toFactor < 2 ^ w ->
  validDrawsb (ShorMain.toFactorDist w toFactor) draws = true ->
  match ShorMain.drawBase w draws with
  | Some base => 2 <= base <= toFactor
  | None => toFactor = 2
  end.
Proof.
  intros Ht. unfold ShorMain.toFactorDist, ShorMain.drawBase, usub.
  rewrite wrap_small by lia. intros Hvalid.
  pose proof (chunked_draw_within w ShorMain.wordSize (toFactor - 2) draws w_pos
                ltac:(reflexivity) ltac:(lia) Hvalid) as H.
  destruct (rawBase w ShorMain.wordSize draws) as [raw |]; [| lia].
  unfold uadd. rewrite wrap_small by lia. lia.
Qed.

(** X11. The random base of a batch item lies between 2 and [toFactor],
    both included, whenever every word drawn is within the bounds of its
    distribution.  For [toFactor = 2] there is no distribution, and
    [toFactorDist[0]] is out of the vector. *)
Theorem drawBase_range (toFactor : Z) (draws : list Z) :
  2 <= toFactor < 2 ^ w ->
  validDrawsb (ShorMain.toFactorDist w toFactor) draws = true ->
  match ShorMain.drawBase w draws with
  | Some base => 2 <= base <= toFactor
  | None => toFactor = 2
  end.
Proof. apply drawBase_bounds. Qed.

(** With [yRange] of one word, the loop draws one pair of words. *)
Lemma guessY_single_word (qubitPower minR : Z) (draws : list (Z * Z))
    (out : Shor.outcome Z) :
  1 <= minR <= qubitPower -> qubitPower - minR < 2 ^ 64 ->
  qubitPower * qubitPower < 2 ^ w ->
  ShorMain.guessY w qubitPower minR draws = Some out ->
  exists rGuess c,
    minR <= rGuess <= qubitPower /\ 1 <= c <= qubitPower - minR + 1
    /\ out = Shor.Returns (c * qubitPower / rGuess)
    /\ 1 <= c * qubitPower / rGuess <= qubitPower * qubitPower.
Proof.
  intros Hm Hword Hfit.
  assert (Hq : qubitPower < 2 ^ w) by nia.
  assert (Hy : forall rGuess c, minR <= rGuess <= qubitPower ->
                 1 <= c <= qubitPower - minR + 1 ->
                 1 <= c * qubitPower / rGuess <= qubitPower * qubitPower).
  { intros rGuess c Hr Hc. split.
    - apply Z.div_le_lower_bound; nia.
    - apply Z.le_trans with (c * qubitPower); [| nia].
      set (X := c * qubitPower). assert (0 <= X) by (unfold X; nia).
      apply Z.div_le_upper_bound; nia. }
  assert (Hout : forall dr dc, 0 <= dr <= qubitPower - minR -> 0 <= dc <= qubitPower - minR ->
            (if uadd w dr minR =? 0 then Shor.DivisionByZero
             else Shor.Returns (umul w (uadd w dc 1) qubitPower / uadd w dr minR)) = out ->
            exists rGuess c,
              minR <= rGuess <= qubitPower /\ 1 <= c <= qubitPower - minR + 1
              /\ out = Shor.Returns (c * qubitPower / rGuess)
              /\ 1 <= c * qubitPower / rGuess <= qubitPower * qubitPower).
  { intros dr dc Hdr Hdc. unfold uadd, umul.
    rewrite (wrap_small w (dr + minR)), (wrap_small w (dc + 1)) by lia.
    rewrite wrap_small by nia.
    destruct (Z.eqb_spec (dr + minR) 0); [lia |].
    intros <-. exists (dr + minR), (dc + 1).
    split; [lia |]. split; [lia |]. split; [reflexivity |]. apply Hy; lia. }
  unfold ShorMain.guessY, usub. rewrite wrap_small by lia.
  destruct draws as [| [dr dc] draws]; cbn [ShorMain.drawPeriod].
  - destruct (Z.eqb_spec (qubitPower - minR) 0) as [E | E]; [| discriminate].
    intros [= H]. apply (Hout 0 0); [lia | lia | exact H].
  - destruct (Z.eqb_spec (qubitPower - minR) 0) as [E | E]; [discriminate |].
    rewrite (Z.mod_small (qubitPower - minR)) by (change ShorMain.wordSize with 64; lia).
    destruct (_ && _) eqn:Hvalid; [| discriminate].
    rewrite !andb_true_iff, !Z.leb_le in Hvalid.
    assert (Z.shiftr (qubitPower - minR) ShorMain.wordSize = 0) as ->.
    { apply Z.shiftr_eq_0_iff. right. split; [lia |].
      apply Z.log2_lt_pow2; [lia |]. change ShorMain.wordSize with 64. lia. }
    assert (Hz : ushl w 0 ShorMain.wordSize = 0).
    { unfold ushl. rewrite Z.shiftl_0_l. apply wrap_small. lia. }
    rewrite Hz, !Z.lor_0_l.
    destruct draws as [| p draws]; cbn [ShorMain.drawPeriod Z.eqb]; [| discriminate].
    intros [= H]. apply (Hout dr dc); [lia | lia | exact H].
Qed.
End ShorDraws.

Lemma drawBase_range_witness :
  match ShorMain.drawBase 64 [587] with
  | Some base => 2 <= base <= 589
  | None => 589 = 2
  end.
Proof.
  apply (drawBase_range 64 ltac:(lia) 589 [587]);
    [split; [lia | reflexivity] | vm_compute; reflexivity].
Defined.

(** X12. With [yRange = qubitPower - minR] of one word, the loop draws
    [rGuess] in [[minR, qubitPower]] and [c] in [[1, yRange + 1]], and [y]
    is at least 1: the continued-fraction phase does not start on a zero
    denominator. *)
Theorem guessY_positive_on_one_word (w qubitPower minR : Z) (draws : list (Z * Z))
    (out : Shor.outcome Z) :
  0 < w -> 1 <= minR <= qubitPower -> qubitPower - minR < 2 ^ 64 ->
  qubitPower * qubitPower < 2 ^ w ->
  ShorMain.guessY w qubitPower minR draws = Some out ->
  exists rGuess c,
    minR <= rGuess <= qubitPower /\ 1 <= c <= qubitPower - minR + 1
    /\ out = Shor.Returns (c * qubitPower / rGuess)
    /\ 1 <= c * qubitPower / rGuess <= qubitPower * qubitPower.
Proof. intros Hw. now apply guessY_single_word. Qed.

Lemma guessY_positive_on_one_word_witness :
  exists rGuess c,
    3 <= rGuess <= 1024 /\ 1 <= c <= 1024 - 3 + 1
    /\ Shor.Returns 366 = Shor.Returns (c * 1024 / rGuess)
    /\ 1 <= c * 1024 / rGuess <= 1024 * 1024.
Proof.
  apply (guessY_positive_on_one_word 64 1024 3 [(500, 179)] (Shor.Returns 366));
    try lia; try reflexivity.
Defined.

Section PeriodWords.
Variable w : Z.
Hypothesis w_wide : 257 <= w.

(** X13. With [yRange] of two words the loop takes the low word of
    [yRange] as the bound of its first draws and the high word as the
    bound of its second draws, but the first draws become the high words
    of [rGuess] and [c].  So [rGuess] can exceed [qubitPower]: drawing the
    low bound itself first and zeros after gives [y = 0], on which the
    continued-fraction phase divides by zero. *)
Theorem guessY_two_words (qubitPower minR dr0 dc0 dr1 dc1 : Z) :
  1 <= minR < 2 ^ 64 ->
  2 ^ 64 <= qubitPower - minR < 2 ^ 128 ->
  let lo := (qubitPower - minR) mod 2 ^ 64 in
  let hi := (qubitPower - minR) / 2 ^ 64 in
  0 <= dr0 <= lo -> 0 <= dc0 <= lo -> 0 <= dr1 <= hi -> 0 <= dc1 <= hi ->
  ShorMain.guessY w qubitPower minR [(dr0, dc0); (dr1, dc1)]
  = Some (Shor.Returns ((dc0 * 2 ^ 64 + dc1 + 1) * qubitPower
                        / (dr0 * 2 ^ 64 + dr1 + minR)))
  /\ (qubitPower < lo * 2 ^ 64 + minR ->
      ShorMain.guessY w qubitPower minR [(lo, 0); (0, 0)] = Some (Shor.Returns 0)
      /\ forall fuel toFactor,
           Shor.periodGuess w (S fuel) toFactor qubitPower 0 = Shor.DivisionByZero).
Proof.
  intros Hm Hy lo hi.
  assert (Hw : 2 ^ 257 <= 2 ^ w) by (apply Z.pow_le_mono_r; lia).
  assert (Hlo : 0 <= lo < 2 ^ 64) by (apply Z.mod_pos_bound; lia).
  assert (Hhi : 1 <= hi < 2 ^ 64).
  { unfold hi. split; [apply Z.div_le_lower_bound; lia |].
    apply Z.div_lt_upper_bound; [lia |]. change (2 ^ 64 * 2 ^ 64) with (2 ^ 128). lia. }
  assert (Hgen : forall a0 c0 a1 c1,
             0 <= a0 <= lo -> 0 <= c0 <= lo -> 0 <= a1 <= hi -> 0 <= c1 <= hi ->
             ShorMain.guessY w qubitPower minR [(a0, c0); (a1, c1)]
             = Some (Shor.Returns ((c0 * 2 ^ 64 + c1 + 1) * qubitPower
                                   / (a0 * 2 ^ 64 + a1 + minR)))).
  { intros a0 c0 a1 c1 Ha0 Hc0 Ha1 Hc1.
    unfold ShorMain.guessY, usub. rewrite wrap_small by lia.
    cbn [ShorMain.drawPeriod]. change ShorMain.wordSize with 64.
    destruct (Z.eqb_spec (qubitPower - minR) 0); [lia |].
    fold lo. rewrite Z.shiftr_div_pow2 by lia. fold hi.
    replace ((0 <=? a0) && (a0 <=? lo) && (0 <=? c0) && (c0 <=? lo)) with true
      by (symmetry; rewrite !andb_true_iff, !Z.leb_le; lia).
    destruct (Z.eqb_spec hi 0); [lia |].
    rewrite (Z.mod_small hi) by lia.
    replace ((0 <=? a1) && (a1 <=? hi) && (0 <=? c1) && (c1 <=? hi)) with true
      by (symmetry; rewrite !andb_true_iff, !Z.leb_le; lia).
    assert (Z.shiftr hi 64 = 0) as ->.
    { apply Z.shiftr_eq_0_iff. right. split; [lia |]. apply Z.log2_lt_pow2; lia. }
    cbn [Z.eqb].
    assert (Hz : ushl w 0 64 = 0).
    { unfold ushl. rewrite Z.shiftl_0_l. apply wrap_small. lia. }
    rewrite Hz, !Z.lor_0_l.
    assert (Hword : forall a b, 0 <= a < 2 ^ 64 -> 0 <= b < 2 ^ 64 ->
                      Z.lor (ushl w a 64) b = a * 2 ^ 64 + b).
    { intros a b Ha Hb. unfold ushl.
      rewrite wrap_small by (rewrite Z.shiftl_mul_pow2 by lia; lia).
      apply lor_shiftl_low; lia. }
    rewrite !Hword by lia.
    unfold uadd, umul.
    rewrite (wrap_small w (a0 * 2 ^ 64 + a1 + minR)) by lia.
    rewrite (wrap_small w (c0 * 2 ^ 64 + c1 + 1)) by lia.
    rewrite wrap_small by nia.
    destruct (Z.eqb_spec (a0 * 2 ^ 64 + a1 + minR) 0); [lia |]. reflexivity. }
  split.
  - intros. now apply Hgen.
  - intros Hbig. split.
    + rewrite Hgen by lia. do 2 f_equal.
      rewrite !Z.mul_0_l, !Z.add_0_l, Z.mul_1_l, Z.add_0_r.
      apply Z.div_small. lia.
    + intros fuel toFactor. reflexivity.
Qed.
End PeriodWords.

Lemma guessY_two_words_witness :
  ShorMain.guessY Shor.bitCapIntBits (2 ^ 65) 1 [(2 ^ 64 - 1, 0); (0, 0)]
  = Some (Shor.Returns 0).
Proof.
  assert (H1 : 257 <= Shor.bitCapIntBits) by (vm_compute; discriminate).
  assert (H2 : 1 <= 1 < 2 ^ 64) by (split; [lia | reflexivity]).
  assert (H3 : 2 ^ 64 <= 2 ^ 65 - 1 < 2 ^ 128) by (split; [vm_compute; discriminate | reflexivity]).
  assert (H4 : 0 <= 0 <= (2 ^ 65 - 1) mod 2 ^ 64) by (vm_compute; split; discriminate).
  assert (H5 : 0 <= 0 <= (2 ^ 65 - 1) / 2 ^ 64) by (vm_compute; split; discriminate).
  exact (proj1 (proj2 (guessY_two_words Shor.bitCapIntBits H1 (2 ^ 65) 1 0 0 0 0
                         H2 H3 H4 H4 H5 H5) eq_refl)).
Defined.

(** ** One batch item of the single-file engine *)

(** Whatever the fuel, a value that [gcd] returns is the greatest common
    divisor. *)
Lemma gcd_partial (fuel : nat) :
  forall a b v, 0 <= a -> 0 <= b -> Shor.gcd fuel a b = Some v -> v = Z.gcd a b.
Proof.
  induction fuel as [| fuel IH]; intros a b v Ha Hb; cbn [Shor.gcd]; [discriminate |].
  destruct (Z.eqb_spec b 0) as [-> | Hne].
  - intros [= <-]. rewrite Z.gcd_0_r, Z.abs_eq by assumption. reflexivity.
  - intros H. apply IH in H; [| lia | apply Z.mod_pos_bound; lia].
    rewrite H, (Z.gcd_comm b), Z.gcd_mod by assumption. apply Z.gcd_comm.
Qed.

Section BatchItem.
Variable w : Z.
Hypothesis w_pos : 0 < w.

Lemma convergent_nonneg (l : list Z) (i : nat) :
  forall n d n' d', 0 <= d -> Shor.convergent w l i n d = Some (n', d') -> 0 <= d'.
Proof.
  induction i as [| i IH]; intros n d n' d' Hd; cbn [Shor.convergent].
  - intros [= <- <-]. assumption.
  - destruct (l !! S i) as [e |]; [| discriminate].
    apply IH. apply wrap_range. lia.
Qed.

Lemma calc_nonneg (l : list Z) (n d : Z) :
  Forall (fun x => 0 <= x) l -> Shor.calc_continued_fraction w l = Some (n, d) -> 0 <= d.
Proof.
  intros Hl. unfold Shor.calc_continued_fraction.
  destruct (last l) as [back |] eqn:E; [| discriminate].
  apply convergent_nonneg.
  rewrite List.Forall_forall in Hl. apply Hl.
  apply last_Some in E. destruct E as [l' ->]. apply in_or_app. right. now left.
Qed.

Lemma expand_terms_nonneg (toFactor : Z) (fuel : nat) :
  forall numerator denominator denominators terms,
    0 <= numerator -> 0 <= denominator -> Forall (fun x => 0 <= x) denominators ->
    Shor.expand w fuel toFactor numerator denominator denominators = Shor.Returns terms ->
    Forall (fun x => 0 <= x) terms.
Proof.
  induction fuel as [| fuel IH]; intros numerator denominator denominators terms Hn Hd Hl;
    cbn [Shor.expand]; [discriminate |].
  destruct (Z.eqb_spec denominator 0); [discriminate |].
  cbn [Shor.continued_fraction_step].
  assert (Hl' : Forall (fun x => 0 <= x) (denominators ++ [numerator / denominator])).
  { apply Forall_app. split; [assumption |]. constructor; [| constructor].
    apply Z.div_pos; lia. }
  destruct (Shor.calc_continued_fraction w _) as [[approxNumer approxDenom] |];
    [| discriminate].
  destruct (_ && _).
  - apply IH; [lia | apply wrap_range; lia | assumption].
  - intros [= <-]. assumption.
Qed.

(** The continued-fraction phase returns a candidate that is not negative. *)
Lemma periodGuess_returns (fuel : nat) (toFactor qubitPower y : Z) :
  0 <= qubitPower < 2 ^ w -> 0 < y < 2 ^ w -> (Z.to_nat y < fuel)%nat ->
  exists r, Shor.periodGuess w fuel toFactor qubitPower y = Shor.Returns r /\ 0 <= r.
Proof.
  intros Hq Hy Hfuel.
  destruct (expand_returns w toFactor fuel qubitPower y [] Hq Hy Hfuel) as [terms Ht].
  pose proof (expand_nonempty _ _ _ _ _ _ _ Ht) as Hne.
  pose proof (expand_terms_nonneg toFactor fuel qubitPower y [] terms ltac:(lia) ltac:(lia)
                (List.Forall_nil _) Ht) as Hpos.
  unfold Shor.periodGuess. rewrite Ht.
  destruct terms as [| t terms]; [contradiction |]. cbn [Shor.pop_back].
  destruct (length (removelast (t :: terms)) =? 0)%nat eqn:El.
  - exists y. split; [reflexivity | lia].
  - destruct (Shor.calc_continued_fraction w (removelast (t :: terms)))
      as [[approxNumer r] |] eqn:E.
    + exists r. split; [reflexivity |]. eapply calc_nonneg; [| exact E].
      rewrite List.Forall_forall in *. intros x Hx. apply Hpos.
      destruct (exists_last (l:=t :: terms) ltac:(discriminate)) as (l' & a & Heq).
      rewrite Heq in *. rewrite removelast_last in Hx. apply in_or_app. now left.
    + apply calc_continued_fraction_None in E. rewrite E in El. discriminate.
Qed.

Lemma halfPeriod_nonneg (r : Z) : 0 <= r -> 0 <= ShorMain.halfPeriod w r.
Proof.
  intros Hr. unfold ShorMain.halfPeriod. apply Z.shiftr_nonneg.
  destruct (_ =? _); [assumption | apply wrap_range; lia].
Qed.

(** X14. The report "Chose non- relative prime" of a batch item is a
    factorization of [toFactor] by the greatest common divisor of
    [toFactor] and the base drawn, which is above 1.  The cofactor is 1
    exactly when the base drawn is [toFactor] itself. *)
Theorem nonCoprime_report (fuel : nat) (toFactor qubitPower : Z)
    (baseDraws : list Z) (periodDraws : list (Z * Z)) (testFactor cofactor : Z) :
  3 <= toFactor < 2 ^ w ->
  validDrawsb (ShorMain.toFactorDist w toFactor) baseDraws = true ->
  ShorMain.batchItem w fuel toFactor qubitPower baseDraws periodDraws
  = Shor.Returns (ShorMain.NonCoprime testFactor cofactor) ->
  exists base,
    ShorMain.drawBase w baseDraws = Some base /\ 2 <= base <= toFactor
    /\ testFactor = Z.gcd toFactor base /\ 1 < testFactor
    /\ testFactor * cofactor = toFactor
    /\ (cofactor = 1 <-> base = toFactor).
Proof.
  intros Ht Hvalid.
  pose proof (drawBase_bounds w w_pos toFactor baseDraws ltac:(lia) Hvalid) as Hbase.
  unfold ShorMain.batchItem.
  destruct (ShorMain.drawBase w baseDraws) as [base |]; [| discriminate].
  destruct (Shor.gcd fuel toFactor base) as [tf |] eqn:Hgcd; [| discriminate].
  apply gcd_partial in Hgcd; [| lia | lia].
  destruct (Z.eqb_spec tf 1) as [E1 | E1]; cbn [negb].
  - repeat match goal with
           | |- context [match ?x with _ => _ end] => destruct x
           end; discriminate.
  - destruct (Z.eqb_spec tf 0) as [E0 | E0]; [discriminate |].
    intros [= <- <-]. exists base.
    pose proof (Z.gcd_nonneg toFactor base) as Hnn.
    destruct (Z.gcd_divide_l toFactor base) as [q Hq].
    destruct (Z.gcd_divide_r toFactor base) as [q' Hq'].
    rewrite <- Hgcd in *.
    assert (Hdiv : toFactor / tf = q).
    { rewrite Hq at 1. apply Z.div_mul. assumption. }
    split; [reflexivity |]. split; [lia |]. split; [reflexivity |].
    split; [lia |]. split; [rewrite Hdiv; lia |]. split.
    + rewrite Hdiv. intros ->. rewrite Z.mul_1_l in Hq. subst tf.
      destruct (Z.le_gt_cases q' 0); [nia |].
      destruct (Z.le_gt_cases 2 q'); [nia |].
      assert (q' = 1) by lia. subst q'. lia.
    + intros ->. rewrite Hdiv. rewrite Z.gcd_diag, Z.abs_eq in Hgcd by lia. nia.
Qed.

(** X15. On a number to factor of at most 64 bits a batch item never
    divides by zero, never reads outside a vector and every loop of it
    ends: with words for the base within their bounds it returns a report,
    unless the words for [rGuess] and [c] are not words the loop can
    draw. *)
Theorem batchItem_returns_on_one_word (fuel : nat) (toFactor qubitPower : Z)
    (baseDraws : list Z) (periodDraws : list (Z * Z)) :
  3 <= toFactor <= qubitPower -> qubitPower <= 2 ^ 64 ->
  qubitPower * qubitPower < 2 ^ w ->
  (Z.to_nat (2 ^ w) <= fuel)%nat ->
  validDrawsb (ShorMain.toFactorDist w toFactor) baseDraws = true ->
  (exists rep,
      ShorMain.batchItem w fuel toFactor qubitPower baseDraws periodDraws = Shor.Returns rep)
  \/ (exists base minR,
        ShorMain.drawBase w baseDraws = Some base
        /\ ShorMain.intLog w base toFactor = Shor.Returns minR
        /\ ShorMain.guessY w qubitPower minR periodDraws = None).
Proof.
  intros Ht Hq64 Hfit Hfuel Hvalid.
  assert (Hqw : qubitPower < 2 ^ w) by nia.
  assert (Hfu : forall x, 0 <= x < 2 ^ w -> (Z.to_nat x < fuel)%nat) by (intros; lia).
  pose proof (drawBase_bounds w w_pos toFactor baseDraws ltac:(lia) Hvalid) as Hbase.
  unfold ShorMain.batchItem.
  destruct (ShorMain.drawBase w baseDraws) as [base |] eqn:Hdraw; [| lia].
  rewrite (gcd_fuel_enough fuel toFactor base) by (try apply Hfu; lia).
  pose proof (Z.gcd_nonneg toFactor base) as Hnn.
  destruct (Z.eqb_spec (Z.gcd toFactor base) 1) as [E1 | E1]; cbn [negb].
  2:{ left. destruct (Z.eqb_spec (Z.gcd toFactor base) 0) as [E0 | E0]; [| eauto].
      apply Z.gcd_eq_0_l in E0. lia. }
  assert (Hlt : base < toFactor).
  { destruct (Z.eq_dec base toFactor) as [-> | Hne]; [| lia].
    rewrite Z.gcd_diag, Z.abs_eq in E1 by lia. lia. }
  destruct (intLogLoop_spec w ltac:(lia) base (S (Z.to_nat (Z.log2 toFactor))) ltac:(lia)
              toFactor 0 ltac:(lia) ltac:(split; [lia | apply Z.pow_pos_nonneg; lia])
              ltac:(lia)) as (k & Hk & Hpow & Elog).
  specialize (Hpow ltac:(lia)).
  pose proof (Z.log2_le_lin toFactor ltac:(lia)) as Hlin.
  rewrite Z.add_0_l, wrap_small in Elog by lia.
  assert (Hk1 : 1 <= k).
  { destruct (Z.eq_dec k 0) as [-> | ]; [| lia]. cbn in Hpow. lia. }
  unfold ShorMain.intLog at 1. rewrite Elog.
  destruct (ShorMain.guessY w qubitPower k periodDraws) as [out |] eqn:Hguess.
  2:{ right. exists base, k. unfold ShorMain.intLog. auto. }
  left.
  destruct (guessY_single_word w w_pos qubitPower k periodDraws out ltac:(lia) ltac:(lia)
              Hfit Hguess) as (rGuess & c & _ & _ & -> & Hy).
  set (y := c * qubitPower / rGuess) in *.
  destruct (periodGuess_returns fuel toFactor qubitPower y ltac:(lia) ltac:(lia)
              ltac:(apply Hfu; lia)) as (r & -> & Hr).
  destruct (uipow_returns w base (ShorMain.halfPeriod w r) (halfPeriod_nonneg r Hr))
    as [power ->].
  destruct (Z.eqb_spec toFactor 0); [lia |].
  assert (Hmod : 0 <= power mod toFactor < toFactor) by (apply Z.mod_pos_bound; lia).
  rewrite !(gcd_fuel_enough fuel _ toFactor)
    by (try apply Hfu; try (apply wrap_range; lia); lia).
  assert (H2 : (2 <= fuel)%nat).
  { assert (2 <= 2 ^ w) by (replace w with (Z.succ (w - 1)) by lia;
                            rewrite Z.pow_succ_r by lia;
                            pose proof (Z.pow_pos_nonneg 2 (w - 1)); lia).
    lia. }
  destruct fuel as [| [| fuel']]; [lia | lia |].
  destruct (foldFactors_returns w fuel' toFactor
              (Z.gcd (uadd w (power mod toFactor) 1) toFactor)
              (Z.gcd (usub w (power mod toFactor) 1) toFactor)) as (g1 & g2 & ->).
  destruct (Shor.reportSuccess w toFactor g1 g2) as [[h1 h2] |]; eauto.
Qed.
End BatchItem.

Lemma batchItem_returns_on_one_word_witness :
  (exists rep,
      ShorMain.batchItem 9 512 15 16 [2] [(3, 5)] = Shor.Returns rep)
  \/ (exists base minR,
        ShorMain.drawBase 9 [2] = Some base
        /\ ShorMain.intLog 9 base 15 = Shor.Returns minR
        /\ ShorMain.guessY 9 16 minR [(3, 5)] = None).
Proof.
  apply (batchItem_returns_on_one_word 9 ltac:(lia) 512 15 16 [2] [(3, 5)]);
    [lia | lia | lia | vm_compute; lia | reflexivity].
Defined.

Lemma nonCoprime_report_witness :
  exists base,
    ShorMain.drawBase 64 [17] = Some base /\ 2 <= base <= 589
    /\ 19 = Z.gcd 589 base /\ 1 < 19 /\ 19 * 31 = 589 /\ (31 = 1 <-> base = 589).
Proof.
  apply (nonCoprime_report 64 ltac:(lia) 100 589 1024 [17] []);
    [split; [lia | reflexivity] | vm_compute; reflexivity | vm_compute; reflexivity].
Defined.

(** ** The distributed engine: widths and bounds *)

Lemma shiftCount_digits (p : Z) :
  shiftCount p = if p <=? 0 then 0 else Z.log2 p + 1.
Proof.
  destruct p as [| q | q]; try reflexivity.
  destruct q as [q | q |]; cbn [shiftCount Pos.size Z.log2 Z.leb Z.compare];
    try rewrite Pos2Z.inj_succ; lia.
Qed.

Lemma shiftCount_half (p : Z) : 0 < p -> shiftCount (Z.shiftr p 1) = Z.log2 p.
Proof.
  intros Hp. rewrite shiftCount_digits. rewrite <- (shiftr_digits p Hp).
  pose proof (Z.shiftr_nonneg p 1) as Hnn.
  destruct (Z.leb_spec (Z.shiftr p 1) 0), (Z.eqb_spec (Z.shiftr p 1) 0); lia.
Qed.

Lemma qubitCountOf_log2_up (toFactor : Z) :
  1 <= toFactor -> qubitCountOf toFactor = Z.log2_up toFactor.
Proof.
  intros H1. unfold qubitCountOf. rewrite shiftCount_half by lia.
  pose proof (Z.le_log2_log2_up toFactor) as Hle.
  pose proof (Z.le_log2_up_succ_log2 toFactor) as Hsucc.
  pose proof (Z.log2_log2_up_exact toFactor ltac:(lia)) as Hex.
  destruct (Z.eqb_spec toFactor 0) as [E | _]; [lia |]. cbn [negb andb].
  destruct (Z.eqb_spec (Z.land toFactor (toFactor - 1)) 0) as [E | E]; cbn [negb].
  - assert (Hp : toFactor = 2 ^ Z.log2 toFactor).
    { destruct (Z.eq_dec toFactor (2 ^ Z.log2 toFactor)) as [H | H]; [assumption |].
      exfalso. now apply (land_pred_not_pow2 toFactor ltac:(lia) H). }
    assert (Z.log2 toFactor = Z.log2_up toFactor) by (apply Hex; eauto).
    lia.
  - assert (Z.log2 toFactor <> Z.log2_up toFactor).
    { intros Heq. apply Hex in Heq. destruct Heq as [b ->].
      destruct (Z.le_gt_cases 0 b) as [Hb | Hb].
      - apply E. now apply land_pred_pow2.
      - rewrite Z.pow_neg_r in H1 by assumption. lia. }
    lia.
Qed.

Lemma level_below_primeFactorBits (L : Z) :
  0 <= shiftCount (Z.shiftr L 1) /\ L < 2 ^ (1 + shiftCount (Z.shiftr L 1)).
Proof.
  destruct (Z.le_gt_cases L 0) as [H | H].
  - rewrite shiftCount_digits.
    pose proof (Z.log2_nonneg (Z.shiftr L 1)).
    destruct (_ <=? _); (split; [lia |]).
    + change (2 ^ (1 + 0)) with 2. lia.
    + apply Z.le_lt_trans with 0; [assumption |]. apply Z.pow_pos_nonneg; lia.
  - rewrite shiftCount_half by assumption.
    pose proof (Z.log2_nonneg L). split; [assumption |].
    rewrite Z.add_comm. apply Z.log2_spec. assumption.
Qed.

(** X16. [main] counts [qubitCount] as the ceiling of the binary logarithm
    of the number to factor, and whatever the trial-division level, the
    [bitCapInt] it picks is one of the seven widths and holds the product
    of the number to factor and the level.  With the levels of the table
    (up to 70 qubits) the 64-bit type is picked below 32 qubits and the
    128-bit type from 32 qubits on. *)
Theorem bitCapInt_holds_toFactor (expFit : Z -> Z) (toFactor : Z) :
  1 <= toFactor ->
  qubitCountOf toFactor = Z.log2_up toFactor
  /\ (forall TRIAL_DIVISION_LEVEL w,
        bitCapIntWidth TRIAL_DIVISION_LEVEL (qubitCountOf toFactor) = Some w ->
        In w [64; 128; 192; 256; 512; 1024; 2048]
        /\ toFactor * TRIAL_DIVISION_LEVEL < 2 ^ w)
  /\ (qubitCountOf toFactor < 32 ->
      bitCapIntWidth (pickTrialDivisionLevel expFit (qubitCountOf toFactor))
        (qubitCountOf toFactor) = Some 64)
  /\ (32 <= qubitCountOf toFactor <= 70 ->
      bitCapIntWidth (pickTrialDivisionLevel expFit (qubitCountOf toFactor))
        (qubitCountOf toFactor) = Some 128).
Proof.
  intros H1. rewrite (qubitCountOf_log2_up toFactor H1).
  set (q := Z.log2_up toFactor).
  assert (Hq : 0 <= q) by apply Z.log2_up_nonneg.
  assert (Hfit : toFactor <= 2 ^ q).
  { destruct (Z.eq_dec toFactor 1) as [-> | Hne]; [reflexivity |].
    apply Z.log2_up_spec. lia. }
  split; [reflexivity |]. split; [| split].
  - intros L w. unfold bitCapIntWidth.
    destruct (level_below_primeFactorBits L) as [Hs HL].
    set (primeFactorBits := 1 + shiftCount (Z.shiftr L 1)) in *.
    rewrite Z.shiftr_div_pow2, Z.shiftl_mul_pow2 by lia.
    change (2 ^ 5) with 32.
    set (QBCAPBITS := primeFactorBits + (q / 32 + 1) * 32).
    assert (Hbits : primeFactorBits + q < QBCAPBITS).
    { unfold QBCAPBITS. pose proof (Z.mod_pos_bound q 32 ltac:(lia)).
      pose proof (Z.div_mod q 32 ltac:(lia)). lia. }
    assert (Hprod : forall w', QBCAPBITS <= w' -> toFactor * L < 2 ^ w').
    { intros w' Hw'. destruct (Z.le_gt_cases L 0) as [HL0 | HL0].
      - apply Z.le_lt_trans with 0; [nia | apply Z.pow_pos_nonneg; lia].
      - apply Z.lt_le_trans with (2 ^ q * 2 ^ primeFactorBits).
        + assert (0 < 2 ^ q) by (apply Z.pow_pos_nonneg; lia). nia.
        + rewrite <- Z.pow_add_r by lia. apply Z.pow_le_mono_r; lia. }
    repeat match goal with
           | |- context [if ?b <? ?c then _ else _] =>
               destruct (Z.ltb_spec b c)
           end; intros [= <-]; (split; [cbn; tauto | apply Hprod; lia]).
  - intros H32. unfold pickTrialDivisionLevel, bitCapIntWidth.
    destruct (Z.leb_spec q 58); [| lia].
    change (1 + shiftCount (Z.shiftr 59 1)) with 6.
    rewrite Z.shiftr_div_pow2, Z.shiftl_mul_pow2 by lia. change (2 ^ 5) with 32.
    assert (q / 32 = 0) as -> by (apply Z.div_small; lia). reflexivity.
  - intros H70. unfold pickTrialDivisionLevel, bitCapIntWidth.
    rewrite (Z.shiftr_div_pow2 q 5), Z.shiftl_mul_pow2 by lia. change (2 ^ 5) with 32.
    assert (Hd : q / 32 = 1 \/ q / 32 = 2).
    { pose proof (Z.mod_pos_bound q 32 ltac:(lia)).
      pose proof (Z.div_mod q 32 ltac:(lia)). lia. }
    assert (H64 : q / 32 = 2 -> 64 <= q).
    { pose proof (Z.mod_pos_bound q 32 ltac:(lia)).
      pose proof (Z.div_mod q 32 ltac:(lia)). lia. }
    repeat match goal with
           | |- context [if ?b <=? ?c then _ else _] =>
               destruct (Z.leb_spec b c)
           end; try lia;
      match goal with
      | |- context [shiftCount ?x] =>
          let v := eval vm_compute in (shiftCount x) in change (shiftCount x) with v
      end; destruct Hd as [Hd | Hd]; rewrite Hd; try reflexivity; lia.
Qed.

Lemma bitCapInt_holds_toFactor_witness :
  qubitCountOf 589 = Z.log2_up 589
  /\ (forall TRIAL_DIVISION_LEVEL w,
        bitCapIntWidth TRIAL_DIVISION_LEVEL (qubitCountOf 589) = Some w ->
        In w [64; 128; 192; 256; 512; 1024; 2048]
        /\ 589 * TRIAL_DIVISION_LEVEL < 2 ^ w)
  /\ (qubitCountOf 589 < 32 ->
      bitCapIntWidth (pickTrialDivisionLevel noFit (qubitCountOf 589))
        (qubitCountOf 589) = Some 64)
  /\ (32 <= qubitCountOf 589 <= 70 ->
      bitCapIntWidth (pickTrialDivisionLevel noFit (qubitCountOf 589))
        (qubitCountOf 589) = Some 128).
Proof. apply (bitCapInt_holds_toFactor noFit 589). lia. Defined.

Lemma primeDict_contains (primeBits lo hi : Z) :
  primeDict primeBits = Some (lo, hi) ->
  lo <= 2 ^ (primeBits - 1) /\ 2 ^ primeBits - 1 <= hi /\ 2 <= primeBits <= 62.
Proof.
  unfold primeDict.
  repeat match goal with
         | |- context [if ?b =? ?c then _ else _] => destruct (Z.eqb_spec b c) as [-> | ?]
         end; intros [= <- <-]; cbn; lia.
Qed.

(** X17. In semiprime mode the bounds [fullMinBase] and [fullMaxBase]
    exist exactly for [primeBits = (qubitCount + 1) >> 1] from 2 to 62
    (outside, a shift of [1ULL] has a count of 64 or more), and then every
    number of [primeBits] bits lies between them, whether they come from
    [primeDict] or from the shifts. *)
Theorem semiprimeBounds_hold_primeBits (qubitCount : Z) :
  0 <= qubitCount < 2 ^ 32 ->
  (semiprimeBounds qubitCount = None <-> qubitCount < 3 \/ 124 < qubitCount)
  /\ forall fullMinBase fullMaxBase,
       semiprimeBounds qubitCount = Some (fullMinBase, fullMaxBase) ->
       forall x, 2 ^ (Z.shiftr (qubitCount + 1) 1 - 1) <= x < 2 ^ Z.shiftr (qubitCount + 1) 1 ->
         fullMinBase <= x <= fullMaxBase.
Proof.
  intros Hq. unfold semiprimeBounds.
  rewrite Z.shiftr_div_pow2 by lia. change (2 ^ 1) with 2.
  set (primeBits := (qubitCount + 1) / 2).
  assert (Hpb : 0 <= primeBits <= 2 ^ 31 /\ 2 * primeBits <= qubitCount + 1 < 2 * primeBits + 2).
  { unfold primeBits. pose proof (Z.div_mod (qubitCount + 1) 2 ltac:(lia)).
    pose proof (Z.mod_pos_bound (qubitCount + 1) 2 ltac:(lia)). lia. }
  rewrite (Z.mod_small primeBits) by lia.
  destruct (primeDict primeBits) as [[lo hi] |] eqn:Hdict.
  - apply primeDict_contains in Hdict. split.
    + split; [discriminate | lia].
    + intros a b [= <- <-] x Hx. lia.
  - destruct (Z.le_gt_cases 2 primeBits) as [H2 | H2].
    + rewrite (Z.mod_small (primeBits - 2)), (Z.mod_small (primeBits + 1)) by lia.
      destruct (Z.ltb_spec (primeBits - 2) 64) as [Hlo | Hlo];
        destruct (Z.ltb_spec (primeBits + 1) 64) as [Hhi | Hhi]; cbn [andb];
        try (split; [split; [lia | reflexivity] | discriminate]).
      split; [split; [discriminate | lia] |].
      intros a b [= <- <-] x Hx.
      rewrite !Z.shiftl_1_l.
      assert (Hpow : 2 ^ (primeBits + 1) < 2 ^ 64) by (apply Z.pow_lt_mono_r; lia).
      rewrite Z.mod_small by (split; [apply Z.pow_nonneg |]; lia).
      assert (E1 : 2 ^ (primeBits + 1) = 2 * 2 ^ primeBits)
        by (rewrite Z.pow_add_r by lia; lia).
      assert (E2 : 2 ^ (primeBits - 1) = 2 ^ (primeBits - 2) + 2 ^ (primeBits - 2)).
      { replace (primeBits - 1) with (primeBits - 2 + 1) by lia.
        rewrite Z.pow_add_r by lia. lia. }
      assert (Hp : 0 < 2 ^ (primeBits - 2)) by (apply Z.pow_pos_nonneg; lia).
      assert (Hlor : Z.lor (2 ^ (primeBits - 2)) 1 <= 2 ^ (primeBits - 2) + 1).
      { rewrite <- Z.add_lor_land.
        pose proof (Z.land_nonneg (2 ^ (primeBits - 2)) 1). lia. }
      lia.
    + replace ((primeBits - 2) mod 2 ^ 32) with (primeBits - 2 + 2 ^ 32).
      2:{ apply Z.mod_unique with (-1); lia. }
      destruct (Z.ltb_spec (primeBits - 2 + 2 ^ 32) 64); [lia |]. cbn [andb].
      split; [split; [lia | reflexivity] | discriminate].
Qed.

Lemma semiprimeBounds_hold_primeBits_witness :
  (semiprimeBounds 10 = None <-> 10 < 3 \/ 124 < 10)
  /\ forall fullMinBase fullMaxBase,
       semiprimeBounds 10 = Some (fullMinBase, fullMaxBase) ->
       forall x, 2 ^ (Z.shiftr (10 + 1) 1 - 1) <= x < 2 ^ Z.shiftr (10 + 1) 1 ->
         fullMinBase <= x <= fullMaxBase.
Proof. apply (semiprimeBounds_hold_primeBits 10). lia. Defined.

(** ** The distributed engine: candidates are odd *)

Section OddCandidates.
Variable w : Z.
Hypothesis w_pos : 0 < w.

Lemma odd_wrap (x : Z) : Z.odd (wrap w x) = Z.odd x.
Proof.
  unfold wrap. rewrite Z.mod_eq by (apply Z.pow_nonzero; lia).
  replace w with (Z.succ (w - 1)) at 1 by lia. rewrite Z.pow_succ_r by lia.
  replace (x - 2 * 2 ^ (w - 1) * (x / 2 ^ w))
    with (x + 2 * (- 2 ^ (w - 1) * (x / 2 ^ w))) by lia.
  apply Z.odd_add_mul_2.
Qed.

Lemma odd_lor_1 (x : Z) : Z.odd (Z.lor x 1) = true.
Proof. rewrite <- Z.bit0_odd, Z.lor_spec. apply orb_true_r. Qed.

Lemma odd_land_NOT_1U (x : Z) : Z.odd (Z.land x NOT_1U) = false.
Proof. rewrite <- Z.bit0_odd, Z.land_spec. apply andb_false_r. Qed.

Lemma threadBounds_odd (TRIAL_DIVISION_LEVEL nodeMin threadRange cpu : Z) :
  Z.odd (fst (threadBounds w TRIAL_DIVISION_LEVEL nodeMin threadRange cpu)) = true.
Proof.
  unfold threadBounds. cbn [fst]. unfold uadd at 1.
  rewrite odd_wrap, Z.odd_add, odd_lor_1. reflexivity.
Qed.

Lemma excludeSmall_odd (threadMin base : Z) :
  Z.odd threadMin = true -> Z.odd (excludeSmall w threadMin base) = true.
Proof.
  intros Hodd. unfold excludeSmall. unfold uadd at 1.
  rewrite odd_wrap, Z.odd_add, odd_land_NOT_1U, Hodd. reflexivity.
Qed.

(** X18. Every thread of [mainBody] gets an odd [threadMin], and every
    candidate base a worker tries is odd, whatever the node, the thread,
    the range and the words drawn, and also when the arithmetic wraps.  So
    a worker never tries a base of 0: [toFactor % base] never divides by
    zero. *)
Theorem worker_candidates_odd
    (TRIAL_DIVISION_LEVEL fullMinBase fullMaxBase nodeCount nodeId cpuCount cpu : Z)
    (toFactor : Z) (draws : list Z) (base : Z) :
  let k := mainBody w TRIAL_DIVISION_LEVEL fullMinBase fullMaxBase
             nodeCount nodeId cpuCount cpu in
  candidate w k draws = Some base ->
  Z.odd (threadMin k) = true /\ Z.odd base = true
  /\ tryBase toFactor base <> DivisionByZero.
Proof.
  intros k.
  assert (Hmin : Z.odd (threadMin k) = true).
  { unfold k, mainBody. cbv zeta.
    match goal with
    | |- context [threadBounds w ?L ?nodeMin ?threadRange ?c] =>
        pose proof (threadBounds_odd L nodeMin threadRange c) as H;
        destruct (threadBounds w L nodeMin threadRange c) as [tMin tMax]
    end.
    exact H. }
  clearbody k. unfold candidate.
  destruct (baseDist w (wordBits (range k)) (range k)) as [bounds WORD_SIZE].
  destruct (rawBase w WORD_SIZE draws) as [raw |]; [| discriminate].
  intros [= <-].
  pose proof (excludeSmall_odd (threadMin k) (excludePrimes w (primeIndex k) raw) Hmin)
    as Hodd.
  split; [assumption |]. split; [assumption |].
  unfold tryBase.
  destruct (Z.eqb_spec (excludeSmall w (threadMin k) (excludePrimes w (primeIndex k) raw)) 0)
    as [E | E].
  - rewrite E in Hodd. cbn in Hodd. discriminate.
  - destruct (_ =? 0); discriminate.
Qed.
End OddCandidates.

Lemma worker_candidates_odd_witness :
  Z.odd (threadMin (mainBody 64 59 16411 131071 1 0 3 0)) = true
  /\ Z.odd 57305 = true /\ tryBase 1075592459 57305 <> DivisionByZero.
Proof.
  apply (worker_candidates_odd 64 ltac:(lia) 59 16411 131071 1 0 3 0 1075592459 [5414] 57305).
  vm_compute. reflexivity.
Defined.

(** ** The distributed engine: stopping the threads *)

Section ShutdownFacts.
Variable toFactor : Z.

Lemma exec_cons (s : run) (ev : nat * Z) (schedule : list (nat * Z)) :
  exec toFactor s (ev :: schedule)
  = exec toFactor (step toFactor s (fst ev) (snd ev)) schedule.
Proof. reflexivity. Qed.

Lemma step_flag_kept (s : run) (cpu : nat) (base : Z) :
  isFinished s = true -> isFinished (step toFactor s cpu base) = true.
Proof.
  intros Hflag. unfold step.
  destruct (threads s !! cpu) as [[batchItem | f1 f2 |] |]; try assumption.
  destruct (batchItem <? BASE_TRIALS).
  - destruct (tryBase toFactor base); try assumption; reflexivity.
  - rewrite Hflag. reflexivity.
Qed.

Lemma exec_flag_kept (schedule : list (nat * Z)) :
  forall s, isFinished s = true -> isFinished (exec toFactor s schedule) = true.
Proof.
  induction schedule as [| ev schedule IH]; intros s Hflag; [assumption |].
  rewrite exec_cons. apply IH. now apply step_flag_kept.
Qed.

Lemma step_other_thread (s : run) (cpu cpu' : nat) (base : Z) :
  cpu <> cpu' -> threads (step toFactor s cpu' base) !! cpu = threads s !! cpu.
Proof.
  intros Hne. unfold step.
  destruct (threads s !! cpu') as [[batchItem | f1 f2 |] |]; try reflexivity.
  - destruct (batchItem <? BASE_TRIALS).
    + destruct (tryBase toFactor base); try reflexivity;
        cbn [threads]; now apply list_lookup_insert_ne.
    + destruct (isFinished s); cbn [threads]; now apply list_lookup_insert_ne.
  - cbn [threads]. now apply list_lookup_insert_ne.
Qed.

Lemma step_orderly (s : run) (cpu : nat) (base : Z) :
  Shutdown.orderly s -> Shutdown.orderly (step toFactor s cpu base).
Proof.
  intros [Hrange Hret Hrep]. unfold step.
  destruct (threads s !! cpu) as [t0 |] eqn:Hcpu; [| constructor; assumption].
  assert (Hlen : (cpu < length (threads s))%nat) by (eapply lookup_lt_Some; eauto).
  assert (Hmove : forall flag t,
            (forall batchItem, t = Running batchItem -> 0 <= batchItem <= BASE_TRIALS) ->
            (flag = true \/ (flag = isFinished s /\ exists batchItem, t = Running batchItem)) ->
            Shutdown.orderly (mkRun flag (<[cpu := t]> (threads s)) (printed s))).
  { intros flag t Ht Hflag.
    assert (Hkeep : isFinished s = true -> flag = true)
      by (destruct Hflag as [-> | [-> _]]; auto).
    constructor; cbn [threads isFinished].
    - intros cpu' batchItem H. apply list_lookup_insert_Some in H.
      destruct H as [(_ & E & _) | (_ & H)]; eauto.
    - intros cpu' H. apply list_lookup_insert_Some in H.
      destruct H as [(_ & E & _) | (_ & H)]; [| eauto].
      destruct Hflag as [-> | [_ [batchItem ->]]]; [reflexivity | discriminate].
    - intros cpu' f1 f2 H. apply list_lookup_insert_Some in H.
      destruct H as [(_ & E & _) | (_ & H)]; [| eauto].
      destruct Hflag as [-> | [_ [batchItem ->]]]; [reflexivity | discriminate]. }
  destruct t0 as [batchItem | g1 g2 |]; [| | constructor; assumption].
  - pose proof (Hrange _ _ Hcpu) as Hb.
    destruct (Z.ltb_spec batchItem BASE_TRIALS).
    + destruct (tryBase toFactor base).
      * constructor; assumption.
      * apply Hmove; [intros b [= <-]; lia | right; eauto].
      * apply Hmove; [discriminate | now left].
    + destruct (isFinished s) eqn:Hflag.
      * apply Hmove; [discriminate | now left].
      * apply Hmove; [intros b [= <-]; unfold BASE_TRIALS; lia | right; eauto].
  - pose proof (Hrep _ _ _ Hcpu) as Hflag. rewrite Hflag.
    constructor; cbn [threads isFinished]; try reflexivity.
    intros cpu' batchItem H. apply list_lookup_insert_Some in H.
    destruct H as [(_ & [=] & _) | (_ & H)]. eauto.
Qed.

Lemma exec_orderly (schedule : list (nat * Z)) :
  forall s, Shutdown.orderly s -> Shutdown.orderly (exec toFactor s schedule).
Proof.
  induction schedule as [| ev schedule IH]; intros s Hs; [assumption |].
  rewrite exec_cons. apply IH. now apply step_orderly.
Qed.

Lemma start_orderly (cpuCount : nat) : Shutdown.orderly (start cpuCount).
Proof.
  constructor; cbn [start threads isFinished].
  - intros cpu batchItem H. apply lookup_replicate in H.
    destruct H as [[= E] _]. unfold BASE_TRIALS. lia.
  - intros cpu H. apply lookup_replicate in H. destruct H. discriminate.
  - intros cpu f1 f2 H. apply lookup_replicate in H. destruct H. discriminate.
Qed.

(** With the flag set, a step of a thread on a base other than 0 brings
    it nearer to its return. *)
Lemma step_own_thread (s : run) (cpu : nat) (base : Z) (t : thread) :
  isFinished s = true -> base <> 0 -> threads s !! cpu = Some t ->
  exists t', threads (step toFactor s cpu base) !! cpu = Some t'
             /\ Shutdown.stepsLeft t' <= Z.max 0 (Shutdown.stepsLeft t - 1).
Proof.
  intros Hflag Hbase Hcpu.
  assert (Hlen : (cpu < length (threads s))%nat) by (eapply lookup_lt_Some; eauto).
  unfold step. rewrite Hcpu. destruct t as [batchItem | f1 f2 |].
  - destruct (Z.ltb_spec batchItem BASE_TRIALS).
    + unfold tryBase. destruct (Z.eqb_spec base 0); [contradiction |].
      destruct (_ =? 0); cbn [threads]; rewrite list_lookup_insert_eq by assumption;
        eexists; (split; [reflexivity |]); cbn [Shutdown.stepsLeft]; lia.
    + rewrite Hflag. cbn [threads]. rewrite list_lookup_insert_eq by assumption.
      eexists. split; [reflexivity |]. cbn [Shutdown.stepsLeft]. lia.
  - cbn [threads]. rewrite list_lookup_insert_eq by assumption.
    eexists. split; [reflexivity |]. cbn [Shutdown.stepsLeft]. lia.
  - exists Returned. split; [assumption |]. cbn [Shutdown.stepsLeft]. lia.
Qed.

Lemma stepsLeft_nonneg (t : thread) : 0 <= Shutdown.stepsLeft t.
Proof. destruct t; cbn [Shutdown.stepsLeft]; lia. Qed.

Lemma stepsOf_nonneg (cpu : nat) (schedule : list (nat * Z)) :
  0 <= Shutdown.stepsOf cpu schedule.
Proof.
  induction schedule as [| ev schedule IH]; cbn [Shutdown.stepsOf]; [lia |].
  destruct (Nat.eqb _ _); lia.
Qed.

Lemma exec_stepsLeft (cpu : nat) (schedule : list (nat * Z)) :
  forall s t,
    isFinished s = true -> Forall (fun ev => snd ev <> 0) schedule ->
    threads s !! cpu = Some t ->
    exists t', threads (exec toFactor s schedule) !! cpu = Some t'
               /\ Shutdown.stepsLeft t'
                  <= Z.max 0 (Shutdown.stepsLeft t - Shutdown.stepsOf cpu schedule).
Proof.
  induction schedule as [| [cpu' base] schedule IH]; intros s t Hflag Hbases Hcpu.
  - exists t. split; [assumption |]. cbn [Shutdown.stepsOf].
    pose proof (stepsLeft_nonneg t). lia.
  - rewrite exec_cons. cbn [fst snd Shutdown.stepsOf].
    apply Forall_cons in Hbases. destruct Hbases as [Hbase Hbases]. cbn [snd] in Hbase.
    pose proof (step_flag_kept s cpu' base Hflag) as Hflag'.
    pose proof (stepsOf_nonneg cpu schedule) as Hsteps.
    destruct (Nat.eqb_spec cpu' cpu) as [-> | Hne].
    + destruct (step_own_thread s cpu base t Hflag Hbase Hcpu) as (t1 & Ht1 & Hless).
      destruct (IH _ t1 Hflag' Hbases Ht1) as (t' & Ht' & Hleft).
      exists t'. split; [assumption |]. lia.
    + assert (Ht1 : threads (step toFactor s cpu' base) !! cpu = Some t)
        by (rewrite step_other_thread; [assumption | congruence]).
      destruct (IH _ t Hflag' Hbases Ht1) as (t' & Ht' & Hleft).
      exists t'. split; [assumption |]. lia.
Qed.

(** X19. The flag and the end of the threads.  In every run from the
    start: a thread inside a batch is at an item from 0 to [BASE_TRIALS];
    a thread prints or returns only with the flag set, and the flag once
    set stays set; and once the flag is set, a thread returns within the
    [BASE_TRIALS + 1] steps it makes next (on bases other than 0),
    whatever the other threads do meanwhile: at most one batch of work is
    done after a success. *)
Theorem threads_return_within_a_batch (cpuCount : nat) (schedule : list (nat * Z)) :
  let s := exec toFactor (start cpuCount) schedule in
  Shutdown.orderly s
  /\ (isFinished s = true ->
      forall more,
        isFinished (exec toFactor s more) = true
        /\ forall cpu,
             (cpu < cpuCount)%nat -> Forall (fun ev => snd ev <> 0) more ->
             BASE_TRIALS + 1 <= Shutdown.stepsOf cpu more ->
             threads (exec toFactor s more) !! cpu = Some Returned).
Proof.
  intros s.
  assert (Hs : Shutdown.orderly s) by apply exec_orderly, start_orderly.
  split; [assumption |]. intros Hflag more.
  split; [now apply exec_flag_kept |]. intros cpu Hcpu Hbases Hsteps.
  assert (Hlen : length (threads s) = cpuCount).
  { unfold s. rewrite exec_threads_length. cbn [start threads]. apply length_replicate. }
  destruct (lookup_lt_is_Some_2 (threads s) cpu ltac:(lia)) as [t Ht].
  destruct (exec_stepsLeft cpu more s t Hflag Hbases Ht) as (t' & Ht' & Hleft).
  rewrite Ht'. f_equal.
  assert (Hstart : Shutdown.stepsLeft t <= BASE_TRIALS + 1).
  { destruct t as [batchItem | f1 f2 |]; cbn [Shutdown.stepsLeft];
      [| unfold BASE_TRIALS; lia | unfold BASE_TRIALS; lia].
    pose proof (Shutdown.batchItem_range s Hs _ _ Ht). unfold BASE_TRIALS in *. lia. }
  destruct t' as [batchItem | f1 f2 |]; cbn [Shutdown.stepsLeft] in Hleft;
    [lia | lia | reflexivity].
Qed.
End ShutdownFacts.

Lemma threads_return_within_a_batch_witness :
  threads (exec 1075592459 (exec 1075592459 (start 2) [(0%nat, 30047)])
             (replicate (Z.to_nat (BASE_TRIALS + 1)) (1%nat, 26507))) !! 1%nat
  = Some Returned.
Proof.
  destruct (threads_return_within_a_batch 1075592459 2 [(0%nat, 30047)]) as [_ H].
  apply (H eq_refl); [lia | | vm_compute; discriminate].
  apply Forall_replicate. discriminate.
Defined.

(** ** The distributed engine: the walks over the prime table *)

Section PrimeWalkFacts.
Variable body : Z -> Z -> Z.
Variable TRIAL_DIVISION_LEVEL : Z.

(** Where the walk stops: every prime before the index it ends at is
    within the level, and the prime at that index, if any, is above it. *)
Lemma primeWalk_stop (fuel : nat) :
  forall currentPrime primeIndex acc,
    currentPrime = nth primeIndex trialDivisionPrimes 0 ->
    (primeIndex < length trialDivisionPrimes <= primeIndex + fuel)%nat ->
    (forall j, (j < primeIndex)%nat -> nth j trialDivisionPrimes 0 <= TRIAL_DIVISION_LEVEL) ->
    let i := snd (fst (primeWalk body TRIAL_DIVISION_LEVEL fuel currentPrime primeIndex acc)) in
    (i <= length trialDivisionPrimes)%nat
    /\ (forall j, (j < i)%nat -> nth j trialDivisionPrimes 0 <= TRIAL_DIVISION_LEVEL)
    /\ ((i < length trialDivisionPrimes)%nat ->
        TRIAL_DIVISION_LEVEL < nth i trialDivisionPrimes 0).
Proof.
  induction fuel as [| fuel IH]; intros currentPrime primeIndex acc Hcur Hidx Hbefore;
    [lia |].
  cbn [primeWalk].
  destruct (Z.leb_spec currentPrime TRIAL_DIVISION_LEVEL) as [Hle | Hgt].
  - assert (Hbefore' : forall j, (j < S primeIndex)%nat ->
                         nth j trialDivisionPrimes 0 <= TRIAL_DIVISION_LEVEL).
    { intros j Hj. destruct (Nat.eq_dec j primeIndex) as [-> | Hne];
        [now rewrite <- Hcur | apply Hbefore; lia]. }
    destruct (Nat.leb_spec (length trialDivisionPrimes) (S primeIndex)) as [Hend | Hmore].
    + cbn [fst snd]. split; [lia |]. split; [assumption | lia].
    + apply IH; [reflexivity | lia | assumption].
  - cbn [fst snd]. split; [lia |]. split; [assumption |]. intros _. now rewrite <- Hcur.
Qed.
End PrimeWalkFacts.

Lemma trialDivisionPrimes_last :
  length trialDivisionPrimes = 1000%nat /\ nth 999 trialDivisionPrimes 0 = 7919.
Proof. vm_compute. split; reflexivity. Qed.

(** X20. The [primeIndex] the workers capture is the index of the first
    prime of the table above the trial-division level, every prime before
    it being within the level; from a level of 7919 on, the last prime of
    the table, it is the last index.  So the loop of the worker that runs
    from [primeIndex] down to 3 also takes the first prime above the
    level. *)
Theorem primeIndex_first_above_level (w TRIAL_DIVISION_LEVEL : Z) :
  let i := primeIndexOf w TRIAL_DIVISION_LEVEL in
  (i < length trialDivisionPrimes)%nat
  /\ (forall j, (j < i)%nat -> nth j trialDivisionPrimes 0 <= TRIAL_DIVISION_LEVEL)
  /\ (TRIAL_DIVISION_LEVEL < 7919 -> TRIAL_DIVISION_LEVEL < nth i trialDivisionPrimes 0)
  /\ (7919 <= TRIAL_DIVISION_LEVEL -> i = 999%nat).
Proof.
  destruct trialDivisionPrimes_last as [Hlen Hlast].
  unfold primeIndexOf, walkPrimes.
  destruct (primeWalk_stop (shrinkStep w) TRIAL_DIVISION_LEVEL (length trialDivisionPrimes)
              2 0 0 eq_refl ltac:(rewrite Hlen; lia) ltac:(intros j Hj; lia))
    as (Hle & Hbefore & Hstop).
  set (i := snd (fst (primeWalk (shrinkStep w) TRIAL_DIVISION_LEVEL
                        (length trialDivisionPrimes) 2 0 0))) in *.
  clearbody i. unfold clampIndex. rewrite Hlen in *.
  destruct (Nat.leb_spec 1000 i) as [Hend | Hin]; cbv zeta.
  - assert (i = 1000%nat) as -> by lia.
    pose proof (Hbefore 999%nat ltac:(lia)) as H999. rewrite Hlast in H999.
    split; [lia |]. split; [intros j Hj; apply Hbefore; lia |].
    split; [lia | reflexivity].
  - split; [assumption |]. split; [assumption |]. split; [auto |].
    intros Hbig. specialize (Hstop Hin).
    assert (Hmax : forallb (fun p => p <=? 7919) trialDivisionPrimes = true)
      by (vm_compute; reflexivity).
    rewrite forallb_forall in Hmax.
    assert (Hp : nth i trialDivisionPrimes 0 <= 7919).
    { apply Z.leb_le, Hmax, nth_In. rewrite Hlen. assumption. }
    lia.
Qed.

Lemma lor_1_value (a : Z) : Z.lor a 1 = a + 1 - a mod 2.
Proof.
  pose proof (Z.add_lor_land a 1) as H.
  assert (E : Z.land a 1 = a mod 2).
  { change (Z.land a 1) with (Z.land a (Z.ones 1)). now rewrite Z.land_ones by lia. }
  lia.
Qed.

Section Alignment.
Variable w : Z.
Hypothesis w_pos : 0 < w.
Variable TRIAL_DIVISION_LEVEL : Z.

(** The loop that aligns [threadMin] only rounds it down. *)
Lemma align_le (threadMin : Z) :
  0 <= threadMin < 2 ^ w ->
  0 <= snd (walkPrimes (alignStep w) TRIAL_DIVISION_LEVEL threadMin) <= threadMin.
Proof.
  intros Ht. unfold walkPrimes.
  apply (primeWalk_invariant (alignStep w) TRIAL_DIVISION_LEVEL
           (fun acc => 0 <= acc <= threadMin)); [| lia | lia].
  intros p acc Hp Hacc. unfold alignStep, umul.
  destruct (Z.eq_dec p 0) as [-> | Hne].
  - rewrite Z.mul_0_r. unfold wrap. rewrite Z.mod_0_l by (apply Z.pow_nonzero; lia). lia.
  - pose proof (Z.mul_div_le acc p ltac:(lia)).
    pose proof (Z.div_pos acc p ltac:(lia) ltac:(lia)).
    rewrite wrap_small by nia. nia.
Qed.

(** X21. The [threadMin] a thread is started with is odd, at least 3 and
    at most 2 above the odd start of its share [(nodeMin + threadRange *
    cpu) | 1]: the alignment loop only rounds down.  With a [threadRange]
    of at least 3 the [range] of the worker therefore does not wrap, and
    is at least [threadRange - 3]; it is more than [threadRange] when the
    alignment has rounded down by more than 3. *)
Theorem threadMin_aligned (nodeMin threadRange cpu : Z) :
  let start := Z.lor (uadd w nodeMin (umul w threadRange cpu)) 1 in
  let bounds := threadBounds w TRIAL_DIVISION_LEVEL nodeMin threadRange cpu in
  start + 2 < 2 ^ w ->
  3 <= fst bounds <= start + 2
  /\ Z.odd (fst bounds) = true
  /\ (3 <= threadRange -> start + threadRange < 2 ^ w ->
      snd bounds = start + threadRange
      /\ workerRange w (fst bounds) (snd bounds) = snd bounds - fst bounds - 1
      /\ threadRange - 3 <= workerRange w (fst bounds) (snd bounds)).
Proof.
  intros start bounds Hfit.
  assert (Hstart : 1 <= start /\ Z.odd start = true).
  { unfold start. split; [| apply odd_lor_1].
    rewrite lor_1_value. unfold uadd.
    pose proof (wrap_range w (nodeMin + umul w threadRange cpu) ltac:(lia)) as Hx.
    revert Hx. generalize (wrap w (nodeMin + umul w threadRange cpu)). intros x Hx.
    pose proof (Z.mod_pos_bound x 2 ltac:(lia)).
    pose proof (Z.div_mod x 2 ltac:(lia)). lia. }
  destruct Hstart as [Hstart Hodd].
  pose proof (align_le start ltac:(lia)) as Halign.
  unfold bounds, threadBounds. cbn [fst snd]. fold start.
  set (aligned := snd (walkPrimes (alignStep w) TRIAL_DIVISION_LEVEL start)) in *.
  clearbody aligned start. clear bounds.
  assert (Hlor : 1 <= Z.lor aligned 1 <= start).
  { rewrite lor_1_value.
    pose proof (Z.mod_pos_bound aligned 2 ltac:(lia)).
    pose proof (Z.div_mod aligned 2 ltac:(lia)).
    destruct (Z.eq_dec (aligned mod 2) 0) as [E | E]; [| lia].
    assert (aligned <> start); [| lia].
    intros ->. rewrite <- Z.bit0_mod, Z.bit0_odd, Hodd in E. discriminate. }
  assert (Hmin : uadd w (Z.lor aligned 1) 2 = Z.lor aligned 1 + 2)
    by (unfold uadd; apply wrap_small; lia).
  rewrite Hmin. split; [lia |]. split.
  - rewrite Z.odd_add, odd_lor_1. reflexivity.
  - intros Hrange Hmax.
    assert (E : uadd w start threadRange = start + threadRange)
      by (unfold uadd; apply wrap_small; lia).
    rewrite E. split; [reflexivity |].
    unfold workerRange, usub, uadd.
    rewrite (wrap_small w (Z.lor aligned 1 + 2 + 1)) by lia.
    rewrite wrap_small by lia. lia.
Qed.
End Alignment.

Lemma threadMin_aligned_witness :
  3 <= fst (threadBounds 64 59 16411 5113 1) <= Z.lor (uadd 64 16411 (umul 64 5113 1)) 1 + 2
  /\ Z.odd (fst (threadBounds 64 59 16411 5113 1)) = true
  /\ (3 <= 5113 -> Z.lor (uadd 64 16411 (umul 64 5113 1)) 1 + 5113 < 2 ^ 64 ->
      snd (threadBounds 64 59 16411 5113 1) = Z.lor (uadd 64 16411 (umul 64 5113 1)) 1 + 5113
      /\ workerRange 64 (fst (threadBounds 64 59 16411 5113 1))
           (snd (threadBounds 64 59 16411 5113 1))
         = snd (threadBounds 64 59 16411 5113 1) - fst (threadBounds 64 59 16411 5113 1) - 1
      /\ 5113 - 3 <= workerRange 64 (fst (threadBounds 64 59 16411 5113 1))
                       (snd (threadBounds 64 59 16411 5113 1))).
Proof.
  apply (threadMin_aligned 64 ltac:(lia) 59 16411 5113 1). vm_compute. reflexivity.
Defined.

(** * The prime generator *)

(** ** [forward] and [backward] *)

Section Wheel.
Variable w : Z.
Hypothesis w_pos : 0 < w.

(** [forward] without wrap-around. *)
Lemma forward_value (p : Z) :
  1 <= p -> 3 * p < 2 ^ w ->
  PrimeGenerator.forward w p = PrimeGenerator.wheel p.
Proof.
  intros Hp Hfit. unfold PrimeGenerator.forward, PrimeGenerator.wheel, usub, ushl, uadd.
  rewrite Z.shiftr_div_pow2, Z.shiftl_mul_pow2 by lia. change (2 ^ 1) with 2.
  pose proof (Z.div_mod p 2 ltac:(lia)) as Hdm.
  pose proof (Z.mod_pos_bound p 2 ltac:(lia)) as Hm.
  rewrite (wrap_small w (p + p / 2)) by lia.
  rewrite (wrap_small w ((p + p / 2) * 2)) by lia.
  rewrite wrap_small by lia. lia.
Qed.

Lemma backward_value (ni : Z) :
  0 <= ni -> ni + 3 < 2 ^ w ->
  PrimeGenerator.backward w ni = ((ni + 1) / 2 + 1) * 2 / 3.
Proof.
  intros Hn Hfit. unfold PrimeGenerator.backward, ushl, uadd.
  rewrite Z.shiftr_div_pow2, Z.shiftl_mul_pow2 by lia. change (2 ^ 1) with 2.
  pose proof (Z.div_mod (ni + 1) 2 ltac:(lia)) as Hdm.
  pose proof (Z.mod_pos_bound (ni + 1) 2 ltac:(lia)) as Hm.
  rewrite (wrap_small w (ni + 1)) by lia.
  rewrite (wrap_small w ((ni + 1) / 2 + 1)) by lia.
  rewrite wrap_small by lia. reflexivity.
Qed.

(** X22. Without wrap-around ([3 * p] within the width), [forward] maps
    the numbers from 1 on, in increasing order, onto the numbers that are
    multiples neither of 2 nor of 3, and [backward] is its inverse.  On 0,
    [forward] wraps to the largest [BigInteger]. *)
Theorem forward_backward (p : Z) :
  1 <= p -> 3 * p + 3 < 2 ^ w ->
  let x := PrimeGenerator.forward w p in
  x mod 2 = 1 /\ x mod 3 <> 0
  /\ PrimeGenerator.backward w x = p
  /\ x < PrimeGenerator.forward w (p + 1)
  /\ (forall y, x < y < PrimeGenerator.forward w (p + 1) -> y mod 2 = 0 \/ y mod 3 = 0)
  /\ (forall y, 1 <= y <= x -> y mod 2 = 1 -> y mod 3 <> 0 ->
      PrimeGenerator.forward w (PrimeGenerator.backward w y) = y)
  /\ PrimeGenerator.forward w 0 = 2 ^ w - 1.
Proof.
  intros Hp Hfit x.
  assert (Hx : x = 3 * p - 1 - p mod 2) by (apply forward_value; lia).
  assert (Hx' : PrimeGenerator.forward w (p + 1) = 3 * (p + 1) - 1 - (p + 1) mod 2)
    by (apply forward_value; lia).
  clearbody x. rewrite Hx'. clear Hx'.
  assert (Hback : forall y, 1 <= y <= x -> y mod 2 = 1 -> y mod 3 <> 0 ->
            PrimeGenerator.backward w y = (y + 2) / 3
            /\ 3 * ((y + 2) / 3) - 1 - ((y + 2) / 3) mod 2 = y).
  { intros y Hy H2 H3. rewrite backward_value by (Z.div_mod_to_equations; lia).
    split; Z.div_mod_to_equations; lia. }
  split; [Z.div_mod_to_equations; lia |].
  split; [Z.div_mod_to_equations; lia |].
  split.
  { destruct (Hback x) as [-> _]; Z.div_mod_to_equations; lia. }
  split; [Z.div_mod_to_equations; lia |].
  split; [intros y Hy; Z.div_mod_to_equations; lia |].
  split.
  - intros y Hy H2 H3. destruct (Hback y Hy H2 H3) as [-> E].
    rewrite forward_value by (Z.div_mod_to_equations; lia). exact E.
  - assert (Hpow : 1 < 2 ^ w) by (apply (Z.pow_gt_1 2 w); lia).
    unfold PrimeGenerator.forward, usub, ushl, uadd.
    change (0 + Z.shiftr 0 1) with 0. rewrite (wrap_small w 0) by lia.
    change (Z.shiftl 0 1) with 0. rewrite (wrap_small w 0) by lia.
    unfold wrap. symmetry. apply Z.mod_unique with (-1); lia.
Qed.
End Wheel.

Lemma forward_backward_witness :
  PrimeGenerator.forward 64 13 mod 2 = 1 /\ PrimeGenerator.forward 64 13 mod 3 <> 0
  /\ PrimeGenerator.backward 64 (PrimeGenerator.forward 64 13) = 13
  /\ PrimeGenerator.forward 64 13 < PrimeGenerator.forward 64 (13 + 1)
  /\ (forall y, PrimeGenerator.forward 64 13 < y < PrimeGenerator.forward 64 (13 + 1) ->
      y mod 2 = 0 \/ y mod 3 = 0)
  /\ (forall y, 1 <= y <= PrimeGenerator.forward 64 13 -> y mod 2 = 1 -> y mod 3 <> 0 ->
      PrimeGenerator.forward 64 (PrimeGenerator.backward 64 y) = y)
  /\ PrimeGenerator.forward 64 0 = 2 ^ 64 - 1.
Proof. apply (forward_backward 64 ltac:(lia) 13); lia. Defined.

(** ** [sqrt] *)

Section Sqrt.
Variable w : Z.
Hypothesis w_pos : 0 < w.

Lemma sqrtLoop_floor (toTest : Z) :
  toTest + 1 < 2 ^ w -> (toTest / 2) * (toTest / 2) < 2 ^ w ->
  forall fuel start end_ ans,
    1 <= start <= end_ -> end_ <= toTest / 2 -> ans = start - 1 ->
    ans * ans <= toTest < (end_ + 1) * (end_ + 1) ->
    (Z.to_nat (end_ - start) < fuel)%nat ->
    PrimeGenerator.sqrtLoop w fuel toTest start end_ ans = Some (Z.sqrt toTest).
Proof.
  intros Hfit Hsq. induction fuel as [| fuel IH];
    intros start end_ ans Hse Hend -> Hinv Hfuel; [lia |].
  cbn [PrimeGenerator.sqrtLoop]. unfold uadd, umul, usub.
  assert (Hhalf : 0 <= toTest / 2 /\ 2 * (toTest / 2) <= toTest)
    by (Z.div_mod_to_equations; lia).
  rewrite (wrap_small w (start + end_)) by lia.
  rewrite Z.shiftr_div_pow2 by lia. change (2 ^ 1) with 2.
  set (mid := (start + end_) / 2).
  assert (Hmid : start <= mid <= end_) by (unfold mid; Z.div_mod_to_equations; lia).
  clearbody mid.
  rewrite (wrap_small w (mid * mid)) by nia.
  destruct (Z.eqb_spec (mid * mid) toTest) as [E | E].
  - f_equal. rewrite <- E. symmetry. apply Z.sqrt_square. lia.
  - destruct (Z.ltb_spec (mid * mid) toTest) as [Hlt | Hge].
    + rewrite (wrap_small w (mid + 1)) by lia.
      destruct (Z.leb_spec (mid + 1) end_) as [Hmore | Hdone].
      * apply IH; [lia | lia | lia | | lia].
        replace (mid + 1 - 1) with mid by lia. lia.
      * f_equal. symmetry. apply Z.sqrt_unique.
        assert (mid = end_) by lia. subst mid. unfold Z.succ. lia.
    + rewrite (wrap_small w (mid - 1)) by lia.
      destruct (Z.leb_spec start (mid - 1)) as [Hmore | Hdone].
      * apply IH; [lia | lia | reflexivity | | lia].
        replace (mid - 1 + 1) with mid by lia. lia.
      * f_equal. symmetry. apply Z.sqrt_unique.
        assert (mid = start) by lia. subst mid. unfold Z.succ.
        replace (start - 1 + 1) with start by lia. lia.
Qed.

Lemma sqrt_value (fuel : nat) (toTest : Z) :
  2 <= toTest -> toTest + 1 < 2 ^ w -> (toTest / 2) * (toTest / 2) < 2 ^ w ->
  (Z.to_nat (toTest / 2) <= fuel)%nat ->
  PrimeGenerator.sqrt w fuel toTest = Some (Z.sqrt toTest).
Proof.
  intros H2 Hfit Hsq Hfuel.
  unfold PrimeGenerator.sqrt. rewrite Z.shiftr_div_pow2 by lia. change (2 ^ 1) with 2.
  assert (Hhalf : 1 <= toTest / 2 /\ toTest <= 2 * (toTest / 2) + 1)
    by (Z.div_mod_to_equations; lia).
  apply sqrtLoop_floor; lia.
Qed.

(** X23. [sqrt] is the floor of the square root on 0 and from 2 on, as
    long as the square of half its argument is within the width; its loop
    ends within [toTest / 2] turns.  On 1 it returns 0. *)
Theorem sqrt_floor (fuel : nat) (toTest : Z) :
  2 <= toTest -> toTest + 1 < 2 ^ w -> (toTest / 2) * (toTest / 2) < 2 ^ w ->
  (Z.to_nat (toTest / 2) <= fuel)%nat ->
  PrimeGenerator.sqrt w fuel toTest = Some (Z.sqrt toTest)
  /\ Z.sqrt toTest * Z.sqrt toTest <= toTest < (Z.sqrt toTest + 1) * (Z.sqrt toTest + 1)
  /\ PrimeGenerator.sqrt w (S fuel) 0 = Some 0
  /\ PrimeGenerator.sqrt w (S fuel) 1 = Some 0.
Proof.
  intros H2 Hfit Hsq Hfuel.
  assert (Hpow : 1 < 2 ^ w) by (apply (Z.pow_gt_1 2 w); lia).
  split; [| split; [| split]].
  - unfold PrimeGenerator.sqrt. rewrite Z.shiftr_div_pow2 by lia. change (2 ^ 1) with 2.
    assert (Hhalf : 1 <= toTest / 2 /\ toTest <= 2 * (toTest / 2) + 1)
      by (Z.div_mod_to_equations; lia).
    apply sqrtLoop_floor; lia.
  - pose proof (Z.sqrt_spec toTest ltac:(lia)) as H. unfold Z.succ in H. lia.
  - unfold PrimeGenerator.sqrt. cbn [PrimeGenerator.sqrtLoop].
    change (Z.shiftr 0 1) with 0. unfold uadd, umul.
    rewrite (wrap_small w (1 + 0)) by lia. change (Z.shiftr (1 + 0) 1) with 0.
    rewrite (wrap_small w (0 * 0)) by lia. reflexivity.
  - unfold PrimeGenerator.sqrt. cbn [PrimeGenerator.sqrtLoop].
    change (Z.shiftr 1 1) with 0. unfold uadd, umul.
    rewrite (wrap_small w (1 + 0)) by lia. change (Z.shiftr (1 + 0) 1) with 0.
    rewrite (wrap_small w (0 * 0)) by lia. rewrite (wrap_small w (0 + 1)) by lia.
    reflexivity.
Qed.
End Sqrt.

Lemma sqrt_floor_witness :
  PrimeGenerator.sqrt 64 5 10 = Some (Z.sqrt 10)
  /\ Z.sqrt 10 * Z.sqrt 10 <= 10 < (Z.sqrt 10 + 1) * (Z.sqrt 10 + 1)
  /\ PrimeGenerator.sqrt 64 6 0 = Some 0
  /\ PrimeGenerator.sqrt 64 6 1 = Some 0.
Proof. apply (sqrt_floor 64 ltac:(lia) 5 10); [lia | lia | reflexivity | vm_compute; lia]. Defined.

(** ** Trial division *)

Lemma prime_or_not (p : Z) : {Z.prime p} + {~ Z.prime p}.
Proof.
  destruct (prime_dec p) as [H | H]; [left | right]; now rewrite prime_alt.
Qed.

Lemma proper_divisor_not_prime (d x : Z) : 1 < d < x -> (d | x) -> ~ Z.prime x.
Proof. intros Hd Hdiv [_ Hp]. now apply (Hp d). Qed.

Lemma not_prime_proper_divisor (n : Z) :
  1 < n -> ~ Z.prime n -> exists m, 1 < m < n /\ (m | n).
Proof.
  intros Hn Hnot. apply not_prime_divide; [assumption |]. now rewrite <- prime_alt.
Qed.

(** A number that is not prime has a prime divisor up to its root. *)
Lemma small_prime_divisor (n : Z) :
  1 < n -> ~ Z.prime n -> exists q, Z.prime q /\ (q | n) /\ q * q <= n.
Proof.
  induction n as [n IH] using (well_founded_induction (Z.lt_wf 0)). intros Hn Hnot.
  destruct (not_prime_proper_divisor n Hn Hnot) as (m & Hm & k & Hk).
  assert (Hkpos : 1 < k < n) by nia.
  assert (Hsmall : exists a, 1 < a < n /\ (a | n) /\ a * a <= n).
  { destruct (Z.le_gt_cases m k).
    - exists m. split; [lia |]. split; [exists k; lia | nia].
    - exists k. split; [lia |]. split; [exists m; lia | nia]. }
  destruct Hsmall as (a & Ha & Hdiv & Hsq).
  destruct (prime_or_not a) as [Hp | Hp].
  - exists a. auto.
  - destruct (IH a ltac:(lia) ltac:(lia) Hp) as (q & Hq & Hqa & Hqsq).
    exists q. split; [assumption |]. split; [eapply Z.divide_trans; eauto | lia].
Qed.

(** Primality of a number by running through the divisors. *)
Lemma prime_by_trial (p : Z) :
  1 < p ->
  forallb (fun k => negb (p mod Z.of_nat k =? 0)) (seq 2 (Z.to_nat p - 2)) = true ->
  Z.prime p.
Proof.
  intros Hp Hall. split; [assumption |]. intros n Hn Hdiv.
  rewrite forallb_forall in Hall.
  specialize (Hall (Z.to_nat n)). rewrite Z2Nat.id in Hall by lia.
  apply Z.mod_divide in Hdiv; [| lia]. rewrite Hdiv in Hall.
  cbn in Hall. assert (true <> false) as Hne by discriminate. apply Hne.
  symmetry. apply Hall. apply in_seq. lia.
Qed.

Lemma prime_5 : Z.prime 5.
Proof. apply prime_by_trial; [lia | reflexivity]. Qed.

(** In an increasing list of integers an element is at least its index
    above a lower bound of the list. *)
Lemma sorted_lookup_ge (l : list Z) :
  StronglySorted Z.lt l ->
  forall a, (forall x, In x l -> a <= x) ->
  forall (j : nat) k, l !! j = Some k -> a + Z.of_nat j <= k.
Proof.
  induction 1 as [| x l Hs IH Hx]; intros a Ha j k Hj; [discriminate |].
  destruct j as [| j].
  - injection Hj as <-. specialize (Ha x (or_introl eq_refl)). lia.
  - cbn in Hj. rewrite List.Forall_forall in Hx.
    specialize (IH (a + 1)). 
    assert (Hl : forall y, In y l -> a + 1 <= y).
    { intros y Hy. specialize (Hx y Hy). specialize (Ha x (or_introl eq_refl)). lia. }
    specialize (IH Hl j k Hj). lia.
Qed.

(** The loop of [isTimeMultiple]: it answers, with a divisor among the
    known primes when the answer is yes, and with no divisor among those
    whose index is up to the root when the answer is no. *)
Lemma timeScan_spec (p sqrtP : Z) (knownPrimes : list Z) :
  forall i : nat,
    (forall k, In k knownPrimes -> k <> 0) ->
    exists b, PrimeGenerator.timeScan p sqrtP i knownPrimes = Shor.Returns b
      /\ (b = true -> exists k, In k knownPrimes /\ (k | p))
      /\ (b = false -> forall (j : nat) k,
            knownPrimes !! j = Some k -> Z.of_nat (i + j) <= sqrtP -> ~ (k | p)).
Proof.
  induction knownPrimes as [| k0 rest IH]; intros i Hnz; cbn [PrimeGenerator.timeScan].
  - exists false. split; [reflexivity |]. split; [discriminate |].
    intros _ j k Hj. discriminate.
  - destruct (Z.ltb_spec sqrtP (Z.of_nat i)) as [Hcut | Hgo].
    + exists false. split; [reflexivity |]. split; [discriminate |].
      intros _ j k _ Hle. lia.
    + destruct (Z.eqb_spec k0 0) as [E | E]; [now apply Hnz in E; [| left] |].
      destruct (Z.eqb_spec (p mod k0) 0) as [Hdiv | Hdiv].
      * exists true. split; [reflexivity |]. split; [| discriminate].
        intros _. exists k0. split; [now left |]. now apply Z.mod_divide.
      * destruct (IH (S i) (fun k Hk => Hnz k (or_intror Hk))) as (b & Hb & Ht & Hf).
        exists b. split; [assumption |]. split.
        -- intros Hbt. destruct (Ht Hbt) as (k & Hk & Hkp). exists k. split; [now right | assumption].
        -- intros Hbf j k Hj Hle. destruct j as [| j].
           ++ injection Hj as <-. intros Hk0. apply Hdiv. now apply Z.mod_divide.
           ++ apply (Hf Hbf j k Hj). lia.
Qed.

Lemma primesUpTo_head (knownPrimes : list Z) (m : Z) :
  PrimeGenerator.primesUpTo knownPrimes m -> 3 <= m ->
  exists rest, knownPrimes = 2 :: 3 :: rest.
Proof.
  intros [Hsorted Hprimes] Hm.
  assert (H2 : In 2 knownPrimes) by (apply Hprimes; split; [apply Z.prime_2 | lia]).
  assert (H3 : In 3 knownPrimes) by (apply Hprimes; split; [apply Z.prime_3 | lia]).
  assert (Hge : forall x, In x knownPrimes -> 2 <= x).
  { intros x Hx. apply Hprimes in Hx. destruct Hx as [Hx _]. now apply Z.prime_ge_2. }
  destruct knownPrimes as [| a [| b rest]]; [destruct H2 | |].
  - destruct H2 as [E2 | []]. destruct H3 as [E3 | []]. lia.
  - apply StronglySorted_inv in Hsorted. destruct Hsorted as [Hsorted Ha].
    apply StronglySorted_inv in Hsorted. destruct Hsorted as [_ Hb].
    rewrite List.Forall_forall in Ha, Hb.
    pose proof (Hge a (or_introl eq_refl)) as Ha2.
    pose proof (Ha b (or_introl eq_refl)) as Hab.
    assert (a = 2) as ->.
    { destruct H2 as [E | H2]; [assumption |]. apply Ha in H2. lia. }
    assert (b = 3) as ->.
    { destruct H3 as [E | [E | H3]]; [lia | assumption |].
      apply Hb in H3. lia. }
    eauto.
Qed.

Lemma primesUpTo_extend (knownPrimes : list Z) (m m' : Z) :
  PrimeGenerator.primesUpTo knownPrimes m -> m <= m' ->
  (forall x, m < x <= m' -> ~ Z.prime x) ->
  PrimeGenerator.primesUpTo knownPrimes m'.
Proof.
  intros [Hsorted Hprimes] Hm Hgap. split; [assumption |].
  intros x. rewrite Hprimes. split; intros [Hp Hx]; (split; [assumption |]); [lia |].
  destruct (Z.le_gt_cases x m); [assumption |]. exfalso. apply (Hgap x); [lia | assumption].
Qed.

Lemma sorted_snoc (l : list Z) (p : Z) :
  StronglySorted Z.lt l -> (forall x, In x l -> x < p) ->
  StronglySorted Z.lt (l ++ [p]).
Proof.
  induction 1 as [| a l Hl IH Ha]; intros Hp; cbn [app].
  - constructor; constructor.
  - constructor.
    + apply IH. intros x Hx. apply Hp. now right.
    + rewrite List.Forall_forall in *. intros x Hx. apply in_app_iff in Hx.
      destruct Hx as [Hx | [<- | []]]; [now apply Ha | apply Hp; now left].
Qed.

Lemma primesUpTo_push (knownPrimes : list Z) (p : Z) :
  PrimeGenerator.primesUpTo knownPrimes (p - 1) -> Z.prime p ->
  PrimeGenerator.primesUpTo (knownPrimes ++ [p]) p.
Proof.
  intros [Hsorted Hprimes] Hp. split.
  - apply sorted_snoc; [assumption |]. intros x Hx. apply Hprimes in Hx. lia.
  - intros x. rewrite in_app_iff, Hprimes. cbn [In]. split.
    + intros [[Hx Hle] | [<- | []]]; (split; [assumption | lia]).
    + intros [Hx Hle]. destruct (Z.eq_dec x p) as [-> | Hne]; [right; now left |].
      left. split; [assumption | lia].
Qed.

Section TrialDivisionFacts.
Variable w : Z.
Hypothesis w_pos : 0 < w.

(** [isTimeMultiple] on a candidate [p] that is a multiple neither of 2
    nor of 3, with all the primes below [p] known: it answers no exactly
    when [p] is prime. *)
Lemma isTimeMultiple_prime (fuel : nat) (p : Z) (knownPrimes : list Z) :
  PrimeGenerator.primesUpTo knownPrimes (p - 1) -> 7 <= p ->
  p mod 2 = 1 -> p mod 3 <> 0 ->
  p + 1 < 2 ^ w -> (p / 2) * (p / 2) < 2 ^ w -> (Z.to_nat (p / 2) <= fuel)%nat ->
  exists b, PrimeGenerator.isTimeMultiple w fuel p knownPrimes = Shor.Returns b
            /\ (b = false <-> Z.prime p).
Proof.
  intros Hknown Hp H2 H3 Hfit Hsq Hfuel.
  unfold PrimeGenerator.isTimeMultiple.
  rewrite (sqrt_value w w_pos fuel p) by lia.
  destruct (primesUpTo_head _ _ Hknown ltac:(lia)) as [rest ->].
  change (drop 2 (2 :: 3 :: rest)) with rest.
  destruct Hknown as [Hsorted Hprimes].
  assert (Hrest : forall k, In k rest -> Z.prime k /\ k <= p - 1).
  { intros k Hk. apply Hprimes. right. right. assumption. }
  destruct (timeScan_spec p (Z.sqrt p) rest 2) as (b & Hb & Ht & Hf).
  { intros k Hk. apply Hrest in Hk. destruct Hk as [Hk _]. apply Z.prime_ge_2 in Hk. lia. }
  exists b. split; [assumption |]. split.
  - intros ->. destruct (prime_or_not p) as [Hprime | Hnot]; [assumption | exfalso].
    destruct (small_prime_divisor p ltac:(lia) Hnot) as (q & Hq & Hqp & Hqsq).
    pose proof (Z.prime_ge_2 q Hq) as Hq2.
    assert (Hq23 : q <> 2 /\ q <> 3).
    { split; intros ->; apply Z.mod_divide in Hqp; lia. }
    assert (Hin : In q (2 :: 3 :: rest)) by (apply Hprimes; split; [assumption | nia]).
    destruct Hin as [E | [E | Hin]]; [lia | lia |].
    apply list_elem_of_In, list_elem_of_lookup in Hin. destruct Hin as [j Hj].
    pose proof (sorted_lookup_ge (2 :: 3 :: rest) Hsorted 2) as Hidx.
    specialize (Hidx ltac:(intros x Hx; apply Hprimes in Hx; destruct Hx as [Hx _];
                             now apply Z.prime_ge_2) (S (S j)) q Hj).
    apply (Hf eq_refl j q Hj); [| assumption].
    assert (q <= Z.sqrt p) by (apply Z.sqrt_le_square; lia). lia.
  - intros Hprime. destruct b; [exfalso | reflexivity].
    destruct (Ht eq_refl) as (k & Hk & Hkp). apply Hrest in Hk. destruct Hk as [Hk Hle].
    apply Z.prime_ge_2 in Hk.
    apply (proper_divisor_not_prime k p); [lia | assumption | assumption].
Qed.
End TrialDivisionFacts.

(** The wheel: what lies between two candidates is a multiple of 2 or of
    3, and the candidates [TrialDivision] leaves out are multiples of
    5. *)
Lemma wheel_bounds (k : Z) :
  3 * k - 2 <= PrimeGenerator.wheel k <= 3 * k - 1
  /\ PrimeGenerator.wheel k mod 2 = 1 /\ PrimeGenerator.wheel k mod 3 <> 0.
Proof. unfold PrimeGenerator.wheel. Z.div_mod_to_equations. lia. Qed.

Lemma wheel_mono (k k' : Z) :
  k <= k' -> PrimeGenerator.wheel k <= PrimeGenerator.wheel k'.
Proof. unfold PrimeGenerator.wheel. intros H. Z.div_mod_to_equations. lia. Qed.

Lemma wheel_gap (k y : Z) :
  PrimeGenerator.wheel k < y < PrimeGenerator.wheel (k + 1) -> y mod 2 = 0 \/ y mod 3 = 0.
Proof. unfold PrimeGenerator.wheel. intros H. Z.div_mod_to_equations. lia. Qed.

Lemma wheel_five (k : Z) :
  k mod 10 = 2 \/ k mod 10 = 9 -> PrimeGenerator.wheel k mod 5 = 0.
Proof. unfold PrimeGenerator.wheel. intros H. Z.div_mod_to_equations. lia. Qed.

Lemma multiple_not_prime (d x : Z) : 1 < d < x -> x mod d = 0 -> ~ Z.prime x.
Proof.
  intros Hd Hmod. apply (proper_divisor_not_prime d x Hd).
  apply Z.mod_divide; [lia | assumption].
Qed.

Lemma gap_not_prime (k y : Z) :
  3 <= k -> PrimeGenerator.wheel k < y < PrimeGenerator.wheel (k + 1) -> ~ Z.prime y.
Proof.
  intros Hk Hy. pose proof (wheel_bounds k) as Hb.
  destruct (wheel_gap k y Hy) as [H | H];
    [apply (multiple_not_prime 2) | apply (multiple_not_prime 3)]; lia || assumption.
Qed.

Lemma next_candidate (k : Z) (knownPrimes : list Z) :
  3 <= k -> PrimeGenerator.primesUpTo knownPrimes (PrimeGenerator.wheel k) ->
  PrimeGenerator.primesUpTo knownPrimes (PrimeGenerator.wheel (k + 1) - 1).
Proof.
  intros Hk Hknown. pose proof (wheel_mono k (k + 1) ltac:(lia)).
  pose proof (wheel_bounds k). pose proof (wheel_bounds (k + 1)).
  apply (primesUpTo_extend _ _ _ Hknown).
  - unfold PrimeGenerator.wheel in *. Z.div_mod_to_equations. lia.
  - intros x Hx. apply (gap_not_prime k x Hk). lia.
Qed.

Lemma skip_candidate (k : Z) (knownPrimes : list Z) :
  3 <= k -> (k + 1) mod 10 = 2 \/ (k + 1) mod 10 = 9 ->
  PrimeGenerator.primesUpTo knownPrimes (PrimeGenerator.wheel k) ->
  PrimeGenerator.primesUpTo knownPrimes (PrimeGenerator.wheel (k + 2) - 1).
Proof.
  intros Hk Hskip Hknown.
  pose proof (wheel_bounds k). pose proof (wheel_bounds (k + 1)).
  pose proof (wheel_bounds (k + 2)).
  apply (primesUpTo_extend _ _ _ Hknown); [lia |].
  intros x Hx.
  destruct (Z.lt_trichotomy x (PrimeGenerator.wheel (k + 1))) as [Hlt | [-> | Hgt]].
  - apply (gap_not_prime k x Hk). lia.
  - apply (multiple_not_prime 5); [lia | now apply wheel_five].
  - apply (gap_not_prime (k + 1) x ltac:(lia)).
    replace (k + 1 + 1) with (k + 2) by lia. lia.
Qed.

Lemma primesUpTo_cut (knownPrimes : list Z) (p n : Z) :
  PrimeGenerator.primesUpTo knownPrimes (p - 1) ->
  Forall (fun x => x <= n) knownPrimes -> n < p ->
  PrimeGenerator.primesUpTo knownPrimes n.
Proof.
  intros [Hsorted Hprimes] Hle Hn. split; [assumption |].
  rewrite List.Forall_forall in Hle.
  intros x. split.
  - intros Hx. split; [now apply Hprimes | now apply Hle].
  - intros [Hx Hxn]. apply Hprimes. split; [assumption | lia].
Qed.

Section TrialDivisionLoops.
Variable w : Z.
Hypothesis w_pos : 0 < w.
Variable n : Z.
Hypothesis n_fits : n + 30 <= 2 ^ w.
Hypothesis n_sqrt : (n / 2) * (n / 2) < 2 ^ w.
Variable fuel : nat.
Hypothesis fuel_enough : (Z.to_nat n <= fuel)%nat.

(** One candidate of a [for] loop: the loop is left if the candidate is
    above [n]; if not, the candidate is pushed exactly when it is
    prime. *)
Lemma forLoop_step (o i : Z) (offsets : list Z) (isWorking : bool)
    (knownPrimes : list Z) :
  0 <= o -> 0 <= i -> 3 <= o + i -> 3 * (o + i) <= n + 29 ->
  PrimeGenerator.primesUpTo knownPrimes (PrimeGenerator.wheel (o + i) - 1) ->
  Forall (fun x => x <= n) knownPrimes ->
  (n < PrimeGenerator.wheel (o + i)
   /\ PrimeGenerator.forLoop w fuel n o (i :: offsets) isWorking knownPrimes
      = Shor.Returns (false, knownPrimes))
  \/ (PrimeGenerator.wheel (o + i) <= n
      /\ exists knownPrimes',
           PrimeGenerator.primesUpTo knownPrimes' (PrimeGenerator.wheel (o + i))
           /\ Forall (fun x => x <= n) knownPrimes'
           /\ PrimeGenerator.forLoop w fuel n o (i :: offsets) isWorking knownPrimes
              = PrimeGenerator.forLoop w fuel n o offsets isWorking knownPrimes').
Proof.
  intros Ho Hi Hk Hfit Hknown Hle. cbn [PrimeGenerator.forLoop]. cbv zeta.
  assert (E : PrimeGenerator.forward w (uadd w o i) = PrimeGenerator.wheel (o + i)).
  { unfold uadd. rewrite (wrap_small w (o + i)) by lia. apply forward_value; lia. }
  rewrite E. clear E.
  pose proof (wheel_bounds (o + i)) as (Hb & Hodd & Hthree).
  set (p := PrimeGenerator.wheel (o + i)) in *. clearbody p.
  destruct (Z.ltb_spec n p) as [Hbreak | Hgo]; [left; auto | right].
  split; [assumption |].
  assert (Hhalf : 0 <= p / 2 <= n / 2 /\ n / 2 <= n) by (Z.div_mod_to_equations; lia).
  destruct (isTimeMultiple_prime w w_pos fuel p knownPrimes Hknown ltac:(lia) Hodd Hthree
              ltac:(lia) ltac:(nia) ltac:(lia)) as (b & -> & Hb').
  destruct b.
  - exists knownPrimes. split; [| split; [assumption | reflexivity]].
    apply (primesUpTo_extend _ _ _ Hknown); [lia |].
    intros x Hx Hprime. assert (x = p) as -> by lia.
    apply Hb' in Hprime. discriminate.
  - exists (knownPrimes ++ [p]). split; [| split; [| reflexivity]].
    + apply primesUpTo_push; [assumption | now apply Hb'].
    + apply Forall_app. split; [assumption |]. constructor; [assumption | constructor].
Qed.

(** A [for] loop over consecutive values of [i] from [a] on. *)
Lemma forLoop_run (o : Z) (isWorking : bool) (offsets : list Z) :
  forall a knownPrimes,
    (forall (j : nat) i, (a :: offsets) !! j = Some i -> i = a + Z.of_nat j) ->
    0 <= o -> 0 <= a -> 3 <= o + a -> 3 * (o + a) <= n + 29 ->
    PrimeGenerator.primesUpTo knownPrimes (PrimeGenerator.wheel (o + a) - 1) ->
    Forall (fun x => x <= n) knownPrimes ->
    exists isWorking' knownPrimes',
      PrimeGenerator.forLoop w fuel n o (a :: offsets) isWorking knownPrimes
      = Shor.Returns (isWorking', knownPrimes')
      /\ Forall (fun x => x <= n) knownPrimes'
      /\ ((isWorking' = isWorking
           /\ PrimeGenerator.wheel (o + a + Z.of_nat (length offsets)) <= n
           /\ PrimeGenerator.primesUpTo knownPrimes'
                (PrimeGenerator.wheel (o + a + Z.of_nat (length offsets))))
          \/ (isWorking' = false
              /\ PrimeGenerator.primesUpTo knownPrimes' n
              /\ n < PrimeGenerator.wheel (o + a + Z.of_nat (length offsets)))).
Proof.
  induction offsets as [| i offsets IH]; intros a knownPrimes Hseq Ho Ha Hk Hfit Hknown Hle.
  - destruct (forLoop_step o a [] isWorking knownPrimes Ho Ha Hk Hfit Hknown Hle)
      as [[Hbreak ->] | (Hgo & known' & Hknown' & Hle' & ->)].
    + exists false, knownPrimes. split; [reflexivity |]. split; [assumption |]. right.
      cbn [length]. rewrite Z.add_0_r.
      split; [reflexivity |]. split; [eapply primesUpTo_cut; eauto | assumption].
    + exists isWorking, known'. split; [reflexivity |]. split; [assumption |]. left.
      cbn [length]. rewrite Z.add_0_r. auto.
  - assert (i = a + 1) as -> by (apply (Hseq 1%nat); reflexivity).
    assert (Hlen : o + a + Z.of_nat (length ((a + 1) :: offsets))
                   = o + (a + 1) + Z.of_nat (length offsets))
      by (cbn [length]; lia).
    rewrite Hlen.
    destruct (forLoop_step o a ((a + 1) :: offsets) isWorking knownPrimes
                Ho Ha Hk Hfit Hknown Hle)
      as [[Hbreak ->] | (Hgo & known' & Hknown' & Hle' & ->)].
    + exists false, knownPrimes. split; [reflexivity |]. split; [assumption |]. right.
      split; [reflexivity |]. split; [eapply primesUpTo_cut; eauto |].
      pose proof (wheel_mono (o + a) (o + (a + 1) + Z.of_nat (length offsets)) ltac:(lia)).
      lia.
    + pose proof (wheel_bounds (o + a)) as (Hb & _).
      apply next_candidate in Hknown'; [| assumption].
      replace (o + a + 1) with (o + (a + 1)) in Hknown' by lia.
      apply IH; try assumption; try lia.
      intros j i Hj. specialize (Hseq (S j) i Hj). lia.
Qed.

(** The [while] loop from the offset [o] on. *)
Lemma whileLoop_run :
  forall (turns : nat) o knownPrimes,
    o mod 10 = 2 -> 2 <= o -> 3 * o <= n + 5 -> n + 5 < 3 * o + Z.of_nat turns ->
    PrimeGenerator.primesUpTo knownPrimes (PrimeGenerator.wheel (o + 1) - 1) ->
    Forall (fun x => x <= n) knownPrimes ->
    exists primes,
      PrimeGenerator.whileLoop w turns fuel n o knownPrimes = Shor.Returns primes
      /\ PrimeGenerator.primesUpTo primes n.
Proof.
  induction turns as [| turns IH]; intros o knownPrimes Ho10 Ho Hlow Hturns Hknown Hle;
    [lia |].
  cbn [PrimeGenerator.whileLoop].
  destruct (forLoop_run o true [2; 3; 4; 5; 6] 1 knownPrimes)
    as (w1 & known1 & -> & Hle1 & [(-> & Hn1 & Hknown1) | (-> & Hknown1 & Hn1)]);
    try assumption; try lia.
  { intros j i Hj. do 6 (destruct j as [| j]; [injection Hj as <-; reflexivity |]).
    discriminate. }
  - cbn [length] in Hn1, Hknown1.
    replace (o + 1 + Z.of_nat 5) with (o + 6) in Hn1, Hknown1 by lia.
    pose proof (wheel_bounds (o + 6)) as (Hb6 & _).
    apply skip_candidate in Hknown1;
      [| lia | right; Z.div_mod_to_equations; lia].
    replace (o + 6 + 2) with (o + 8) in Hknown1 by lia.
    destruct (forLoop_run o true [9] 8 known1)
      as (w2 & known2 & -> & Hle2 & [(-> & Hn2 & Hknown2) | (-> & Hknown2 & Hn2)]);
      try assumption; try lia.
    { intros j i Hj. do 2 (destruct j as [| j]; [injection Hj as <-; reflexivity |]).
      discriminate. }
    + cbn [length] in Hn2, Hknown2.
      replace (o + 8 + Z.of_nat 1) with (o + 9) in Hn2, Hknown2 by lia.
      pose proof (wheel_bounds (o + 9)) as (Hb9 & _).
      apply skip_candidate in Hknown2;
        [| lia | left; Z.div_mod_to_equations; lia].
      replace (o + 9 + 2) with (o + 10 + 1) in Hknown2 by lia.
      unfold uadd. rewrite (wrap_small w (o + 10)) by lia.
      apply IH; try assumption; try lia.
      Z.div_mod_to_equations. lia.
    + exists known2. split; [reflexivity | assumption].
  - cbn [length] in Hn1.
    replace (o + 1 + Z.of_nat 5) with (o + 6) in Hn1 by lia.
    cbn [PrimeGenerator.forLoop]. cbv zeta.
    assert (E : PrimeGenerator.forward w (uadd w o 8) = PrimeGenerator.wheel (o + 8)).
    { unfold uadd. rewrite (wrap_small w (o + 8)) by lia. apply forward_value; lia. }
    rewrite E. clear E.
    pose proof (wheel_mono (o + 6) (o + 8) ltac:(lia)).
    destruct (Z.ltb_spec n (PrimeGenerator.wheel (o + 8))); [| lia].
    exists known1. split; [reflexivity | assumption].
Qed.
End TrialDivisionLoops.

(** The loop of [isTimeOrSpaceMultiple] over an increasing list: it
    answers, with a divisor up to the root among the known primes when
    the answer is yes, and with no such divisor when the answer is no. *)
Lemma spaceScan_spec (p sqrtP : Z) (knownPrimes : list Z) :
  StronglySorted Z.lt knownPrimes -> (forall k, In k knownPrimes -> k <> 0) ->
  exists b, PrimeGenerator.spaceScan p sqrtP knownPrimes = Shor.Returns b
    /\ (b = true -> exists k, In k knownPrimes /\ k <= sqrtP /\ (k | p))
    /\ (b = false -> forall k, In k knownPrimes -> k <= sqrtP -> ~ (k | p)).
Proof.
  induction 1 as [| i rest Hsorted IH Hi]; intros Hnz; cbn [PrimeGenerator.spaceScan].
  - exists false. split; [reflexivity |]. split; [discriminate |]. intros _ k [].
  - rewrite List.Forall_forall in Hi.
    destruct (Z.ltb_spec sqrtP i) as [Hcut | Hgo].
    + exists false. split; [reflexivity |]. split; [discriminate |].
      intros _ k [<- | Hk] Hle; [lia |]. apply Hi in Hk. lia.
    + destruct (Z.eqb_spec i 0) as [E | E]; [now apply Hnz in E; [| left] |].
      destruct (Z.eqb_spec (p mod i) 0) as [Hdiv | Hdiv].
      * exists true. split; [reflexivity |]. split; [| discriminate].
        intros _. exists i. split; [now left |]. split; [assumption |].
        now apply Z.mod_divide.
      * destruct (IH (fun k Hk => Hnz k (or_intror Hk))) as (b & Hb & Ht & Hf).
        exists b. split; [assumption |]. split.
        -- intros Hbt. destruct (Ht Hbt) as (k & Hk & Hkp). exists k. split; [now right | assumption].
        -- intros Hbf k [<- | Hk] Hle; [| now apply Hf].
           intros Hk0. apply Hdiv. now apply Z.mod_divide.
Qed.

Section PrimalityTests.
Variable w : Z.
Hypothesis w_pos : 0 < w.

(** X24. With all the primes below [p] known, in increasing order, both
    tests decide whether [p] is prime, as long as [sqrt] does not wrap:
    [isTimeOrSpaceMultiple] for every [p] from 2 on, and [isTimeMultiple],
    which starts at the third known prime and compares the index, not the
    prime, with the root, for every [p] from 7 on that is a multiple
    neither of 2 nor of 3.  They answer no exactly on the primes. *)
Theorem multiple_tests_decide_primality (fuel : nat) (p : Z) (knownPrimes : list Z) :
  PrimeGenerator.primesUpTo knownPrimes (p - 1) -> 2 <= p ->
  p + 1 < 2 ^ w -> (p / 2) * (p / 2) < 2 ^ w -> (Z.to_nat (p / 2) <= fuel)%nat ->
  (exists b, PrimeGenerator.isTimeOrSpaceMultiple w fuel p knownPrimes = Shor.Returns b
             /\ (b = false <-> Z.prime p))
  /\ (7 <= p -> p mod 2 = 1 -> p mod 3 <> 0 ->
      exists b, PrimeGenerator.isTimeMultiple w fuel p knownPrimes = Shor.Returns b
                /\ (b = false <-> Z.prime p)).
Proof.
  intros Hknown Hp Hfit Hsq Hfuel. split.
  - unfold PrimeGenerator.isTimeOrSpaceMultiple.
    rewrite (sqrt_value w w_pos fuel p) by lia.
    destruct Hknown as [Hsorted Hprimes].
    destruct (spaceScan_spec p (Z.sqrt p) knownPrimes Hsorted) as (b & Hb & Ht & Hf).
    { intros k Hk. apply Hprimes in Hk. destruct Hk as [Hk _]. apply Z.prime_ge_2 in Hk. lia. }
    exists b. split; [assumption |].
    pose proof (Z.sqrt_spec p ltac:(lia)) as Hroot. unfold Z.succ in Hroot.
    pose proof (Z.sqrt_nonneg p) as Hroot0.
    split.
    + intros ->. destruct (prime_or_not p) as [Hprime | Hnot]; [assumption | exfalso].
      destruct (small_prime_divisor p ltac:(lia) Hnot) as (q & Hq & Hqp & Hqsq).
      pose proof (Z.prime_ge_2 q Hq) as Hq2.
      apply (Hf eq_refl q); [| | assumption].
      * apply Hprimes. split; [assumption | nia].
      * apply Z.sqrt_le_square; lia.
    + intros Hprime. destruct b; [exfalso | reflexivity].
      destruct (Ht eq_refl) as (k & Hk & Hle & Hkp).
      apply Hprimes in Hk. destruct Hk as [Hk _]. apply Z.prime_ge_2 in Hk.
      apply (proper_divisor_not_prime k p); [nia | assumption | assumption].
  - intros H7 H2 H3. now apply isTimeMultiple_prime.
Qed.

(** X25. The candidates of [TrialDivision], [forward(o + i)] for [o] = 2,
    12, 22, ... and [i] from 1 to 6, 8 and 9, are multiples of none of 2,
    3 and 5, and the two values of [i] left out in every ten, 7 and 10,
    give multiples of 5. *)
Theorem candidates_coprime_to_30 (o i : Z) :
  0 <= o -> o mod 10 = 2 -> 3 * (o + 10) < 2 ^ w ->
  (In i [1; 2; 3; 4; 5; 6; 8; 9] ->
   PrimeGenerator.forward w (o + i) mod 2 = 1
   /\ PrimeGenerator.forward w (o + i) mod 3 <> 0
   /\ PrimeGenerator.forward w (o + i) mod 5 <> 0)
  /\ PrimeGenerator.forward w (o + 7) mod 5 = 0
  /\ PrimeGenerator.forward w (o + 10) mod 5 = 0.
Proof.
  intros Ho Ho10 Hfit. split; [| split].
  - intros Hi. assert (Hi' : 1 <= i <= 9 /\ i <> 7) by (cbn in Hi; lia).
    rewrite forward_value by lia. unfold PrimeGenerator.wheel.
    Z.div_mod_to_equations. lia.
  - rewrite forward_value by lia. apply wheel_five. right. Z.div_mod_to_equations. lia.
  - rewrite forward_value by lia. apply wheel_five. left. Z.div_mod_to_equations. lia.
Qed.

Lemma small_primes (x : Z) : Z.prime x -> x <= 6 -> x = 2 \/ x = 3 \/ x = 5.
Proof.
  intros Hx Hle. pose proof (Z.prime_ge_2 x Hx) as Hge.
  assert (H : x = 2 \/ x = 3 \/ x = 4 \/ x = 5 \/ x = 6) by lia.
  destruct H as [-> | [-> | [-> | [-> | ->]]]]; auto; exfalso; revert Hx.
  - apply (multiple_not_prime 2); [lia | reflexivity].
  - apply (multiple_not_prime 2); [lia | reflexivity].
Qed.

(** X26. [TrialDivision(n)] returns the primes up to [n], all of them and
    nothing else, in increasing order, as long as [n + 30] and the square
    of [n / 2] are within the width; its loops end (the [while] loop
    within [n] turns). *)
Theorem TrialDivision_primes (fuel : nat) (n : Z) :
  n + 30 <= 2 ^ w -> (n / 2) * (n / 2) < 2 ^ w -> (Z.to_nat n <= fuel)%nat ->
  exists primes,
    PrimeGenerator.TrialDivision w fuel n = Shor.Returns primes
    /\ StronglySorted Z.lt primes
    /\ forall x, In x primes <-> Z.prime x /\ x <= n.
Proof.
  intros Hfit Hsq Hfuel. unfold PrimeGenerator.TrialDivision.
  assert (H235 : StronglySorted Z.lt [2; 3; 5]).
  { repeat constructor; lia. }
  assert (Hsmall : forall l : list Z, StronglySorted Z.lt l ->
            (forall x, In x l <-> (x = 2 \/ x = 3 \/ x = 5) /\ x <= n) -> n <= 6 ->
            exists primes, Shor.Returns l = Shor.Returns primes
              /\ StronglySorted Z.lt primes /\ forall x, In x primes <-> Z.prime x /\ x <= n).
  { intros l Hl Hin Hn. exists l. split; [reflexivity |]. split; [assumption |].
    intros x. rewrite Hin. split; intros [Hx Hle]; (split; [| assumption]).
    - destruct Hx as [-> | [-> | ->]]; [apply Z.prime_2 | apply Z.prime_3 | apply prime_5].
    - apply small_primes; [assumption | lia]. }
  destruct (Z.ltb_spec n 2); [| destruct (Z.ltb_spec n 3);
    [| destruct (Z.ltb_spec n 5); [| destruct (Z.ltb_spec n 7)]]].
  - apply Hsmall; [constructor | | lia]. intros x. cbn [In]. lia.
  - apply Hsmall; [| | lia].
    + repeat constructor.
    + intros x. cbn [take In]. lia.
  - apply Hsmall; [| | lia].
    + repeat constructor; lia.
    + intros x. cbn [take In]. lia.
  - apply Hsmall; [assumption | | lia]. intros x. cbn [take In]. lia.
  - destruct (whileLoop_run w w_pos n Hfit Hsq fuel Hfuel fuel 2 [2; 3; 5])
      as (primes & Hrun & Hsorted & Hprimes); try lia.
    + reflexivity.
    + change (PrimeGenerator.wheel (2 + 1) - 1) with 6. split; [assumption |].
      intros x. cbn [In]. split.
      * intros [<- | [<- | [<- | []]]];
          (split; [first [apply Z.prime_2 | apply Z.prime_3 | apply prime_5] | lia]).
      * intros [Hx Hle]. destruct (small_primes x Hx Hle) as [-> | [-> | ->]]; auto.
    + repeat constructor; lia.
    + exists primes. auto.
Qed.
End PrimalityTests.

Lemma primes_below_11 : PrimeGenerator.primesUpTo [2; 3; 5; 7] (11 - 1).
Proof.
  split; [repeat constructor; lia |].
  intros x. cbn [In]. split.
  - intros [<- | [<- | [<- | [<- | []]]]];
      (split; [apply prime_by_trial; [lia | reflexivity] | lia]).
  - intros [Hx Hle]. pose proof (Z.prime_ge_2 x Hx) as Hge.
    assert (H : x = 2 \/ x = 3 \/ x = 5 \/ x = 7
                \/ ((x = 4 \/ x = 6 \/ x = 8 \/ x = 10) \/ x = 9)) by lia.
    destruct H as [-> | [-> | [-> | [-> | H]]]]; auto 6.
    exfalso. revert Hx. destruct H as [H | ->].
    + apply (multiple_not_prime 2); [lia |].
      destruct H as [-> | [-> | [-> | ->]]]; reflexivity.
    + apply (multiple_not_prime 3); [lia | reflexivity].
Qed.

Lemma multiple_tests_decide_primality_witness :
  (exists b, PrimeGenerator.isTimeOrSpaceMultiple 64 5 11 [2; 3; 5; 7] = Shor.Returns b
             /\ (b = false <-> Z.prime 11))
  /\ (7 <= 11 -> 11 mod 2 = 1 -> 11 mod 3 <> 0 ->
      exists b, PrimeGenerator.isTimeMultiple 64 5 11 [2; 3; 5; 7] = Shor.Returns b
                /\ (b = false <-> Z.prime 11)).
Proof.
  apply (multiple_tests_decide_primality 64 ltac:(lia) 5 11 [2; 3; 5; 7]);
    [apply primes_below_11 | lia | lia | reflexivity | vm_compute; lia].
Defined.

Lemma candidates_coprime_to_30_witness :
  (In 4 [1; 2; 3; 4; 5; 6; 8; 9] ->
   PrimeGenerator.forward 64 (12 + 4) mod 2 = 1
   /\ PrimeGenerator.forward 64 (12 + 4) mod 3 <> 0
   /\ PrimeGenerator.forward 64 (12 + 4) mod 5 <> 0)
  /\ PrimeGenerator.forward 64 (12 + 7) mod 5 = 0
  /\ PrimeGenerator.forward 64 (12 + 10) mod 5 = 0.
Proof. apply (candidates_coprime_to_30 64 ltac:(lia) 12 4); [lia | reflexivity | lia]. Defined.

Lemma TrialDivision_primes_witness :
  exists primes,
    PrimeGenerator.TrialDivision 64 50 50 = Shor.Returns primes
    /\ StronglySorted Z.lt primes
    /\ forall x, In x primes <-> Z.prime x /\ x <= 50.
Proof.
  apply (TrialDivision_primes 64 ltac:(lia) 50 50); [lia | reflexivity | lia].
Defined.

(** The primes up to 50, by running [TrialDivision]. *)
Lemma TrialDivision_50 :
  PrimeGenerator.TrialDivision 64 50 50
  = Shor.Returns [2; 3; 5; 7; 11; 13; 17; 19; 23; 29; 31; 37; 41; 43; 47].
Proof. vm_compute. reflexivity. Qed.

(** * The threads of the single-file engine *)







